(** * bare-metal-controller: the reconciliation engine and the fleet adapter

    A shallow embedding of
      - api/v1/server_types.go                      (the Server record),
      - internal/controller/server_controller.go    (Reconcile),
      - external/baremetalprovider.go               (the NodeGroup* RPCs),
    together with the properties the design document states about them.

    The record store (the controller-runtime client) is modelled as a finite
    map from names to stored objects, run sequentially: one call at a time,
    no concurrent writer, so a write fails only when its record does not
    exist.  Every write request and every capability call is appended to a
    trace, so that "no write" and "no power call" are statements about the
    trace and not only about the stored content.  The capabilities (probe,
    wake, shutdown, IPMI) and the clock are inputs of each call. *)

From Stdlib Require Import ZArith String List Lia.
From stdpp Require Import gmap strings pretty sorting.

Local Open Scope string_scope.
Local Open Scope Z_scope.
Local Open Scope list_scope.

(** ** api/v1/server_types.go *)

Definition PowerStateOn : string := "on".
Definition PowerStateOff : string := "off".

Definition ControlTypeWOL : string := "wol".
Definition ControlTypeIPMI : string := "ipmi".

Definition StatusPending : string := "pending".
Definition StatusActive : string := "active".
Definition StatusOffline : string := "offline".
Definition StatusDraining : string := "draining".
Definition StatusFailed : string := "failed".

Record IPMISpecs := {
  IPMI_Address : string;
  IPMI_Username : string;
  IPMI_Password : string
}.

Record WOLSpecs := {
  WOL_Address : string;
  WOL_MACAddress : string;
  WOL_Port : Z;
  WOL_User : string
}.

(** [*IPMISpecs] and [*WOLSpecs]: a nil pointer is [None]. *)
Record ControlSpecs := {
  IPMI : option IPMISpecs;
  WOL : option WOLSpecs
}.

Record ServerSpec := {
  PowerState : string;
  ControlType : string;   (* the Go field [Type] *)
  Control : ControlSpecs
}.

(** [metav1.Time], as seconds since the epoch. *)
Definition Time := Z.

Record ServerStatus := {
  CurrentStatus : string;          (* the Go field [Status] *)
  Message : string;
  FailingSince : option Time;
  FailureCount : Z
}.

Record Server := {
  Name : string;
  Spec : ServerSpec;
  Status : ServerStatus
}.

(** Field assignments. *)
Definition setPowerState (server : Server) (p : string) : Server :=
  {| Name := Name server;
     Spec := {| PowerState := p;
                ControlType := ControlType (Spec server);
                Control := Control (Spec server) |};
     Status := Status server |}.

Definition setStatus (server : Server) (s : string) : Server :=
  {| Name := Name server;
     Spec := Spec server;
     Status := {| CurrentStatus := s;
                  Message := Message (Status server);
                  FailingSince := FailingSince (Status server);
                  FailureCount := FailureCount (Status server) |} |}.

Definition setMessage (server : Server) (m : string) : Server :=
  {| Name := Name server;
     Spec := Spec server;
     Status := {| CurrentStatus := CurrentStatus (Status server);
                  Message := m;
                  FailingSince := FailingSince (Status server);
                  FailureCount := FailureCount (Status server) |} |}.

Definition setFailingSince (server : Server) (t : option Time) : Server :=
  {| Name := Name server;
     Spec := Spec server;
     Status := {| CurrentStatus := CurrentStatus (Status server);
                  Message := Message (Status server);
                  FailingSince := t;
                  FailureCount := FailureCount (Status server) |} |}.

Definition setFailureCount (server : Server) (n : Z) : Server :=
  {| Name := Name server;
     Spec := Spec server;
     Status := {| CurrentStatus := CurrentStatus (Status server);
                  Message := Message (Status server);
                  FailingSince := FailingSince (Status server);
                  FailureCount := n |} |}.

(** Go's [int] is 64 bits wide on the supported platforms; [++] wraps. *)
Definition wrapInt (z : Z) : Z := (z + 2 ^ 63) mod 2 ^ 64 - 2 ^ 63.

(** ** Errors

    A Go [error] is kept with its structure: the store's not-found error
    (recognised by [client.IgnoreNotFound]), a message built by
    [fmt.Errorf], and a message wrapping a cause with [%w]. *)
Inductive error :=
| NotFoundError (name : string)
| Errorf (msg : string)
| Wrapf (msg : string) (cause : error).

Fixpoint Error (e : error) : string :=
  match e with
  | NotFoundError name => "servers " +:+ name +:+ " not found"
  | Errorf msg => msg
  | Wrapf msg cause => msg +:+ Error cause
  end.

Definition IgnoreNotFound (e : error) : option error :=
  match e with
  | NotFoundError _ => None
  | _ => Some e
  end.

(** ** The record store and the trace of calls *)

(** What the store keeps under a name. *)
Record Object := {
  oSpec : ServerSpec;
  oStatus : ServerStatus
}.

Inductive Event :=
| EvUpdate (obj : Server)
| EvStatusUpdate (obj : Server)
| EvIsReachable (address : string)
| EvWake (macAddress : string) (port : Z)
| EvShutdown (host user : string)
| EvPowerOn (address username password : string)
| EvPowerOff (address username password : string).

Record World := {
  objects : gmap string Object;
  trace : list Event
}.

Definition isWrite (e : Event) : bool :=
  match e with
  | EvUpdate _ | EvStatusUpdate _ => true
  | _ => false
  end.

Definition isPowerCall (e : Event) : bool :=
  match e with
  | EvWake _ _ | EvShutdown _ _ | EvPowerOn _ _ _ | EvPowerOff _ _ _ => true
  | _ => false
  end.

Definition writes (w : World) : list Event := List.filter isWrite (trace w).
Definition powerCalls (w : World) : list Event := List.filter isPowerCall (trace w).

(** Code that reads and writes the world. *)
Definition M (A : Type) : Type := World -> A * World.

Definition ret {A} (a : A) : M A := fun w => (a, w).
Definition bind {A B} (m : M A) (k : A -> M B) : M B :=
  fun w => let (a, w') := m w in k a w'.

Notation "x <- c1 ;; c2" := (bind c1 (fun x => c2))
  (at level 100, c1 at next level, right associativity).
Notation "c1 ;;; c2" := (bind c1 (fun _ => c2))
  (at level 100, right associativity).

Definition emit (e : Event) : M unit :=
  fun w => (tt, {| objects := objects w; trace := trace w ++ [e] |}).

Definition toServer (name : string) (o : Object) : Server :=
  {| Name := name; Spec := oSpec o; Status := oStatus o |}.

(** [Client.Get]. *)
Definition Get (name : string) : M (Server + error) :=
  fun w => match objects w !! name with
           | Some o => (inl (toServer name o), w)
           | None => (inr (NotFoundError name), w)
           end.

(** The order of a listing: the store answers a list request with its
    objects ordered by name, byte by byte. *)
Definition byName (a b : string * Object) : Prop :=
  Is_true (String.leb (fst a) (fst b)).

#[global] Instance byName_dec (a b : string * Object) : Decision (byName a b).
Proof. unfold byName. apply _. Defined.

(** [Client.List]: every stored object, ordered by name. *)
Definition ListServers : M (list Server + error) :=
  fun w => (inl ((fun kv => toServer (fst kv) (snd kv))
                   <$> merge_sort byName (map_to_list (objects w))), w).

(** [Client.Update].  The resource declares the status subresource
    ([+kubebuilder:subresource:status]), so a plain update stores the
    submitted spec and keeps the stored status.  Here too the client
    writes the stored object back into the submitted copy; no caller reads
    the copy again after a plain update, so only the error is returned. *)
Definition Update (server : Server) : M (option error) :=
  emit (EvUpdate server) ;;;
  fun w => match objects w !! Name server with
           | Some o =>
               (None, {| objects := <[Name server :=
                                        {| oSpec := Spec server; oStatus := oStatus o |}]>
                                      (objects w);
                         trace := trace w |})
           | None => (Some (NotFoundError (Name server)), w)
           end.

(** [Client.Status().Update]: stores the submitted status and keeps the
    stored spec, whatever spec the submitted copy carries.  The client
    writes the object the store answers with back into the submitted copy,
    so the caller goes on with the stored spec and the status it
    submitted; a failed update leaves the copy as it was.  The result is
    this copy and the error. *)
Definition StatusUpdate (server : Server) : M (Server * option error) :=
  emit (EvStatusUpdate server) ;;;
  fun w => match objects w !! Name server with
           | Some o =>
               (({| Name := Name server; Spec := oSpec o; Status := Status server |}, None),
                {| objects := <[Name server :=
                                  {| oSpec := oSpec o; oStatus := Status server |}]>
                                (objects w);
                   trace := trace w |})
           | None => ((server, Some (NotFoundError (Name server))), w)
           end.

(** ** internal/power: the capability interfaces

    [WolSender], [SSHClient], [IPMIClient] and [Pinger] are interfaces the
    reconciler is constructed with; [Now] is the clock read by
    [metav1.Now].  One [Env] fixes what they answer during one call. *)
Record Env := {
  IsReachable : string -> bool;
  Wake : string -> Z -> option error;
  Shutdown : string -> string -> option error;
  PowerOn : string -> string -> string -> option error;
  PowerOff : string -> string -> string -> option error;
  Now : Time
}.

Definition callIsReachable (env : Env) (address : string) : M bool :=
  emit (EvIsReachable address) ;;; ret (IsReachable env address).

Definition callWake (env : Env) (mac : string) (port : Z) : M (option error) :=
  emit (EvWake mac port) ;;; ret (Wake env mac port).

Definition callShutdown (env : Env) (host user : string) : M (option error) :=
  emit (EvShutdown host user) ;;; ret (Shutdown env host user).

Definition callPowerOn (env : Env) (a u p : string) : M (option error) :=
  emit (EvPowerOn a u p) ;;; ret (PowerOn env a u p).

Definition callPowerOff (env : Env) (a u p : string) : M (option error) :=
  emit (EvPowerOff a u p) ;;; ret (PowerOff env a u p).

(** ** internal/controller/server_controller.go *)

Definition powerOn (env : Env) (server : Server) : M (option error) :=
  if decide (ControlType (Spec server) = ControlTypeWOL) then
    match WOL (Control (Spec server)) with
    | None => ret (Some (Errorf "WOL config is required"))
    | Some wol =>
        if decide (WOL_MACAddress wol = "") then
          ret (Some (Errorf "WOL MAC address is required"))
        else callWake env (WOL_MACAddress wol) (WOL_Port wol)
    end
  else if decide (ControlType (Spec server) = ControlTypeIPMI) then
    match IPMI (Control (Spec server)) with
    | None => ret (Some (Errorf "IPMI config is required"))
    | Some ipmi =>
        if decide (IPMI_Address ipmi = "") then
          ret (Some (Errorf "IPMI address is required"))
        else if decide (IPMI_Username ipmi = "" \/ IPMI_Password ipmi = "") then
          ret (Some (Errorf "IPMI username and password are required"))
        else callPowerOn env (IPMI_Address ipmi) (IPMI_Username ipmi) (IPMI_Password ipmi)
    end
  else ret (Some (Errorf ("unknown control type: " +:+ ControlType (Spec server)))).

Definition getServerAddress (server : Server) : string :=
  if decide (ControlType (Spec server) = ControlTypeWOL) then
    match WOL (Control (Spec server)) with
    | Some wol => WOL_Address wol
    | None => ""
    end
  else if decide (ControlType (Spec server) = ControlTypeIPMI) then
    match IPMI (Control (Spec server)) with
    | Some ipmi => IPMI_Address ipmi
    | None => ""
    end
  else "".

Definition powerOff (env : Env) (server : Server) : M (option error) :=
  if decide (ControlType (Spec server) = ControlTypeWOL) then
    match WOL (Control (Spec server)) with
    | None => ret (Some (Errorf "WOL config is required"))
    | Some wol =>
        if decide (WOL_Address wol = "") then
          ret (Some (Errorf "WOL address is required"))
        else callShutdown env (WOL_Address wol) (WOL_User wol)
    end
  else if decide (ControlType (Spec server) = ControlTypeIPMI) then
    match IPMI (Control (Spec server)) with
    | None => ret (Some (Errorf "IPMI config is required"))
    | Some ipmi =>
        if decide (IPMI_Address ipmi = "") then
          ret (Some (Errorf "IPMI address is required"))
        else if decide (IPMI_Username ipmi = "" \/ IPMI_Password ipmi = "") then
          ret (Some (Errorf "IPMI username and password are required"))
        else callPowerOff env (IPMI_Address ipmi) (IPMI_Username ipmi) (IPMI_Password ipmi)
    end
  else ret (Some (Errorf ("unknown control type: " +:+ ControlType (Spec server)))).

Definition clearFailure (server : Server) (newStatus : string) : Server :=
  let server := setStatus server newStatus in
  let server := setFailingSince server None in
  let server := setFailureCount server 0 in
  setMessage server "".

Definition recordFailure (env : Env) (server : Server) : Server :=
  let server :=
    match FailingSince (Status server) with
    | None => setFailingSince server (Some (Now env))
    | Some _ => server
    end in
  setFailureCount server (wrapInt (FailureCount (Status server) + 1)).

(** [ctrl.Result]; [RequeueAfter] is a [time.Duration], in nanoseconds. *)
Record Result := { RequeueAfter : Z }.

Definition Second : Z := 1000000000.
Definition noRequeue : Result := {| RequeueAfter := 0 |}.

(** The literal of the threshold test in [Reconcile]. *)
Definition failureThreshold : Z := 3.

(** The last part of [Reconcile], from "Determine current power state from
    status" on: compare, dispatch the power action, persist its outcome. *)
Definition powerAction (env : Env) (server : Server) : M (Result * option error) :=
  let currentState :=
    if decide (CurrentStatus (Status server) = StatusActive)
    then PowerStateOn else PowerStateOff in
  if decide (PowerState (Spec server) = currentState) then ret (noRequeue, None)
  else
    let finish (err : option error) (newStatus : string) : M (Result * option error) :=
      match err with
      | Some e =>
          let server := setStatus server StatusFailed in
          let server := setMessage server ("Power action failed: " +:+ Error e) in
          StatusUpdate server ;;;
          ret (noRequeue, Some e)
      | None =>
          let server := setStatus server newStatus in
          let server := setMessage server "" in
          StatusUpdate server ;;;
          ret ({| RequeueAfter := 60 * Second |}, None)
      end in
    if decide (PowerState (Spec server) = PowerStateOn) then
      err <- powerOn env server ;; finish err StatusPending
    else if decide (PowerState (Spec server) = PowerStateOff) then
      err <- powerOff env server ;; finish err StatusDraining
    else ret (noRequeue, None).

(** "Set default PowerState to off if not specified", on the fetched copy. *)
Definition defaultPowerState (server : Server) : Server :=
  if decide (PowerState (Spec server) = "")
  then setPowerState server PowerStateOff else server.

(** The [switch server.Status.Status] of [Reconcile] and what follows it;
    [reachable] is the answer of the probe. *)
Definition reconcilePhase (env : Env) (server : Server) (reachable : bool)
  : M (Result * option error) :=
  if decide (CurrentStatus (Status server) = StatusPending) then
    (* Waiting for server to come online *)
    let server :=
      if reachable then clearFailure server StatusActive
      else recordFailure env server in
    StatusUpdate server ;;;
    if reachable then ret (noRequeue, None)
    else ret ({| RequeueAfter := 60 * Second |}, None)
  else if decide (CurrentStatus (Status server) = StatusDraining) then
    (* Waiting for server to go offline *)
    let server :=
      if negb reachable then clearFailure server StatusOffline
      else recordFailure env server in
    StatusUpdate server ;;;
    if negb reachable then ret (noRequeue, None)
    else ret ({| RequeueAfter := 60 * Second |}, None)
  else if decide (CurrentStatus (Status server) = StatusActive) then
    (* Detect unexpected offline *)
    if negb reachable then
      let server := setStatus server StatusOffline in
      updated <- StatusUpdate server ;;
      let server := fst updated in
      powerAction env server
    else powerAction env server
  else if decide (CurrentStatus (Status server) = StatusOffline
                  \/ CurrentStatus (Status server) = "") then
    (* Detect unexpected online, or initialize status *)
    let server :=
      if reachable then setStatus server StatusActive
      else setStatus server StatusOffline in
    updated <- StatusUpdate server ;;
    let server := fst updated in
    powerAction env server
  else powerAction env server.

Definition Reconcile (env : Env) (req : string) : M (Result * option error) :=
  got <- Get req ;;
  match got with
  | inr err => ret (noRequeue, IgnoreNotFound err)
  | inl server =>
    let server := defaultPowerState server in
    (* Ignore if failed status *)
    if decide (CurrentStatus (Status server) = StatusFailed) then ret (noRequeue, None)
    (* Set to failed if failure count exceeds threshold *)
    else if FailureCount (Status server) >=? failureThreshold then
      let server := setStatus server StatusFailed in
      StatusUpdate server ;;;
      ret (noRequeue, None)
    else
    (* Check reachability *)
    let address := getServerAddress server in
    if decide (address = "") then
      let server := setStatus server StatusFailed in
      let server := setMessage server "No address configured for server" in
      updated <- StatusUpdate server ;;
      let server := fst updated in
      ret (noRequeue, Some (Errorf ("no address configured for server " +:+ Name server)))
    else
    reachable <- callIsReachable env address ;;
    (* Update status based on reachability *)
    reconcilePhase env server reachable
  end.

(** ** external/baremetalprovider.go *)

Definition defaultNodeGroupID : string := "bare-metal-pool".

(** The loop of [NodeGroupIncreaseSize] over [servers.Items]; the result is
    the final value of [provisioned], or the error of a failed update. *)
Fixpoint increaseLoop (delta : Z) (items : list Server) (provisioned : Z)
  : M (Z + error) :=
  match items with
  | [] => ret (inl provisioned)
  | server :: rest =>
      if (provisioned >=? delta)%Z then ret (inl provisioned)
      else if decide (PowerState (Spec server) = PowerStateOff) then
        let server := setPowerState server PowerStateOn in
        err <- Update server ;;
        match err with
        | Some e =>
            ret (inr (Wrapf ("failed to power on server " +:+ Name server +:+ ": ") e))
        | None => increaseLoop delta rest (provisioned + 1)
        end
      else increaseLoop delta rest provisioned
  end.

Definition NodeGroupIncreaseSize (id : string) (delta : Z) : M (unit + error) :=
  if decide (id <> defaultNodeGroupID) then
    ret (inr (Errorf ("unknown node group: " +:+ id)))
  else if (delta <=? 0)%Z then ret (inl tt)
  else
    listed <- ListServers ;;
    match listed with
    | inr e => ret (inr (Wrapf "failed to list servers: " e))
    | inl items =>
        looped <- increaseLoop delta items 0 ;;
        match looped with
        | inr e => ret (inr e)
        | inl provisioned =>
            if (provisioned <? delta)%Z then
              ret (inr (Errorf ("could not provision enough servers: requested "
                                +:+ pretty delta +:+ ", provisioned "
                                +:+ pretty provisioned)))
            else ret (inl tt)
        end
    end.

(** The loop of [NodeGroupDeleteNodes] over the names of [req.GetNodes()]. *)
Fixpoint deleteLoop (nodes : list string) : M (option error) :=
  match nodes with
  | [] => ret None
  | node :: rest =>
      got <- Get node ;;
      match got with
      | inr e => ret (Some (Wrapf ("failed to get server " +:+ node +:+ ": ") e))
      | inl server =>
          let server := setPowerState server PowerStateOff in
          err <- Update server ;;
          match err with
          | Some e =>
              ret (Some (Wrapf ("failed to power off server " +:+ Name server +:+ ": ") e))
          | None => deleteLoop rest
          end
      end
  end.

Definition NodeGroupDeleteNodes (id : string) (nodes : list string) : M (unit + error) :=
  if decide (id <> defaultNodeGroupID) then
    ret (inr (Errorf ("unknown node group: " +:+ id)))
  else
    looped <- deleteLoop nodes ;;
    match looped with
    | Some e => ret (inr e)
    | None => ret (inl tt)
    end.

(** The loop of [NodeGroupDecreaseTargetSize]; the result is the final value
    of [powered_off], or the error of a failed update. *)
Fixpoint decreaseLoop (delta : Z) (items : list Server) (powered_off : Z)
  : M (Z + error) :=
  match items with
  | [] => ret (inl powered_off)
  | server :: rest =>
      if (powered_off >=? delta)%Z then ret (inl powered_off)
      else if decide (PowerState (Spec server) = PowerStateOn) then
        let server := setPowerState server PowerStateOff in
        err <- Update server ;;
        match err with
        | Some e =>
            ret (inr (Wrapf ("failed to power off server " +:+ Name server +:+ ": ") e))
        | None => decreaseLoop delta rest (powered_off + 1)
        end
      else decreaseLoop delta rest powered_off
  end.

Definition NodeGroupDecreaseTargetSize (id : string) (delta : Z) : M (unit + error) :=
  if decide (id <> defaultNodeGroupID) then
    ret (inr (Errorf ("unknown node group: " +:+ id)))
  else if (delta <=? 0)%Z then ret (inl tt)
  else
    listed <- ListServers ;;
    match listed with
    | inr e => ret (inr (Wrapf "failed to list servers: " e))
    | inl items =>
        looped <- decreaseLoop delta items 0 ;;
        match looped with
        | inr e => ret (inr e)
        | inl _ => ret (inl tt)
        end
    end.

(** ** The scheduler: repeated invocations for one machine

    [reconcileAll] runs [Reconcile] once per element of [envs], each time
    against what the capabilities answer at that moment, and returns the
    results in order. *)
Fixpoint reconcileAll (envs : list Env) (req : string)
  : M (list (Result * option error)) :=
  match envs with
  | [] => ret []
  | env :: rest =>
      r <- Reconcile env req ;;
      rs <- reconcileAll rest req ;;
      ret (r :: rs)
  end.

(** * Vocabulary of the statements

    Nothing below is code of the repository: these are the notions the
    properties are stated with. *)

(** What a call of [Reconcile] for [req] may send: probes, power calls and
    status updates of [req]; never a plain update. *)
Definition okEvent (req : string) (e : Event) : Prop :=
  match e with
  | EvUpdate _ => False
  | EvStatusUpdate s => Name s = req
  | _ => True
  end.

(** The status [s] with another phase. *)
Definition withPhase (s : ServerStatus) (phase : string) : ServerStatus :=
  {| CurrentStatus := phase; Message := Message s;
     FailingSince := FailingSince s; FailureCount := FailureCount s |}.

(** What [powerAction] does to the stored status [s]: nothing (converged,
    or a desired state that is neither on nor off), a power action sent, or
    a power action failed. *)
Inductive actionOutcome (s : ServerStatus)
  : ServerStatus -> Result * option error -> Prop :=
| act_none : actionOutcome s s (noRequeue, None)
| act_sent (newStatus : string) :
    newStatus = StatusPending \/ newStatus = StatusDraining ->
    actionOutcome s
      {| CurrentStatus := newStatus; Message := "";
         FailingSince := FailingSince s; FailureCount := FailureCount s |}
      ({| RequeueAfter := 60 * Second |}, None)
| act_error (e : error) :
    actionOutcome s
      {| CurrentStatus := StatusFailed;
         Message := "Power action failed: " +:+ Error e;
         FailingSince := FailingSince s; FailureCount := FailureCount s |}
      (noRequeue, Some e).

(** What one call of [Reconcile] does to the status of the record it is
    called for, path by path: [outcome env name s s' r] relates the stored
    status [s] before the call to the stored status [s'] after it and to
    the returned result [r]. *)
Inductive outcome (env : Env) (name : string) (s : ServerStatus)
  : ServerStatus -> Result * option error -> Prop :=
| out_failed :
    CurrentStatus s = StatusFailed ->
    outcome env name s s (noRequeue, None)
| out_threshold :
    CurrentStatus s <> StatusFailed ->
    failureThreshold <= FailureCount s ->
    outcome env name s (withPhase s StatusFailed) (noRequeue, None)
| out_no_address :
    CurrentStatus s <> StatusFailed ->
    FailureCount s < failureThreshold ->
    outcome env name s
      {| CurrentStatus := StatusFailed;
         Message := "No address configured for server";
         FailingSince := FailingSince s; FailureCount := FailureCount s |}
      (noRequeue, Some (Errorf ("no address configured for server " +:+ name)))
| out_cleared (newStatus : string) :
    FailureCount s < failureThreshold ->
    (CurrentStatus s = StatusPending /\ newStatus = StatusActive) \/
    (CurrentStatus s = StatusDraining /\ newStatus = StatusOffline) ->
    outcome env name s
      {| CurrentStatus := newStatus; Message := "";
         FailingSince := None; FailureCount := 0 |}
      (noRequeue, None)
| out_recorded :
    FailureCount s < failureThreshold ->
    CurrentStatus s = StatusPending \/ CurrentStatus s = StatusDraining ->
    outcome env name s
      {| CurrentStatus := CurrentStatus s; Message := Message s;
         FailingSince := match FailingSince s with
                         | None => Some (Now env)
                         | Some t => Some t
                         end;
         FailureCount := wrapInt (FailureCount s + 1) |}
      ({| RequeueAfter := 60 * Second |}, None)
| out_observed (phase : string) (s' : ServerStatus) (r : Result * option error) :
    CurrentStatus s <> StatusFailed ->
    CurrentStatus s <> StatusPending ->
    CurrentStatus s <> StatusDraining ->
    FailureCount s < failureThreshold ->
    actionOutcome (withPhase s phase) s' r ->
    outcome env name s s' r.

(** The stored object with another desired power state. *)
Definition withPower (p : string) (o : Object) : Object :=
  {| oSpec := {| PowerState := p;
                 ControlType := ControlType (oSpec o);
                 Control := Control (oSpec o) |};
     oStatus := oStatus o |}.

(** What [ListServers] answers in a given world. *)
Definition listed (w : World) : list Server :=
  (fun kv => toServer (fst kv) (snd kv)) <$> merge_sort byName (map_to_list (objects w)).

(** The number of records whose desired power state is [p]. *)
Definition countPower (p : string) (w : World) : Z :=
  Z.of_nat (length (filter (fun s => PowerState (Spec s) = p) (listed w))).

Definition toObject (server : Server) : Object :=
  {| oSpec := Spec server; oStatus := Status server |}.

(** The servers a scaling loop turns: the first [budget] ones, in list
    order, whose desired power state is [from]. *)
Fixpoint chosen (from : string) (budget : Z) (items : list Server) : list Server :=
  match items with
  | [] => []
  | server :: rest =>
      if budget <=? 0 then []
      else if decide (PowerState (Spec server) = from)
           then server :: chosen from (budget - 1) rest
           else chosen from budget rest
  end.

(** Storing the turned servers, one after the other. *)
Definition storeAll (to : string) (turned : list Server) (m : gmap string Object)
  : gmap string Object :=
  foldl (fun m s => <[Name s := toObject (setPowerState s to)]> m) m turned.

(** The two scaling loops are one loop, up to the two power states and the
    text of the error. *)
Fixpoint turnLoop (from to msg : string) (delta : Z) (items : list Server) (done : Z)
  : M (Z + error) :=
  match items with
  | [] => ret (inl done)
  | server :: rest =>
      if done >=? delta then ret (inl done)
      else if decide (PowerState (Spec server) = from) then
        let server := setPowerState server to in
        err <- Update server ;;
        match err with
        | Some e => ret (inr (Wrapf (msg +:+ Name server +:+ ": ") e))
        | None => turnLoop from to msg delta rest (done + 1)
        end
      else turnLoop from to msg delta rest done
  end.

(** The named members up to, and not including, the first one the store
    does not hold. *)
Fixpoint knownPrefix (m : gmap string Object) (nodes : list string) : list string :=
  match nodes with
  | [] => []
  | node :: rest =>
      match m !! node with
      | Some _ => node :: knownPrefix m rest
      | None => []
      end
  end.

(** An update as the adapter may send it in world [w]: a plain update of a
    stored record that submits this record's stored status and control
    fields, so that at most the desired power state differs. *)
Definition submitsPowerOnly (w : World) (e : Event) : Prop :=
  match e with
  | EvUpdate s =>
      exists o, objects w !! Name s = Some o
                /\ Status s = oStatus o
                /\ ControlType (Spec s) = ControlType (oSpec o)
                /\ Control (Spec s) = Control (oSpec o)
  | _ => False
  end.

(** Between [w] and [w'] no stored spec changed, no record other than
    [req] changed at all, and nothing was sent but probes, power calls and
    status updates of [req]. *)
Definition statusOnly (req : string) (w w' : World) : Prop :=
  (forall n, oSpec <$> objects w' !! n = oSpec <$> objects w !! n)
  /\ (forall n, n <> req -> objects w' !! n = objects w !! n)
  /\ exists evs, trace w' = trace w ++ evs /\ Forall (okEvent req) evs.

(** Between [w] and [w'] no stored status changed, no spec field other
    than the desired power state changed, no record appeared or vanished,
    and nothing was sent but plain updates that submit at most another
    desired power state. *)
Definition powerStateOnly (w w' : World) : Prop :=
  (forall n, oStatus <$> objects w' !! n = oStatus <$> objects w !! n)
  /\ (forall n, (fun o => (ControlType (oSpec o), Control (oSpec o))) <$> objects w' !! n
                = (fun o => (ControlType (oSpec o), Control (oSpec o))) <$> objects w !! n)
  /\ exists evs, trace w' = trace w ++ evs /\ Forall (submitsPowerOnly w) evs.

(** * Concrete records, after the fixtures of the controller's tests *)

Module Fixture.

Definition serverName : string := "wol-test-server".

(** [createWolServer]. *)
Definition wolSpec (desiredPower : string) : ServerSpec :=
  {| PowerState := desiredPower;
     ControlType := ControlTypeWOL;
     Control := {| IPMI := None;
                   WOL := Some {| WOL_Address := "192.168.1.100";
                                  WOL_MACAddress := "00:11:22:33:44:55";
                                  WOL_Port := 9;
                                  WOL_User := "admin" |} |} |}.

(** "type is WoL but WoL specs are nil". *)
Definition wolSpecNil : ServerSpec :=
  {| PowerState := PowerStateOn;
     ControlType := ControlTypeWOL;
     Control := {| IPMI := None; WOL := None |} |}.

(** An IPMI record with an address and no credentials. *)
Definition ipmiSpecNoCredentials : ServerSpec :=
  {| PowerState := PowerStateOn;
     ControlType := ControlTypeIPMI;
     Control := {| IPMI := Some {| IPMI_Address := "192.168.1.101";
                                   IPMI_Username := "";
                                   IPMI_Password := "" |};
                   WOL := None |} |}.

Definition status (phase : string) : ServerStatus :=
  {| CurrentStatus := phase; Message := ""; FailingSince := None; FailureCount := 0 |}.

Definition streak (phase : string) (since : Time) (count : Z) : ServerStatus :=
  {| CurrentStatus := phase; Message := ""; FailingSince := Some since;
     FailureCount := count |}.

Definition object (spec : ServerSpec) (st : ServerStatus) : Object :=
  {| oSpec := spec; oStatus := st |}.

(** A world with the one test server and an empty trace. *)
Definition world (o : Object) : World :=
  {| objects := {[ serverName := o ]}; trace := [] |}.

(** A pool of three machines: two desired off, one desired on. *)
Definition pool : World :=
  {| objects := {[ "node-a" := object (wolSpec PowerStateOff) (status StatusOffline);
                   "node-b" := object (wolSpec PowerStateOn) (status StatusActive);
                   "node-c" := object (wolSpec PowerStateOff) (status StatusOffline) ]};
     trace := [] |}.

(** The mocks: a pinger with a fixed answer, backends that succeed. *)
Definition env (reachable : bool) (now : Time) : Env :=
  {| IsReachable := fun _ => reachable;
     Wake := fun _ _ => None;
     Shutdown := fun _ _ => None;
     PowerOn := fun _ _ _ => None;
     PowerOff := fun _ _ _ => None;
     Now := now |}.

End Fixture.

(** The phase stored for the test server in a world. *)
Definition phaseOf (w : World) : option string :=
  (fun o => CurrentStatus (oStatus o)) <$> objects w !! Fixture.serverName.

(** * The rest of the sources

    The calls of [external/baremetalprovider.go] that only read, the magic
    packet and the pinger of [internal/power], and the options of
    [external/server.go]. *)

(** ** external/baremetalprovider.go: the read calls *)

(** Go's [int32]: the conversion [int32(n)] and [++] on an [int32] wrap. *)
Definition wrapInt32 (z : Z) : Z := (z + 2 ^ 31) mod 2 ^ 32 - 2 ^ 31.

(** The protocol's messages are generated code that is not among the
    sources; these are the fields the provider fills in. *)
Record NodeGroup := {
  NodeGroup_Id : string;
  NodeGroup_MinSize : Z;
  NodeGroup_MaxSize : Z
}.

Inductive InstanceState :=
| InstanceStatus_unspecified
| InstanceStatus_instanceRunning
| InstanceStatus_instanceCreating
| InstanceStatus_instanceDeleting.

Record InstanceStatus := {
  InstanceStatus_InstanceState : InstanceState
}.

Record Instance := {
  Instance_Id : string;
  Instance_Status : InstanceStatus
}.

Definition NodeGroups : M (list NodeGroup + error) :=
  listed <- ListServers ;;
  match listed with
  | inr e => ret (inr (Wrapf "failed to list servers: " e))
  | inl items =>
      ret (inl [ {| NodeGroup_Id := defaultNodeGroupID;
                    NodeGroup_MinSize := 0;
                    NodeGroup_MaxSize := wrapInt32 (Z.of_nat (length items)) |} ])
  end.

(** [getMaxSize]: the number of servers, 0 when they cannot be listed. *)
Definition getMaxSize : M Z :=
  listed <- ListServers ;;
  match listed with
  | inr _ => ret 0
  | inl items => ret (wrapInt32 (Z.of_nat (length items)))
  end.

(** [NodeGroupForNode]; [node] is the name of [req.GetNode()], [None] when
    the request carries no node. *)
Definition NodeGroupForNode (node : option string) : M (option NodeGroup + error) :=
  match node with
  | None => ret (inr (Errorf "node is required"))
  | Some name =>
      got <- Get name ;;
      match got with
      | inr _ => ret (inl None)
      | inl _ =>
          maxSize <- getMaxSize ;;
          ret (inl (Some {| NodeGroup_Id := defaultNodeGroupID;
                            NodeGroup_MinSize := 0;
                            NodeGroup_MaxSize := maxSize |}))
      end
  end.

(** The counting loop of [NodeGroupTargetSize], on an [int32]. *)
Fixpoint targetSizeLoop (items : list Server) (targetSize : Z) : Z :=
  match items with
  | [] => targetSize
  | server :: rest =>
      if decide (PowerState (Spec server) = PowerStateOn)
      then targetSizeLoop rest (wrapInt32 (targetSize + 1))
      else targetSizeLoop rest targetSize
  end.

Definition NodeGroupTargetSize (id : string) : M (Z + error) :=
  if decide (id <> defaultNodeGroupID) then
    ret (inr (Errorf ("unknown node group: " +:+ id)))
  else
    listed <- ListServers ;;
    match listed with
    | inr e => ret (inr (Wrapf "failed to list servers: " e))
    | inl items => ret (inl (targetSizeLoop items 0))
    end.

Definition mapPowerStateToInstanceState (powerState : string) : InstanceState :=
  if decide (powerState = PowerStateOn) then InstanceStatus_instanceRunning
  else if decide (powerState = PowerStateOff) then InstanceStatus_instanceDeleting
  else InstanceStatus_unspecified.

(** The loop of [NodeGroupNodes]: one instance appended per server. *)
Fixpoint nodesLoop (items : list Server) (instances : list Instance) : list Instance :=
  match items with
  | [] => instances
  | server :: rest =>
      let status :=
        {| InstanceStatus_InstanceState :=
             mapPowerStateToInstanceState (PowerState (Spec server)) |} in
      nodesLoop rest (instances ++ [ {| Instance_Id := Name server;
                                        Instance_Status := status |} ])
  end.

Definition NodeGroupNodes (id : string) : M (list Instance + error) :=
  if decide (id <> defaultNodeGroupID) then
    ret (inr (Errorf ("unknown node group: " +:+ id)))
  else
    listed <- ListServers ;;
    match listed with
    | inr e => ret (inr (Wrapf "failed to list servers: " e))
    | inl items => ret (inl (nodesLoop items []))
    end.

(** ** internal/power/wol.go

    Bytes are numbers from 0 to 255. *)

Record RealWolSender := {
  DefaultPort : Z;
  DefaultBroadcastAddress : string
}.

(** Go's [copy(dst[off:], src)]: element by element from [off] on, as many
    as fit. *)
Definition copyAt (dst : list Z) (off : nat) (src : list Z) : list Z :=
  list_inserts off src dst.

(** The packet [Wake] builds from the parsed hardware address [mac]. *)
Definition magicPacket (mac : list Z) : list Z :=
  let packet := replicate 102 0 in
  let packet := foldl (fun packet i => <[i := 255]> packet) packet (seq 0 6) in
  foldl (fun packet i => copyAt packet (6 + i * 6) mac) packet (seq 0 16).

(** What [Wake] asks of package [net], and what it observes of it. *)
Record Net := {
  ParseMAC : string -> list Z + error;
  Dial : string -> string -> option error;
  ConnWrite : list Z -> option error
}.

Inductive NetEvent :=
| NetDial (network address : string)
| NetWrite (b : list Z)
| NetClose.

(** [RealWolSender.Wake]; the deferred [conn.Close()] runs on every
    return after a successful dial. *)
Definition RealWolSender_Wake (net : Net) (w : RealWolSender)
    (macAddress : string) (port : Z) (broadcastAddress : string)
  : option error * list NetEvent :=
  match ParseMAC net macAddress with
  | inr err => (Some err, [])
  | inl mac =>
      let packet := magicPacket mac in
      let broadcastAddress :=
        if decide (broadcastAddress = "") then DefaultBroadcastAddress w
        else broadcastAddress in
      let port := if decide (port = 0) then DefaultPort w else port in
      let address := broadcastAddress +:+ ":" +:+ pretty port in
      match Dial net "udp" address with
      | Some err =>
          (Some (Wrapf "failed to dial UDP broadcast: " err), [NetDial "udp" address])
      | None =>
          match ConnWrite net packet with
          | Some err =>
              (Some (Wrapf "failed to send magic packet: " err),
               [NetDial "udp" address; NetWrite packet; NetClose])
          | None => (None, [NetDial "udp" address; NetWrite packet; NetClose])
          end
      end
  end.

(** ** internal/power: the pinger

    [ping attempt address] is what the [attempt]-th call of [p.ping]
    answers. *)
Inductive PingEvent :=
| Pinged (address : string)
| Slept (d : Z).

Definition Millisecond : Z := 1000000.
Definition maxAttempts : nat := 3.
Definition retryDelay : Z := 500 * Millisecond.

(** The loop of [IsReachable], from [attempt] on, with [n] attempts left. *)
Fixpoint pingLoop (ping : nat -> string -> bool) (address : string) (attempt n : nat)
  : bool * list PingEvent :=
  match n with
  | O => (false, [])
  | S n' =>
      if ping attempt address then (true, [Pinged address])
      else
        let slept := if (attempt <? maxAttempts - 1)%nat then [Slept retryDelay] else [] in
        let (r, evs) := pingLoop ping address (S attempt) n' in
        (r, Pinged address :: slept ++ evs)
  end.

Definition RealPinger_IsReachable (ping : nat -> string -> bool) (address : string)
  : bool * list PingEvent :=
  pingLoop ping address 0 maxAttempts.

(** ** external/server.go *)

Record Options := {
  Address : string;
  CertFile : string;
  KeyFile : string;
  CAFile : string
}.

Definition DefaultOptions : Options :=
  {| Address := ":8086"; CertFile := ""; KeyFile := ""; CAFile := "" |}.

Definition Validate (o : Options) : option error :=
  if decide (Address o = "") then Some (Errorf "address is required")
  else
    let tlsOptions := [CertFile o; KeyFile o; CAFile o] in
    let setCount :=
      foldl (fun setCount opt => if decide (opt <> "") then setCount + 1 else setCount)
            0 tlsOptions in
    if decide (setCount > 0 /\ setCount < 3) then
      Some (Errorf "all TLS options (cert, key, ca) must be set together, or none")
    else None.

Definition IsTLSEnabled (o : Options) : bool :=
  bool_decide (CertFile o <> "") && bool_decide (KeyFile o <> "")
  && bool_decide (CAFile o <> "").

(** What [createGRPCServer] asks of the file system and of crypto/tls;
    certificates and pools are kept abstract.  [AppendCertsFromPEM] answers
    the pool with the certificates added, or nothing where the Go method
    returns false. *)
Record TLSEnv (Certificate CertPool : Type) := {
  LoadX509KeyPair : string -> string -> Certificate + error;
  ReadFile : string -> list Z + error;
  AppendCertsFromPEM : list Z -> option CertPool
}.
Arguments LoadX509KeyPair {Certificate CertPool}.
Arguments ReadFile {Certificate CertPool}.
Arguments AppendCertsFromPEM {Certificate CertPool}.

Inductive ClientAuthType := NoClientCert | RequireAndVerifyClientCert.
Inductive TLSVersion := VersionTLS10 | VersionTLS11 | VersionTLS12 | VersionTLS13.

Record TLSConfig (Certificate CertPool : Type) := {
  ClientAuth : ClientAuthType;
  Certificates : list Certificate;
  ClientCAs : CertPool;
  MinVersion : TLSVersion
}.
Arguments ClientAuth {Certificate CertPool}.
Arguments Certificates {Certificate CertPool}.
Arguments ClientCAs {Certificate CertPool}.
Arguments MinVersion {Certificate CertPool}.

(** A gRPC server as [grpc.NewServer] builds it: without credentials, or
    with the TLS credentials of a configuration. *)
Inductive GRPCServer (Certificate CertPool : Type) :=
| InsecureServer
| TLSServer (config : TLSConfig Certificate CertPool).
Arguments InsecureServer {Certificate CertPool}.
Arguments TLSServer {Certificate CertPool}.

Definition createGRPCServer {Certificate CertPool : Type}
    (env : TLSEnv Certificate CertPool) (options : Options)
  : GRPCServer Certificate CertPool + error :=
  if decide (CertFile options = "" \/ KeyFile options = "" \/ CAFile options = "") then
    inl InsecureServer
  else
    match LoadX509KeyPair env (CertFile options) (KeyFile options) with
    | inr err => inr (Wrapf "failed to load certificate: " err)
    | inl certificate =>
        match ReadFile env (CAFile options) with
        | inr err => inr (Wrapf "failed to read CA certificate: " err)
        | inl caBytes =>
            match AppendCertsFromPEM env caBytes with
            | None => inr (Errorf "failed to append CA certificate")
            | Some certPool =>
                inl (TLSServer {| ClientAuth := RequireAndVerifyClientCert;
                                  Certificates := [certificate];
                                  ClientCAs := certPool;
                                  MinVersion := VersionTLS12 |})
            end
        end
    end.

(** * Further vocabulary

    As above, nothing here is code of the repository. *)

(** The instance [NodeGroupNodes] reports for a server. *)
Definition instanceOf (server : Server) : Instance :=
  {| Instance_Id := Name server;
     Instance_Status :=
       {| InstanceStatus_InstanceState :=
            mapPowerStateToInstanceState (PowerState (Spec server)) |} |}.

#[global] Instance InstanceState_eq_dec : EqDecision InstanceState.
Proof. solve_decision. Defined.

(** The desired power state stored under a name, if any. *)
Definition powerOf (m : gmap string Object) (n : string) : option string :=
  (fun o => PowerState (oSpec o)) <$> m !! n.

(** The first named member the store does not hold, if any. *)
Fixpoint firstUnknown (m : gmap string Object) (nodes : list string) : option string :=
  match nodes with
  | [] => None
  | node :: rest =>
      match m !! node with
      | Some _ => firstUnknown m rest
      | None => Some node
      end
  end.

(** The worlds [w] and [w'] hold records under the same names, and the
    adapter describes the same pool in both. *)
Definition sameInventory (w w' : World) : Prop :=
  dom (objects w') =@{gset string} dom (objects w)
  /\ fst (NodeGroups w') = fst (NodeGroups w)
  /\ forall name, fst (NodeGroupForNode (Some name) w')
                  = fst (NodeGroupForNode (Some name) w).

(** ** One call of [Reconcile], event by event *)

(** What the capabilities answer to a power call. *)
Definition answer (env : Env) (call : Event) : option error :=
  match call with
  | EvWake mac port => Wake env mac port
  | EvShutdown host user => Shutdown env host user
  | EvPowerOn a u p => PowerOn env a u p
  | EvPowerOff a u p => PowerOff env a u p
  | _ => None
  end.

(** The power call towards [desired] that the spec [spec] is configured
    for: over the control channel the spec names, with the fields of that
    channel, none of the required ones empty. *)
Definition channel (desired : string) (spec : ServerSpec) (call : Event) : Prop :=
  match call with
  | EvWake mac port =>
      desired = PowerStateOn /\ ControlType spec = ControlTypeWOL
      /\ exists c, WOL (Control spec) = Some c
                   /\ mac = WOL_MACAddress c /\ port = WOL_Port c /\ mac <> ""
  | EvShutdown host user =>
      desired = PowerStateOff /\ ControlType spec = ControlTypeWOL
      /\ exists c, WOL (Control spec) = Some c
                   /\ host = WOL_Address c /\ user = WOL_User c /\ host <> ""
  | EvPowerOn a u p =>
      desired = PowerStateOn /\ ControlType spec = ControlTypeIPMI
      /\ exists c, IPMI (Control spec) = Some c
                   /\ a = IPMI_Address c /\ u = IPMI_Username c /\ p = IPMI_Password c
                   /\ a <> "" /\ u <> "" /\ p <> ""
  | EvPowerOff a u p =>
      desired = PowerStateOff /\ ControlType spec = ControlTypeIPMI
      /\ exists c, IPMI (Control spec) = Some c
                   /\ a = IPMI_Address c /\ u = IPMI_Username c /\ p = IPMI_Password c
                   /\ a <> "" /\ u <> "" /\ p <> ""
  | _ => False
  end.

(** The power call a spec warrants: the one towards its own desired power
    state. *)
Definition warranted (spec : ServerSpec) (call : Event) : Prop :=
  channel (PowerState spec) spec call.

(** The control field that a power action towards [desired] requires and
    that [spec] lacks, by the error that reports it: the control type is
    unknown, the block of the control type is missing, or a field of the
    block is empty. *)
Definition missing (desired : string) (spec : ServerSpec) (e : error) : Prop :=
  (ControlType spec = ControlTypeWOL
   /\ match WOL (Control spec) with
      | None => e = Errorf "WOL config is required"
      | Some c =>
          (desired = PowerStateOn /\ WOL_MACAddress c = ""
           /\ e = Errorf "WOL MAC address is required")
          \/ (desired = PowerStateOff /\ WOL_Address c = ""
              /\ e = Errorf "WOL address is required")
      end)
  \/ (ControlType spec = ControlTypeIPMI
      /\ match IPMI (Control spec) with
         | None => e = Errorf "IPMI config is required"
         | Some c =>
             (IPMI_Address c = "" /\ e = Errorf "IPMI address is required")
             \/ (IPMI_Address c <> ""
                 /\ (IPMI_Username c = "" \/ IPMI_Password c = "")
                 /\ e = Errorf "IPMI username and password are required")
         end)
  \/ (ControlType spec <> ControlTypeWOL /\ ControlType spec <> ControlTypeIPMI
      /\ e = Errorf ("unknown control type: " +:+ ControlType spec)).

(** The spec [Reconcile] starts with: the stored one, with the desired
    power state off when it is not set. *)
Definition workingSpec (o : Object) : ServerSpec :=
  {| PowerState := if decide (PowerState (oSpec o) = "") then PowerStateOff
                   else PowerState (oSpec o);
     ControlType := ControlType (oSpec o);
     Control := Control (oSpec o) |}.

(** The power state a phase stands for. *)
Definition currentPower (phase : string) : string :=
  if decide (phase = StatusActive) then PowerStateOn else PowerStateOff.

(** A status update of [req] that submits the status [st]. *)
Definition submits (req : string) (st : ServerStatus) (e : Event) : Prop :=
  match e with
  | EvStatusUpdate upd => Name upd = req /\ Status upd = st
  | _ => False
  end.

(** The phase the switch leaves for a record that is not waiting, and
    whether it stores it. *)
Definition observedPhase (phase : string) (reachable : bool) : string :=
  if decide (phase = StatusActive \/ phase = StatusOffline \/ phase = "")
  then (if reachable then StatusActive else StatusOffline)
  else phase.

Definition observedStored (phase : string) (reachable : bool) : bool :=
  if decide (phase = StatusActive) then negb reachable
  else if decide (phase = StatusOffline \/ phase = "") then true
  else false.

(** The spec [powerAction] decides on.  A status update hands the stored
    object back to the working copy, so once the switch has stored what it
    observed the working copy carries the stored spec again, an unset
    desired power state included; otherwise it still carries the defaulted
    one. *)
Definition actingSpec (o : Object) (reachable : bool) : ServerSpec :=
  if observedStored (CurrentStatus (oStatus o)) reachable then oSpec o
  else workingSpec o.

(** What [powerAction] does for [req], whose working copy has spec [spec]
    and whose stored status is [s]: the stored status after it, the result,
    and the events in order. *)
Inductive acted (env : Env) (req : string) (spec : ServerSpec) (s : ServerStatus)
  : ServerStatus -> Result * option error -> list Event -> Prop :=
| acted_none :
    PowerState spec = currentPower (CurrentStatus s)
    \/ (PowerState spec <> PowerStateOn /\ PowerState spec <> PowerStateOff) ->
    acted env req spec s s (noRequeue, None) []
| acted_sent (call upd : Event) (st : ServerStatus) :
    PowerState spec <> currentPower (CurrentStatus s) ->
    warranted spec call ->
    answer env call = None ->
    st = {| CurrentStatus := if decide (PowerState spec = PowerStateOn)
                             then StatusPending else StatusDraining;
            Message := "";
            FailingSince := FailingSince s; FailureCount := FailureCount s |} ->
    submits req st upd ->
    acted env req spec s st ({| RequeueAfter := 60 * Second |}, None) [call; upd]
| acted_failed (call upd : Event) (e : error) (st : ServerStatus) :
    PowerState spec <> currentPower (CurrentStatus s) ->
    warranted spec call ->
    answer env call = Some e ->
    st = {| CurrentStatus := StatusFailed;
            Message := "Power action failed: " +:+ Error e;
            FailingSince := FailingSince s; FailureCount := FailureCount s |} ->
    submits req st upd ->
    acted env req spec s st (noRequeue, Some e) [call; upd]
| acted_refused (upd : Event) (e : error) (st : ServerStatus) :
    PowerState spec <> currentPower (CurrentStatus s) ->
    PowerState spec = PowerStateOn \/ PowerState spec = PowerStateOff ->
    (forall call, ~ warranted spec call) ->
    st = {| CurrentStatus := StatusFailed;
            Message := "Power action failed: " +:+ Error e;
            FailingSince := FailingSince s; FailureCount := FailureCount s |} ->
    submits req st upd ->
    missing (PowerState spec) spec e ->
    acted env req spec s st (noRequeue, Some e) [upd].

(** What one call of [Reconcile] does for the record [o] stored under
    [req]: the stored status after it, the result, and the events in
    order. *)
Inductive ran (env : Env) (req : string) (o : Object)
  : ServerStatus -> Result * option error -> list Event -> Prop :=
| ran_failed :
    CurrentStatus (oStatus o) = StatusFailed ->
    ran env req o (oStatus o) (noRequeue, None) []
| ran_threshold (upd : Event) :
    CurrentStatus (oStatus o) <> StatusFailed ->
    failureThreshold <= FailureCount (oStatus o) ->
    submits req (withPhase (oStatus o) StatusFailed) upd ->
    ran env req o (withPhase (oStatus o) StatusFailed) (noRequeue, None) [upd]
| ran_no_address (upd : Event) (st : ServerStatus) :
    CurrentStatus (oStatus o) <> StatusFailed ->
    FailureCount (oStatus o) < failureThreshold ->
    getServerAddress (toServer req o) = "" ->
    st = {| CurrentStatus := StatusFailed;
            Message := "No address configured for server";
            FailingSince := FailingSince (oStatus o);
            FailureCount := FailureCount (oStatus o) |} ->
    submits req st upd ->
    ran env req o st
      (noRequeue, Some (Errorf ("no address configured for server " +:+ req))) [upd]
| ran_arrived (upd : Event) (st : ServerStatus) :
    FailureCount (oStatus o) < failureThreshold ->
    getServerAddress (toServer req o) <> "" ->
    (CurrentStatus (oStatus o) = StatusPending
     /\ IsReachable env (getServerAddress (toServer req o)) = true
     /\ CurrentStatus st = StatusActive)
    \/ (CurrentStatus (oStatus o) = StatusDraining
        /\ IsReachable env (getServerAddress (toServer req o)) = false
        /\ CurrentStatus st = StatusOffline) ->
    Message st = "" -> FailingSince st = None -> FailureCount st = 0 ->
    submits req st upd ->
    ran env req o st (noRequeue, None)
      [EvIsReachable (getServerAddress (toServer req o)); upd]
| ran_waiting (upd : Event) (st : ServerStatus) :
    FailureCount (oStatus o) < failureThreshold ->
    getServerAddress (toServer req o) <> "" ->
    (CurrentStatus (oStatus o) = StatusPending
     /\ IsReachable env (getServerAddress (toServer req o)) = false)
    \/ (CurrentStatus (oStatus o) = StatusDraining
        /\ IsReachable env (getServerAddress (toServer req o)) = true) ->
    st = {| CurrentStatus := CurrentStatus (oStatus o);
            Message := Message (oStatus o);
            FailingSince := match FailingSince (oStatus o) with
                            | None => Some (Now env)
                            | Some t => Some t
                            end;
            FailureCount := wrapInt (FailureCount (oStatus o) + 1) |} ->
    submits req st upd ->
    ran env req o st ({| RequeueAfter := 60 * Second |}, None)
      [EvIsReachable (getServerAddress (toServer req o)); upd]
| ran_observed (obs evs : list Event) (st : ServerStatus) (r : Result * option error) :
    CurrentStatus (oStatus o) <> StatusFailed ->
    CurrentStatus (oStatus o) <> StatusPending ->
    CurrentStatus (oStatus o) <> StatusDraining ->
    FailureCount (oStatus o) < failureThreshold ->
    getServerAddress (toServer req o) <> "" ->
    let reachable := IsReachable env (getServerAddress (toServer req o)) in
    let seen := withPhase (oStatus o) (observedPhase (CurrentStatus (oStatus o)) reachable) in
    (if observedStored (CurrentStatus (oStatus o)) reachable
     then exists upd, obs = [upd] /\ submits req seen upd
     else obs = []) ->
    acted env req (actingSpec o reachable) seen st r evs ->
    ran env req o st r (EvIsReachable (getServerAddress (toServer req o)) :: obs ++ evs).

(** ** Engine and adapter, interleaved

    Calls of the engine and of the adapter's writing operations, made one
    after the other on the same store, in any order and with any
    arguments. *)
Inductive Call :=
| CallReconcile (env : Env) (req : string)
| CallIncreaseSize (id : string) (delta : Z)
| CallDecreaseTargetSize (id : string) (delta : Z)
| CallDeleteNodes (id : string) (nodes : list string).

Definition runCall (c : Call) (w : World) : World :=
  match c with
  | CallReconcile env req => snd (Reconcile env req w)
  | CallIncreaseSize id delta => snd (NodeGroupIncreaseSize id delta w)
  | CallDecreaseTargetSize id delta => snd (NodeGroupDecreaseTargetSize id delta w)
  | CallDeleteNodes id nodes => snd (NodeGroupDeleteNodes id nodes w)
  end.

Definition runCalls (calls : list Call) (w : World) : World :=
  foldl (fun w c => runCall c w) w calls.

(** The control configuration of a stored object. *)
Definition controlOf (o : Object) : string * ControlSpecs :=
  (ControlType (oSpec o), Control (oSpec o)).

(** A failure streak as [recordFailure] and [clearFailure] leave it: a count
    between 0 and the threshold, with a start time exactly when the count
    is not 0. *)
Definition streakOk (s : ServerStatus) : Prop :=
  0 <= FailureCount s <= failureThreshold
  /\ (FailureCount s = 0 <-> FailingSince s = None).

#[global] Instance streakOk_dec (s : ServerStatus) : Decision (streakOk s).
Proof. unfold streakOk. apply _. Defined.

(** * Properties of [Reconcile] *)

(** ** The store and the capabilities *)

Lemma StatusUpdate_stored (server : Server) (w : World) (o : Object) :
  objects w !! Name server = Some o ->
  StatusUpdate server w =
    (({| Name := Name server; Spec := oSpec o; Status := Status server |}, None),
     {| objects := <[Name server := {| oSpec := oSpec o; oStatus := Status server |}]>
                     (objects w);
        trace := trace w ++ [EvStatusUpdate server] |}).
Proof.
  intros H. unfold StatusUpdate, bind, emit. cbn. rewrite H. reflexivity.
Qed.

Lemma world_eta (w : World) : {| objects := objects w; trace := trace w ++ [] |} = w.
Proof. destruct w; cbn. by rewrite app_nil_r. Qed.

Lemma insert_stored (w : World) (req : string) (o : Object) :
  objects w !! req = Some o ->
  <[req := {| oSpec := oSpec o; oStatus := oStatus o |}]> (objects w) = objects w.
Proof. intros H. apply insert_id. rewrite H. by destruct o. Qed.

Lemma power_calls_ok (req : string) (evs : list Event) :
  Forall (fun e => isPowerCall e = true) evs -> Forall (okEvent req) evs.
Proof. intros H. eapply Forall_impl; [exact H|]. by intros []. Qed.

(** A power function validates, then makes at most one capability call; it
    never touches the store. *)
Ltac at_most_one_call :=
  repeat first [case_decide | case_match]; cbn;
  first [ by (eexists _, []; rewrite world_eta)
        | by (eexists _, [_]; split; [reflexivity|repeat constructor]) ].

Lemma powerOn_effect (env : Env) (server : Server) (w : World) :
  exists err evs,
    powerOn env server w = (err, {| objects := objects w; trace := trace w ++ evs |})
    /\ Forall (fun e => isPowerCall e = true) evs.
Proof. unfold powerOn, callWake, callPowerOn, bind, ret, emit. at_most_one_call. Qed.

Lemma powerOff_effect (env : Env) (server : Server) (w : World) :
  exists err evs,
    powerOff env server w = (err, {| objects := objects w; trace := trace w ++ evs |})
    /\ Forall (fun e => isPowerCall e = true) evs.
Proof. unfold powerOff, callShutdown, callPowerOff, bind, ret, emit. at_most_one_call. Qed.

(** The status update that closes [powerAction], after the events [evs] of
    the power function; [tac] names the outcome. *)
Ltac persist_outcome Hget Hev tac :=
  rewrite (StatusUpdate_stored _ _ _) by exact Hget; cbn;
  eexists _, _, (_ ++ [_]); rewrite app_assoc; split; [reflexivity|];
  split; [apply Forall_app; split;
            [by apply power_calls_ok|by repeat constructor]
         |tac].

Lemma powerAction_effect (env : Env) (server : Server) (w : World) (o : Object) :
  objects w !! Name server = Some o ->
  oStatus o = Status server ->
  exists r st evs,
    powerAction env server w =
      (r, {| objects := <[Name server := {| oSpec := oSpec o; oStatus := st |}]> (objects w);
             trace := trace w ++ evs |})
    /\ Forall (okEvent (Name server)) evs
    /\ actionOutcome (Status server) st r.
Proof.
  intros Hget Hst.
  assert (Hnone : exists r st evs,
            ret (A := Result * option error) (noRequeue, None) w =
              (r, {| objects := <[Name server := {| oSpec := oSpec o; oStatus := st |}]>
                                  (objects w);
                     trace := trace w ++ evs |})
            /\ Forall (okEvent (Name server)) evs
            /\ actionOutcome (Status server) st r).
  { exists (noRequeue, None), (Status server), []. unfold ret.
    rewrite <- Hst, insert_stored, world_eta by exact Hget.
    repeat split; constructor. }
  unfold powerAction.
  destruct (decide (PowerState (Spec server) = _)) as [_|_]; [exact Hnone|].
  destruct (decide (PowerState (Spec server) = PowerStateOn)) as [_|_];
    [|destruct (decide (PowerState (Spec server) = PowerStateOff)) as [_|_];
      [|exact Hnone]].
  - destruct (powerOn_effect env server w) as (err & evs & Heq & Hev).
    unfold bind. rewrite Heq. destruct err as [e|].
    + persist_outcome Hget Hev ltac:(apply act_error).
    + persist_outcome Hget Hev ltac:(apply act_sent; by left).
  - destruct (powerOff_effect env server w) as (err & evs & Heq & Hev).
    unfold bind. rewrite Heq. destruct err as [e|].
    + persist_outcome Hget Hev ltac:(apply act_error).
    + persist_outcome Hget Hev ltac:(apply act_sent; by right).
Qed.

(** ** The working copy *)

Lemma defaultPowerState_Name (server : Server) :
  Name (defaultPowerState server) = Name server.
Proof. unfold defaultPowerState. by case_decide. Qed.

Lemma defaultPowerState_Status (server : Server) :
  Status (defaultPowerState server) = Status server.
Proof. unfold defaultPowerState. by case_decide. Qed.

Lemma defaultPowerState_address (server : Server) :
  getServerAddress (defaultPowerState server) = getServerAddress server.
Proof. unfold defaultPowerState. by case_decide. Qed.

Lemma defaultPowerState_set (server : Server) :
  PowerState (Spec server) <> "" -> defaultPowerState server = server.
Proof. intros H. unfold defaultPowerState. by rewrite decide_False. Qed.

Lemma recordFailure_Name (env : Env) (server : Server) :
  Name (recordFailure env server) = Name server.
Proof. unfold recordFailure. by case_match. Qed.

Lemma recordFailure_Status (env : Env) (server : Server) :
  Status (recordFailure env server) =
    {| CurrentStatus := CurrentStatus (Status server);
       Message := Message (Status server);
       FailingSince := match FailingSince (Status server) with
                       | None => Some (Now env)
                       | Some t => Some t
                       end;
       FailureCount := wrapInt (FailureCount (Status server) + 1) |}.
Proof.
  unfold recordFailure.
  destruct (FailingSince (Status server)) eqn:Hfs; cbn; by rewrite ?Hfs.
Qed.

Create Rewrite HintDb working_copy.
#[local] Hint Rewrite defaultPowerState_Name defaultPowerState_Status
  defaultPowerState_address recordFailure_Name recordFailure_Status : working_copy.

Lemma geb_lt_false (a b : Z) : a < b -> (a >=? b) = false.
Proof. intros H. rewrite Z.geb_leb. by apply Z.leb_gt. Qed.

Lemma wrapInt_small (z : Z) : - 2 ^ 63 <= z < 2 ^ 63 -> wrapInt z = z.
Proof. intros H. unfold wrapInt. rewrite Z.mod_small; lia. Qed.

(** An event of the call for [req] is a status update of [req], up to the
    working copy. *)
Ltac ok_event :=
  cbn [okEvent Name setStatus setMessage setFailingSince setFailureCount clearFailure];
  rewrite ?recordFailure_Name, ?defaultPowerState_Name; cbn; done.

(** ** One call, path by path *)

Section OneCall.

Variables (env : Env) (req : string) (w : World) (o : Object).
Hypothesis Hget : objects w !! req = Some o.

(** Enter [Reconcile] with the fetched record and its working copy. *)
Ltac enter :=
  unfold Reconcile, bind at 1, Get; rewrite Hget; cbv zeta;
  autorewrite with working_copy; cbn [Status Name toServer].

(** Decide the tests of the phase switch from what is known of the phase. *)
Ltac phase_is H :=
  repeat first
    [ rewrite (decide_True (P := CurrentStatus (oStatus o) = _)) by exact H
    | rewrite (decide_False (P := CurrentStatus (oStatus o) = _))
        by (rewrite H; discriminate)
    | rewrite (decide_True (P := _ \/ _)) by first [by left | by right] ].

Lemma Reconcile_failed :
  CurrentStatus (oStatus o) = StatusFailed ->
  Reconcile env req w = ((noRequeue, None), w).
Proof. intros Hfailed. enter. by rewrite decide_True. Qed.

Lemma Reconcile_threshold :
  CurrentStatus (oStatus o) <> StatusFailed ->
  failureThreshold <= FailureCount (oStatus o) ->
  Reconcile env req w =
    ((noRequeue, None),
     {| objects := <[req := {| oSpec := oSpec o;
                               oStatus := withPhase (oStatus o) StatusFailed |}]> (objects w);
        trace := trace w ++
                 [EvStatusUpdate (setStatus (defaultPowerState (toServer req o)) StatusFailed)] |}).
Proof.
  intros Hf Hfc. enter. rewrite decide_False by exact Hf.
  replace (FailureCount (oStatus o) >=? failureThreshold) with true
    by (symmetry; by apply Z.geb_le).
  unfold bind. rewrite (StatusUpdate_stored _ _ o)
    by (cbn; by autorewrite with working_copy).
  cbn. by autorewrite with working_copy.
Qed.

Lemma Reconcile_no_address :
  CurrentStatus (oStatus o) <> StatusFailed ->
  FailureCount (oStatus o) < failureThreshold ->
  getServerAddress (toServer req o) = "" ->
  Reconcile env req w =
    ((noRequeue, Some (Errorf ("no address configured for server " +:+ req))),
     {| objects := <[req := {| oSpec := oSpec o;
                               oStatus := {| CurrentStatus := StatusFailed;
                                             Message := "No address configured for server";
                                             FailingSince := FailingSince (oStatus o);
                                             FailureCount := FailureCount (oStatus o) |} |}]>
                     (objects w);
        trace := trace w ++
                 [EvStatusUpdate
                    (setMessage (setStatus (defaultPowerState (toServer req o)) StatusFailed)
                                "No address configured for server")] |}).
Proof.
  intros Hf Hfc Ha. enter. rewrite decide_False by exact Hf.
  rewrite geb_lt_false by exact Hfc. rewrite decide_True by exact Ha.
  unfold bind. rewrite (StatusUpdate_stored _ _ o)
    by (cbn; by autorewrite with working_copy).
  cbn. by autorewrite with working_copy.
Qed.

(** With an address and a count below the threshold, the call probes and
    goes into the phase switch. *)
Lemma Reconcile_probe :
  CurrentStatus (oStatus o) <> StatusFailed ->
  FailureCount (oStatus o) < failureThreshold ->
  getServerAddress (toServer req o) <> "" ->
  Reconcile env req w =
    reconcilePhase env (defaultPowerState (toServer req o))
      (IsReachable env (getServerAddress (toServer req o)))
      {| objects := objects w;
         trace := trace w ++ [EvIsReachable (getServerAddress (toServer req o))] |}.
Proof.
  intros Hf Hfc Ha. enter. rewrite decide_False by exact Hf.
  rewrite geb_lt_false by exact Hfc. by rewrite decide_False by exact Ha.
Qed.

Lemma Reconcile_pending_unreachable :
  CurrentStatus (oStatus o) = StatusPending ->
  FailureCount (oStatus o) < failureThreshold ->
  getServerAddress (toServer req o) <> "" ->
  IsReachable env (getServerAddress (toServer req o)) = false ->
  fst (Reconcile env req w) = ({| RequeueAfter := 60 * Second |}, None) /\
  objects (snd (Reconcile env req w)) =
    <[req := {| oSpec := oSpec o;
                oStatus := {| CurrentStatus := StatusPending;
                              Message := Message (oStatus o);
                              FailingSince := match FailingSince (oStatus o) with
                                              | None => Some (Now env)
                                              | Some t => Some t
                                              end;
                              FailureCount := wrapInt (FailureCount (oStatus o) + 1) |} |}]>
      (objects w).
Proof.
  intros Hp Hfc Ha Hdown.
  rewrite Reconcile_probe by (try done; rewrite Hp; discriminate).
  rewrite Hdown. unfold reconcilePhase.
  autorewrite with working_copy. cbn [Status toServer]. phase_is Hp.
  unfold bind. rewrite (StatusUpdate_stored _ _ o)
    by (cbn [objects]; by autorewrite with working_copy).
  cbn [fst snd ret objects]. autorewrite with working_copy. cbn [Status Name toServer].
  by rewrite Hp.
Qed.

(** The two converged cases. *)
Lemma Reconcile_active_on :
  FailureCount (oStatus o) < failureThreshold ->
  getServerAddress (toServer req o) <> "" ->
  CurrentStatus (oStatus o) = StatusActive ->
  PowerState (oSpec o) = PowerStateOn ->
  IsReachable env (getServerAddress (toServer req o)) = true ->
  Reconcile env req w =
    ((noRequeue, None),
     {| objects := objects w;
        trace := trace w ++ [EvIsReachable (getServerAddress (toServer req o))] |}).
Proof.
  intros Hfc Ha Hphase Hdesired Hprobe.
  rewrite Reconcile_probe by (try done; rewrite Hphase; discriminate).
  rewrite Hprobe, defaultPowerState_set by (cbn; rewrite Hdesired; discriminate).
  unfold reconcilePhase. cbn [Status toServer negb]. phase_is Hphase.
  unfold powerAction. cbn [Status Spec toServer]. phase_is Hphase.
  by rewrite decide_True.
Qed.

Lemma Reconcile_offline_off :
  FailureCount (oStatus o) < failureThreshold ->
  getServerAddress (toServer req o) <> "" ->
  CurrentStatus (oStatus o) = StatusOffline ->
  PowerState (oSpec o) = PowerStateOff ->
  IsReachable env (getServerAddress (toServer req o)) = false ->
  Reconcile env req w =
    ((noRequeue, None),
     {| objects := objects w;
        trace := trace w ++ [EvIsReachable (getServerAddress (toServer req o));
                             EvStatusUpdate (toServer req o)] |}).
Proof.
  intros Hfc Ha Hphase Hdesired Hprobe.
  rewrite Reconcile_probe by (try done; rewrite Hphase; discriminate).
  rewrite Hprobe, defaultPowerState_set by (cbn; rewrite Hdesired; discriminate).
  unfold reconcilePhase. cbn [Status toServer negb]. phase_is Hphase.
  assert (Hsame : setStatus (toServer req o) StatusOffline = toServer req o).
  { unfold setStatus, toServer. cbn. rewrite <- Hphase. by destruct (oStatus o). }
  rewrite Hsame. unfold bind.
  rewrite (StatusUpdate_stored _ _ o) by exact Hget.
  cbn [toServer Name Status objects trace].
  rewrite insert_stored, <- app_assoc by exact Hget. cbn [app].
  unfold powerAction. cbn [Status Spec toServer]. phase_is Hphase.
  by rewrite decide_True.
Qed.

(** After the phase switch has observed the record (it now has phase
    [CurrentStatus (Status srv)] in the store as in the working copy
    [srv]), [powerAction] takes over. *)
Lemma observed_then_powerAction (srv : Server) (evs0 : list Event) :
  CurrentStatus (oStatus o) <> StatusFailed ->
  CurrentStatus (oStatus o) <> StatusPending ->
  CurrentStatus (oStatus o) <> StatusDraining ->
  FailureCount (oStatus o) < failureThreshold ->
  Name srv = req ->
  Status srv = withPhase (oStatus o) (CurrentStatus (Status srv)) ->
  Forall (okEvent req) evs0 ->
  exists r st evs,
    powerAction env srv
      {| objects := <[req := {| oSpec := oSpec o; oStatus := Status srv |}]> (objects w);
         trace := trace w ++ evs0 |} =
      (r, {| objects := <[req := {| oSpec := oSpec o; oStatus := st |}]> (objects w);
             trace := trace w ++ evs |})
    /\ Forall (okEvent req) evs
    /\ outcome env req (oStatus o) st r.
Proof.
  intros Hf Hp Hd Hfc Hn Hwp Hev0.
  destruct (powerAction_effect env srv
              {| objects := <[req := {| oSpec := oSpec o; oStatus := Status srv |}]> (objects w);
                 trace := trace w ++ evs0 |}
              {| oSpec := oSpec o; oStatus := Status srv |})
    as (r & st & evs & Heq & Hev & Hout).
  { cbn. rewrite Hn. apply lookup_insert_eq. }
  { reflexivity. }
  exists r, st, (evs0 ++ evs). rewrite Heq. cbn. rewrite Hn, insert_insert_eq, app_assoc.
  split; [reflexivity|]. split; [apply Forall_app; by rewrite <- Hn at 2|].
  apply (out_observed _ _ _ (CurrentStatus (Status srv))); try done.
  by rewrite <- Hwp.
Qed.

(** Every call on an existing record is one of the paths of [outcome]; it
    rewrites at most the status of that record, and what it sends are
    probes, power calls and status updates for that record. *)
Lemma Reconcile_summary :
  exists r st evs,
    Reconcile env req w =
      (r, {| objects := <[req := {| oSpec := oSpec o; oStatus := st |}]> (objects w);
             trace := trace w ++ evs |})
    /\ Forall (okEvent req) evs
    /\ outcome env req (oStatus o) st r.
Proof.
  destruct (decide (CurrentStatus (oStatus o) = StatusFailed)) as [Hf|Hf].
  { rewrite Reconcile_failed by exact Hf.
    exists (noRequeue, None), (oStatus o), [].
    rewrite insert_stored, world_eta by exact Hget.
    repeat split; [constructor|by apply out_failed]. }
  destruct (Z.le_gt_cases failureThreshold (FailureCount (oStatus o))) as [Hfc|Hfc].
  { rewrite Reconcile_threshold by done.
    eexists _, _, [_]. split; [reflexivity|].
    split; [repeat constructor; ok_event|].
    by apply out_threshold. }
  destruct (decide (getServerAddress (toServer req o) = "")) as [Ha|Ha].
  { rewrite Reconcile_no_address by done.
    eexists _, _, [_]. split; [reflexivity|].
    split; [repeat constructor; ok_event|].
    by apply out_no_address. }
  rewrite Reconcile_probe by done.
  generalize (IsReachable env (getServerAddress (toServer req o))). intros reachable.
  set (server := defaultPowerState (toServer req o)).
  assert (Hname : Name server = req) by (subst server; by autorewrite with working_copy).
  assert (Hstatus : Status server = oStatus o)
    by (subst server; by autorewrite with working_copy).
  clearbody server. unfold reconcilePhase. rewrite Hstatus.
  destruct (decide (CurrentStatus (oStatus o) = StatusPending)) as [Hp|Hp];
    [|destruct (decide (CurrentStatus (oStatus o) = StatusDraining)) as [Hd|Hd]].
  - (* pending *)
    unfold bind. destruct reachable;
      rewrite (StatusUpdate_stored _ _ o)
        by (cbn [objects]; autorewrite with working_copy; cbn; by rewrite Hname);
      cbn [objects trace]; autorewrite with working_copy; cbn;
      rewrite Hname, ?Hstatus, <- app_assoc; unfold ret;
      (eexists _, _, _; split; [reflexivity|]; split;
       [repeat constructor; ok_event|]).
    + apply out_cleared; [done|by left].
    + apply out_recorded; [done|by left].
  - (* draining *)
    unfold bind. destruct reachable; cbn [negb];
      rewrite (StatusUpdate_stored _ _ o)
        by (cbn [objects]; autorewrite with working_copy; cbn; by rewrite Hname);
      cbn [objects trace]; autorewrite with working_copy; cbn;
      rewrite Hname, ?Hstatus, <- app_assoc; unfold ret;
      (eexists _, _, _; split; [reflexivity|]; split;
       [repeat constructor; ok_event|]).
    + apply out_recorded; [done|by right].
    + apply out_cleared; [done|by right].
  - (* the other phases observe, then hand over to [powerAction] *)
    assert (Hkeep : Status server = withPhase (oStatus o) (CurrentStatus (Status server)))
      by (rewrite Hstatus; by destruct (oStatus o)).
    assert (Hstay : exists r st evs,
              powerAction env server
                {| objects := objects w;
                   trace := trace w ++ [EvIsReachable (getServerAddress (toServer req o))] |} =
                (r, {| objects := <[req := {| oSpec := oSpec o; oStatus := st |}]> (objects w);
                       trace := trace w ++ evs |})
              /\ Forall (okEvent req) evs
              /\ outcome env req (oStatus o) st r).
    { pose proof (observed_then_powerAction server
                    [EvIsReachable (getServerAddress (toServer req o))]
                    Hf Hp Hd Hfc Hname Hkeep) as Hobserved.
      rewrite Hstatus, insert_stored in Hobserved by exact Hget.
      apply Hobserved. by repeat constructor. }
    assert (Hmove : forall phase,
              exists r st evs,
                (updated <- StatusUpdate (setStatus server phase) ;;
                 powerAction env (fst updated))
                  {| objects := objects w;
                     trace := trace w ++ [EvIsReachable (getServerAddress (toServer req o))] |} =
                  (r, {| objects := <[req := {| oSpec := oSpec o; oStatus := st |}]> (objects w);
                         trace := trace w ++ evs |})
                /\ Forall (okEvent req) evs
                /\ outcome env req (oStatus o) st r).
    { intros phase. unfold bind.
      rewrite (StatusUpdate_stored _ _ o) by (cbn; by rewrite Hname).
      cbn [Name setStatus objects trace fst]. rewrite Hname, <- app_assoc. cbn [app].
      apply (observed_then_powerAction
               {| Name := req; Spec := oSpec o;
                  Status := withPhase (Status server) phase |});
        try done; [cbn; by rewrite Hstatus|].
      by repeat constructor. }
    destruct (decide (CurrentStatus (oStatus o) = StatusActive)) as [Hact|Hact];
      [|destruct (decide (CurrentStatus (oStatus o) = StatusOffline
                          \/ CurrentStatus (oStatus o) = "")) as [Hoff|Hoff]].
    + destruct reachable; cbn [negb]; [exact Hstay|apply Hmove].
    + destruct reachable; apply Hmove.
    + exact Hstay.
Qed.

End OneCall.

(** ** The failure streak *)

(** C9.  One call of [Reconcile] on an existing record touches the failure
    streak in two ways only.  It clears it ([failureCount] 0, [failingSince]
    null) when, and only when, the call moves the record from pending to
    active or from draining to offline; and it records a failure while the
    record stays pending or draining: the count goes up by one and
    [failingSince] takes the clock's value if it was null and keeps its old
    value otherwise.  Every other call leaves both fields as they were. *)
Theorem failure_streak_bookkeeping (env : Env) (req : string) (w : World) (o : Object) :
  objects w !! req = Some o ->
  exists o', objects (snd (Reconcile env req w)) !! req = Some o' /\
  let s := oStatus o in
  let s' := oStatus o' in
  let cleared := FailureCount s' = 0 /\ FailingSince s' = None in
  let transition :=
    (CurrentStatus s = StatusPending /\ CurrentStatus s' = StatusActive) \/
    (CurrentStatus s = StatusDraining /\ CurrentStatus s' = StatusOffline) in
  (transition -> cleared) /\
  (cleared -> FailureCount s <> 0 \/ FailingSince s <> None -> transition) /\
  (FailureCount s' <> FailureCount s \/ FailingSince s' <> FailingSince s ->
     (transition /\ cleared) \/
     (FailureCount s' = wrapInt (FailureCount s + 1) /\
      CurrentStatus s' = CurrentStatus s /\
      (CurrentStatus s = StatusPending \/ CurrentStatus s = StatusDraining) /\
      FailingSince s' = match FailingSince s with
                        | None => Some (Now env)
                        | Some t => Some t
                        end)) /\
  (forall t, FailingSince s = Some t ->
             FailingSince s' = Some t \/ (transition /\ FailingSince s' = None)).
Proof.
  intros Hget.
  destruct (Reconcile_summary env req w o Hget) as (r & st & evs & Heq & _ & Hout).
  exists {| oSpec := oSpec o; oStatus := st |}.
  rewrite Heq. cbn. split; [apply lookup_insert_eq|].
  inversion Hout as [Hf | Hf Hfc | Hf Hfc | newStatus Hfc Hcase | Hfc Hcase
                     | phase s' r' Hf Hp Hd Hfc Hact]; subst;
    [ | | | | | inversion Hact as [ | newStatus Hns | e]; subst ];
    unfold StatusPending, StatusActive, StatusDraining, StatusOffline, StatusFailed in *;
    cbn in *; repeat split; intros; try (intuition congruence).
  - (* a recorded failure never leaves [failingSince] null *)
    destruct H as [_ H]. destruct (FailingSince (oStatus o)); discriminate.
  - (* a recorded failure keeps a [failingSince] that was set *)
    left. by rewrite H.
Qed.


(** ** One call, event by event *)

Lemma warranted_direction (spec : ServerSpec) (call : Event) :
  warranted spec call -> PowerState spec = PowerStateOn \/ PowerState spec = PowerStateOff.
Proof. unfold warranted. destruct call; cbn; tauto. Qed.

Lemma warranted_isPowerCall (spec : ServerSpec) (call : Event) :
  warranted spec call -> isPowerCall call = true.
Proof. unfold warranted. by destruct call. Qed.

Lemma submits_not_power (req : string) (st : ServerStatus) (e : Event) :
  submits req st e -> isPowerCall e = false.
Proof. by destruct e. Qed.

Lemma observed_not_power (req : string) (b : bool) (seen : ServerStatus) (obs : list Event) :
  (if b then exists upd, obs = [upd] /\ submits req seen upd else obs = []) ->
  List.filter isPowerCall obs = [].
Proof.
  destruct b.
  - intros (upd & -> & Hupd). cbn. by rewrite (submits_not_power _ _ _ Hupd).
  - by intros ->.
Qed.

(** A power function sends the call the spec is configured for and returns
    the capability's answer; when the spec is configured for none, it
    returns the error that reports the missing field and sends nothing. *)
Ltac one_call_or_none :=
  repeat first [case_decide | case_match]; unfold ret; cbn;
  lazymatch goal with
  | |- context [(_, {| objects := _; trace := _ ++ [?c] |}) = (answer _ _, _)] =>
      left; exists c; split; [|reflexivity];
      cbn; split_and?; try done; eexists; split_and?;
      first [eassumption | reflexivity | tauto]
  | _ =>
      right; split;
        [intros []; cbn; try tauto; intros (? & ? & c & ? & ?);
         destruct_and?; unfold ControlTypeWOL, ControlTypeIPMI in *;
         simplify_eq; try congruence; tauto
        |eexists; split; [|by rewrite world_eta]; unfold missing;
         repeat match goal with
                | H : WOL _ = _ |- _ => rewrite H; clear H
                | H : IPMI _ = _ |- _ => rewrite H; clear H
                end;
         intuition (auto; congruence)]
  end.

Lemma powerOn_calls (env : Env) (server : Server) (w : World) :
  (exists call,
     channel PowerStateOn (Spec server) call
     /\ powerOn env server w =
          (answer env call, {| objects := objects w; trace := trace w ++ [call] |}))
  \/ ((forall call, ~ channel PowerStateOn (Spec server) call)
      /\ exists e, missing PowerStateOn (Spec server) e
                   /\ powerOn env server w =
                        (Some e, {| objects := objects w; trace := trace w ++ [] |})).
Proof. unfold powerOn, callWake, callPowerOn, bind, emit. one_call_or_none. Qed.

Lemma powerOff_calls (env : Env) (server : Server) (w : World) :
  (exists call,
     channel PowerStateOff (Spec server) call
     /\ powerOff env server w =
          (answer env call, {| objects := objects w; trace := trace w ++ [call] |}))
  \/ ((forall call, ~ channel PowerStateOff (Spec server) call)
      /\ exists e, missing PowerStateOff (Spec server) e
                   /\ powerOff env server w =
                        (Some e, {| objects := objects w; trace := trace w ++ [] |})).
Proof. unfold powerOff, callShutdown, callPowerOff, bind, emit. one_call_or_none. Qed.

Lemma powerAction_acted (env : Env) (server : Server) (w : World) (o : Object) :
  objects w !! Name server = Some o ->
  oStatus o = Status server ->
  exists r st evs,
    powerAction env server w =
      (r, {| objects := <[Name server := {| oSpec := oSpec o; oStatus := st |}]> (objects w);
             trace := trace w ++ evs |})
    /\ acted env (Name server) (Spec server) (Status server) st r evs.
Proof.
  intros Hget Hst.
  assert (Hnone : PowerState (Spec server) = currentPower (CurrentStatus (Status server))
                  \/ (PowerState (Spec server) <> PowerStateOn
                      /\ PowerState (Spec server) <> PowerStateOff) ->
            exists r st evs,
            ret (A := Result * option error) (noRequeue, None) w =
              (r, {| objects := <[Name server := {| oSpec := oSpec o; oStatus := st |}]>
                                  (objects w);
                     trace := trace w ++ evs |})
            /\ acted env (Name server) (Spec server) (Status server) st r evs).
  { intros Hcase. exists (noRequeue, None), (Status server), []. unfold ret.
    rewrite <- Hst, insert_stored, world_eta by exact Hget.
    split; [reflexivity|]. rewrite Hst. by apply acted_none. }
  unfold powerAction. fold (currentPower (CurrentStatus (Status server))).
  destruct (decide (PowerState (Spec server) = _)) as [Hsame|Hdiff];
    [apply Hnone; by left|].
  destruct (decide (PowerState (Spec server) = PowerStateOn)) as [Hon|Hon];
    [|destruct (decide (PowerState (Spec server) = PowerStateOff)) as [Hoff|Hoff];
      [|apply Hnone; by right]].
  - destruct (powerOn_calls env server w) as [(call & Hch & Heq)|(Hno & e & Hmiss & Heq)];
      unfold bind; rewrite Heq.
    + destruct (answer env call) as [e|] eqn:Hans;
        rewrite (StatusUpdate_stored _ _ _) by exact Hget; cbn;
        rewrite <- app_assoc; eexists _, _, _; (split; [reflexivity|]).
      * eapply acted_failed; try done. by rewrite <- Hon in Hch.
      * eapply acted_sent; try done; [by rewrite <- Hon in Hch|].
        by rewrite decide_True by exact Hon.
    + rewrite (StatusUpdate_stored _ _ _) by exact Hget; cbn.
      rewrite <- app_assoc; eexists _, _, _; (split; [reflexivity|]).
      eapply acted_refused; try done; [by left| |by rewrite Hon].
      unfold warranted. by rewrite Hon.
  - destruct (powerOff_calls env server w) as [(call & Hch & Heq)|(Hno & e & Hmiss & Heq)];
      unfold bind; rewrite Heq.
    + destruct (answer env call) as [e|] eqn:Hans;
        rewrite (StatusUpdate_stored _ _ _) by exact Hget; cbn;
        rewrite <- app_assoc; eexists _, _, _; (split; [reflexivity|]).
      * eapply acted_failed; try done. by rewrite <- Hoff in Hch.
      * eapply acted_sent; try done; [by rewrite <- Hoff in Hch|].
        by rewrite decide_False by exact Hon.
    + rewrite (StatusUpdate_stored _ _ _) by exact Hget; cbn.
      rewrite <- app_assoc; eexists _, _, _; (split; [reflexivity|]).
      eapply acted_refused; try done; [by right| |by rewrite Hoff].
      unfold warranted. by rewrite Hoff.
Qed.

Lemma defaultPowerState_Spec (req : string) (o : Object) :
  Spec (defaultPowerState (toServer req o)) = workingSpec o.
Proof.
  unfold defaultPowerState, workingSpec. cbn [Spec toServer].
  case_decide; [reflexivity|]. cbn. by destruct (oSpec o).
Qed.

Section OneCallTraced.

Variables (env : Env) (req : string) (w : World) (o : Object).
Hypothesis Hget : objects w !! req = Some o.

Lemma observed_then_acted (srv : Server) (evs0 : list Event) :
  Name srv = req ->
  exists r st evs,
    powerAction env srv
      {| objects := <[req := {| oSpec := oSpec o; oStatus := Status srv |}]> (objects w);
         trace := trace w ++ evs0 |} =
      (r, {| objects := <[req := {| oSpec := oSpec o; oStatus := st |}]> (objects w);
             trace := trace w ++ evs0 ++ evs |})
    /\ acted env req (Spec srv) (Status srv) st r evs.
Proof.
  intros Hn.
  destruct (powerAction_acted env srv
              {| objects := <[req := {| oSpec := oSpec o; oStatus := Status srv |}]> (objects w);
                 trace := trace w ++ evs0 |}
              {| oSpec := oSpec o; oStatus := Status srv |})
    as (r & st & evs & Heq & Hact).
  { cbn. rewrite Hn. apply lookup_insert_eq. }
  { reflexivity. }
  exists r, st, evs. rewrite Heq. cbn. rewrite Hn, insert_insert_eq, app_assoc.
  split; [reflexivity|]. by rewrite <- Hn.
Qed.

(** Every call on an existing record is one of the paths of [ran]. *)
Lemma Reconcile_ran :
  exists r st evs,
    Reconcile env req w =
      (r, {| objects := <[req := {| oSpec := oSpec o; oStatus := st |}]> (objects w);
             trace := trace w ++ evs |})
    /\ ran env req o st r evs.
Proof.
  destruct (decide (CurrentStatus (oStatus o) = StatusFailed)) as [Hf|Hf].
  { rewrite (Reconcile_failed env req w o) by done.
    exists (noRequeue, None), (oStatus o), [].
    rewrite insert_stored, world_eta by exact Hget.
    split; [reflexivity|by apply ran_failed]. }
  destruct (Z.le_gt_cases failureThreshold (FailureCount (oStatus o))) as [Hfc|Hfc].
  { rewrite (Reconcile_threshold env req w o) by done.
    eexists _, _, [_]. split; [reflexivity|].
    apply ran_threshold; try done. cbn. by autorewrite with working_copy. }
  destruct (decide (getServerAddress (toServer req o) = "")) as [Ha|Ha].
  { rewrite (Reconcile_no_address env req w o) by done.
    eexists _, _, [_]. split; [reflexivity|].
    eapply ran_no_address; try done. cbn. by autorewrite with working_copy. }
  rewrite (Reconcile_probe env req w o) by done.
  set (server := defaultPowerState (toServer req o)).
  assert (Hname : Name server = req) by (subst server; by autorewrite with working_copy).
  assert (Hstatus : Status server = oStatus o)
    by (subst server; by autorewrite with working_copy).
  assert (Hspec : Spec server = workingSpec o) by apply defaultPowerState_Spec.
  clearbody server. unfold reconcilePhase. rewrite Hstatus.
  destruct (decide (CurrentStatus (oStatus o) = StatusPending)) as [Hp|Hp];
    [|destruct (decide (CurrentStatus (oStatus o) = StatusDraining)) as [Hd|Hd]].
  - (* pending *)
    unfold bind.
    destruct (IsReachable env (getServerAddress (toServer req o))) eqn:Hreach;
      rewrite (StatusUpdate_stored _ _ o)
        by (cbn [objects]; autorewrite with working_copy; cbn; by rewrite Hname);
      cbn [objects trace]; autorewrite with working_copy; cbn;
      rewrite Hname, ?Hstatus, <- app_assoc; unfold ret;
      (eexists _, _, _; split; [reflexivity|]).
    + eapply ran_arrived; try done. by left.
    + eapply ran_waiting; try done; [by left|].
      cbn [submits]. autorewrite with working_copy. by rewrite Hname, Hstatus.
  - (* draining *)
    unfold bind.
    destruct (IsReachable env (getServerAddress (toServer req o))) eqn:Hreach; cbn [negb];
      rewrite (StatusUpdate_stored _ _ o)
        by (cbn [objects]; autorewrite with working_copy; cbn; by rewrite Hname);
      cbn [objects trace]; autorewrite with working_copy; cbn;
      rewrite Hname, ?Hstatus, <- app_assoc; unfold ret;
      (eexists _, _, _; split; [reflexivity|]).
    + eapply ran_waiting; try done; [by right|].
      cbn [submits]. autorewrite with working_copy. by rewrite Hname, Hstatus.
    + eapply ran_arrived; try done. by right.
  - (* the other phases observe, then hand over to [powerAction] *)
    assert (Hstay : observedStored (CurrentStatus (oStatus o))
                      (IsReachable env (getServerAddress (toServer req o))) = false ->
              observedPhase (CurrentStatus (oStatus o))
                (IsReachable env (getServerAddress (toServer req o)))
              = CurrentStatus (oStatus o) ->
              exists r st evs,
              powerAction env server
                {| objects := objects w;
                   trace := trace w ++ [EvIsReachable (getServerAddress (toServer req o))] |} =
                (r, {| objects := <[req := {| oSpec := oSpec o; oStatus := st |}]> (objects w);
                       trace := trace w ++ evs |})
              /\ ran env req o st r evs).
    { intros Hstored Hphase.
      destruct (observed_then_acted server
                  [EvIsReachable (getServerAddress (toServer req o))] Hname)
        as (r & st & evs & Heq & Hact).
      rewrite Hstatus, insert_stored in Heq by exact Hget.
      exists r, st, ([EvIsReachable (getServerAddress (toServer req o))] ++ evs).
      split; [exact Heq|].
      apply (ran_observed env req o [] evs); try done.
      - by rewrite Hstored.
      - unfold actingSpec. rewrite Hstored, Hphase. rewrite Hstatus, Hspec in Hact.
        replace (withPhase (oStatus o) (CurrentStatus (oStatus o))) with (oStatus o)
          by (by destruct (oStatus o)).
        exact Hact. }
    assert (Hmove : forall phase,
              observedStored (CurrentStatus (oStatus o))
                (IsReachable env (getServerAddress (toServer req o))) = true ->
              observedPhase (CurrentStatus (oStatus o))
                (IsReachable env (getServerAddress (toServer req o))) = phase ->
              exists r st evs,
                (updated <- StatusUpdate (setStatus server phase) ;;
                 powerAction env (fst updated))
                  {| objects := objects w;
                     trace := trace w ++ [EvIsReachable (getServerAddress (toServer req o))] |} =
                  (r, {| objects := <[req := {| oSpec := oSpec o; oStatus := st |}]> (objects w);
                         trace := trace w ++ evs |})
                /\ ran env req o st r evs).
    { intros phase Hstored Hphase. unfold bind.
      rewrite (StatusUpdate_stored _ _ o) by (cbn; by rewrite Hname).
      cbn [Name setStatus objects trace fst]. rewrite Hname, <- app_assoc. cbn [app].
      destruct (observed_then_acted
                  {| Name := req; Spec := oSpec o;
                     Status := withPhase (Status server) phase |}
                  [EvIsReachable (getServerAddress (toServer req o));
                   EvStatusUpdate (setStatus server phase)])
        as (r & st & evs & Heq & Hact); [by cbn|].
      cbn [Status Spec setStatus] in Heq, Hact |- *. unfold withPhase in Heq, Hact.
      rewrite Hstatus in Heq, Hact |- *.
      exists r, st, ([EvIsReachable (getServerAddress (toServer req o));
                      EvStatusUpdate (setStatus server phase)] ++ evs).
      split; [exact Heq|].
      apply (ran_observed env req o [EvStatusUpdate (setStatus server phase)] evs);
        try done.
      - rewrite Hstored. eexists. split; [reflexivity|]. cbn. rewrite Hname, Hstatus, Hphase.
        done.
      - unfold actingSpec. by rewrite Hstored, Hphase. }
    unfold observedStored, observedPhase in Hstay, Hmove.
    destruct (decide (CurrentStatus (oStatus o) = StatusActive)) as [Hact|Hact];
      [|destruct (decide (CurrentStatus (oStatus o) = StatusOffline
                          \/ CurrentStatus (oStatus o) = "")) as [Hoff|Hoff]].
    + rewrite decide_True in Hstay, Hmove by by left.
      destruct (IsReachable env (getServerAddress (toServer req o))); cbn [negb] in *;
        [by apply Hstay|by apply Hmove].
    + rewrite decide_True in Hmove by (destruct Hoff; [right; by left|right; by right]).
      destruct (IsReachable env (getServerAddress (toServer req o))); by apply Hmove.
    + rewrite decide_False in Hstay by (intros [?|[?|?]]; tauto).
      by apply Hstay.
Qed.

End OneCallTraced.
(** ** Configuration errors *)

Lemma missing_functional (desired : string) (spec : ServerSpec) (e1 e2 : error) :
  missing desired spec e1 -> missing desired spec e2 -> e1 = e2.
Proof.
  unfold missing, ControlTypeWOL, ControlTypeIPMI, PowerStateOn, PowerStateOff.
  destruct (WOL (Control spec)), (IPMI (Control spec)); intros H1 H2;
    repeat first [progress destruct_and? | progress destruct_or?];
    simplify_eq; try congruence; try done.
Qed.

Lemma missing_not_warranted (spec : ServerSpec) (e : error) (call : Event) :
  missing (PowerState spec) spec e -> ~ warranted spec call.
Proof.
  unfold missing, warranted, channel, ControlTypeWOL, ControlTypeIPMI,
    PowerStateOn, PowerStateOff.
  intros Hmiss Hwar.
  destruct call; try done; destruct Hwar as (Hdes & Hct & c & Hc & Hwar);
    rewrite Hc in Hmiss;
    repeat first [progress destruct_and? | progress destruct_or?];
    simplify_eq; try congruence; try done.
Qed.

(** C8 (as the code has it).  A call of [Reconcile] on an existing record
    meets a configuration error in two places: the address of the record
    does not resolve, or the power action the call dispatches requires a
    control field that the spec lacks.  Either way the call stores the
    record with phase [failed] at once, on the first occurrence, with the
    failure count below the threshold and left as it was; it returns the
    error, with no requeue; the message is "No address configured for
    server" for an unresolved address and "Power action failed: " followed
    by the text of the returned error for a missing control field; and no
    power call is sent.  Conversely, every error a call returns is one of
    these two or the answer of the backend to the power call the call has
    sent, and the record is stored failed in the same way, with the
    message of the returned error. *)
Theorem error_fails_at_once (env : Env) (req : string) (w : World) (o : Object) :
  objects w !! req = Some o ->
  let p := CurrentStatus (oStatus o) in
  let address := getServerAddress (toServer req o) in
  let reachable := IsReachable env address in
  let spec := actingSpec o reachable in
  let failedWith (message : string) :=
    {| oSpec := oSpec o;
       oStatus := {| CurrentStatus := StatusFailed;
                     Message := message;
                     FailingSince := FailingSince (oStatus o);
                     FailureCount := FailureCount (oStatus o) |} |} in
  (p <> StatusFailed ->
   FailureCount (oStatus o) < failureThreshold ->
   address = "" ->
   exists w',
     Reconcile env req w =
       ((noRequeue, Some (Errorf ("no address configured for server " +:+ req))), w')
     /\ objects w' !! req = Some (failedWith "No address configured for server")
     /\ powerCalls w' = powerCalls w)
  /\
  (p <> StatusFailed -> p <> StatusPending -> p <> StatusDraining ->
   FailureCount (oStatus o) < failureThreshold ->
   address <> "" ->
   PowerState spec <> currentPower (observedPhase p reachable) ->
   PowerState spec = PowerStateOn \/ PowerState spec = PowerStateOff ->
   forall e, missing (PowerState spec) spec e ->
     exists w',
       Reconcile env req w = ((noRequeue, Some e), w')
       /\ objects w' !! req = Some (failedWith ("Power action failed: " +:+ Error e))
       /\ powerCalls w' = powerCalls w)
  /\
  (forall r e w',
     Reconcile env req w = ((r, Some e), w') ->
     r = noRequeue
     /\ p <> StatusFailed
     /\ FailureCount (oStatus o) < failureThreshold
     /\ ((address = ""
          /\ e = Errorf ("no address configured for server " +:+ req)
          /\ objects w' !! req = Some (failedWith "No address configured for server")
          /\ powerCalls w' = powerCalls w)
         \/ (address <> ""
             /\ objects w' !! req
                = Some (failedWith ("Power action failed: " +:+ Error e))
             /\ ((missing (PowerState spec) spec e /\ powerCalls w' = powerCalls w)
                 \/ exists call,
                      warranted spec call /\ answer env call = Some e
                      /\ powerCalls w' = powerCalls w ++ [call])))).
Proof.
  intros Hget. cbn zeta.
  destruct (Reconcile_ran env req w o Hget) as (r0 & st & evs & Heq & Hran).
  rewrite Heq. unfold powerCalls.
  split; [|split].
  - intros Hf Hfc Ha.
    inversion Hran as [Hf' | upd Hf' Hfc' Hupd | upd st' Hf' Hfc' Ha' Hst Hupd
                       | upd st' Hfc' Ha' Hcase Hm Hfs Hc Hupd
                       | upd st' Hfc' Ha' Hcase Hst Hupd
                       | obs evs' st' r' Hf' Hp' Hd' Hfc' Ha' reachable seen Hobs Hact];
      subst; try done; try lia.
    eexists. split; [reflexivity|]. cbn [objects]. rewrite lookup_insert_eq.
    split; [reflexivity|]. cbn [trace]. rewrite List.filter_app. cbn [List.filter].
    by rewrite (submits_not_power _ _ _ Hupd), app_nil_r.
  - intros Hf Hp Hd Hfc Ha Hdiff Hdir e Hmiss.
    inversion Hran as [Hf' | upd Hf' Hfc' Hupd | upd st' Hf' Hfc' Ha' Hst Hupd
                       | upd st' Hfc' Ha' Hcase Hm Hfs Hc Hupd
                       | upd st' Hfc' Ha' Hcase Hst Hupd
                       | obs evs' st' r' Hf' Hp' Hd' Hfc' Ha' reachable seen Hobs Hact];
      subst; try done; try lia; try (destruct Hcase as [[? _]|[? _]]; done).
    inversion Hact as [Hsame | call upd st'' Hdiff' Hwar Hans Hst Hupd
                       | call upd e' st'' Hdiff' Hwar Hans Hst Hupd
                       | upd e' st'' Hdiff' Hdir' Hno Hst Hupd Hmiss']; subst.
    + destruct Hsame as [Hsame|[Hon Hoff]]; [done|]. by destruct Hdir.
    + by destruct (missing_not_warranted _ _ call Hmiss).
    + by destruct (missing_not_warranted _ _ call Hmiss).
    + rewrite (missing_functional _ _ _ _ Hmiss Hmiss').
      eexists. split; [reflexivity|]. cbn [objects]. rewrite lookup_insert_eq.
      split; [reflexivity|]. cbn [trace]. rewrite List.filter_app.
      cbn [List.filter isPowerCall].
      rewrite List.filter_app, (observed_not_power _ _ _ _ Hobs). cbn [List.filter app].
      by rewrite (submits_not_power _ _ _ Hupd), app_nil_r.
  - intros r e w' Hret. injection Hret as -> <-.
    cbn [objects trace]. rewrite lookup_insert_eq, List.filter_app.
    inversion Hran as [Hf' | upd Hf' Hfc' Hupd | upd st' Hf' Hfc' Ha' Hst Hupd
                       | upd st' Hfc' Ha' Hcase Hm Hfs Hc Hupd
                       | upd st' Hfc' Ha' Hcase Hst Hupd
                       | obs evs' st' r' Hf' Hp' Hd' Hfc' Ha' reachable seen Hobs Hact];
      subst.
    + split_and!; try done. left. split_and!; try done. cbn [List.filter].
      by rewrite (submits_not_power _ _ _ Hupd), app_nil_r.
    + inversion Hact as [Hsame | call upd st'' Hdiff' Hwar Hans Hst Hupd
                         | call upd e' st'' Hdiff' Hwar Hans Hst Hupd
                         | upd e' st'' Hdiff' Hdir' Hno Hst Hupd Hmiss']; subst.
      * split_and!; try done. right. split_and!; try done. right. exists call.
        split_and!; try done. cbn [List.filter isPowerCall].
        rewrite List.filter_app, (observed_not_power _ _ _ _ Hobs). cbn [List.filter app].
        by rewrite (warranted_isPowerCall _ _ Hwar), (submits_not_power _ _ _ Hupd).
      * split_and!; try done. right. split_and!; try done. left. split; [done|].
        cbn [List.filter isPowerCall].
        rewrite List.filter_app, (observed_not_power _ _ _ _ Hobs). cbn [List.filter app].
        by rewrite (submits_not_power _ _ _ Hupd), app_nil_r.
Qed.

(** ** Converged records *)

(** C4 (as the code has it).  For a record with an address to probe and a
    failure count below the threshold: when it is active with desired
    state on and the probe answers "reachable", the call only probes: no
    write request, no power call, success without requeue.  When it is
    offline with desired state off and the probe answers "unreachable",
    the call issues no power call and leaves every stored record as it
    was, but it does send one status update, which submits the record just
    as it was fetched. *)
Theorem converged_is_quiet (env : Env) (req : string) (w : World) (o : Object) :
  objects w !! req = Some o ->
  FailureCount (oStatus o) < failureThreshold ->
  getServerAddress (toServer req o) <> "" ->
  (CurrentStatus (oStatus o) = StatusActive ->
   PowerState (oSpec o) = PowerStateOn ->
   IsReachable env (getServerAddress (toServer req o)) = true ->
   Reconcile env req w =
     ((noRequeue, None),
      {| objects := objects w;
         trace := trace w ++ [EvIsReachable (getServerAddress (toServer req o))] |}))
  /\
  (CurrentStatus (oStatus o) = StatusOffline ->
   PowerState (oSpec o) = PowerStateOff ->
   IsReachable env (getServerAddress (toServer req o)) = false ->
   Reconcile env req w =
     ((noRequeue, None),
      {| objects := objects w;
         trace := trace w ++ [EvIsReachable (getServerAddress (toServer req o));
                              EvStatusUpdate (toServer req o)] |})).
Proof.
  intros Hget Hfc Ha. split; intros Hphase Hdesired Hprobe.
  - by apply Reconcile_active_on.
  - by apply Reconcile_offline_off.
Qed.

(** ** Call after call *)

Lemma reconcileAll_app (xs ys : list Env) (req : string) (w : World) :
  snd (reconcileAll (xs ++ ys) req w) =
  snd (reconcileAll ys req (snd (reconcileAll xs req w))).
Proof.
  revert w. induction xs as [|x xs IH]; intros w; [reflexivity|].
  cbn [reconcileAll app]. unfold bind, ret.
  destruct (Reconcile x req w) as [r w1].
  specialize (IH w1).
  destruct (reconcileAll (xs ++ ys) req w1) as [rs w2].
  destruct (reconcileAll xs req w1) as [rs' w3]. cbn in *. exact IH.
Qed.

Lemma reconcileAll_cons (env : Env) (envs : list Env) (req : string) (w : World) :
  snd (reconcileAll (env :: envs) req w) =
  snd (reconcileAll envs req (snd (Reconcile env req w))).
Proof.
  cbn [reconcileAll]. unfold bind, ret.
  destruct (Reconcile env req w) as [r w1]. cbn [snd].
  by destruct (reconcileAll envs req w1).
Qed.

Lemma reconcileAll_failed (envs : list Env) (req : string) (w : World) (o : Object) :
  objects w !! req = Some o ->
  CurrentStatus (oStatus o) = StatusFailed ->
  reconcileAll envs req w = ((fun _ => (noRequeue, None)) <$> envs, w).
Proof.
  intros Hget Hfailed. induction envs as [|e envs IH]; [reflexivity|].
  cbn [reconcileAll]. unfold bind at 1.
  rewrite (Reconcile_failed e req w o Hget Hfailed).
  unfold bind. rewrite IH. reflexivity.
Qed.

(** C2.  A record whose phase is [failed] is left alone: the call returns
    success with no requeue and the world it returns is the very world it
    was given: no probe, no power-capability call, no write request, no
    change of any stored record.  However often the scheduler calls again,
    the world stays that one, so only a change made from outside (a reset
    of the phase) can take the record out of [failed]. *)
Theorem failed_is_terminal (env : Env) (envs : list Env) (req : string)
    (w : World) (o : Object) :
  objects w !! req = Some o ->
  CurrentStatus (oStatus o) = StatusFailed ->
  Reconcile env req w = ((noRequeue, None), w)
  /\ snd (reconcileAll envs req w) = w
  /\ Forall (fun r => r = (noRequeue, None)) (fst (reconcileAll envs req w)).
Proof.
  intros Hget Hfailed.
  split; [by apply (Reconcile_failed env req w o)|].
  rewrite (reconcileAll_failed envs req w o Hget Hfailed). cbn.
  split; [reflexivity|].
  apply Forall_forall. by intros r (e & -> & _)%list_elem_of_fmap.
Qed.

(** A run of unreachable probes on a pending record only counts. *)
Lemma failures_accumulate (envs : list Env) (req : string) (w : World) (o : Object) :
  objects w !! req = Some o ->
  CurrentStatus (oStatus o) = StatusPending ->
  0 <= FailureCount (oStatus o) ->
  FailureCount (oStatus o) + Z.of_nat (length envs) <= failureThreshold ->
  getServerAddress (toServer req o) <> "" ->
  Forall (fun env => IsReachable env (getServerAddress (toServer req o)) = false) envs ->
  exists o',
    objects (snd (reconcileAll envs req w)) !! req = Some o'
    /\ oSpec o' = oSpec o
    /\ CurrentStatus (oStatus o') = StatusPending
    /\ FailureCount (oStatus o') = FailureCount (oStatus o) + Z.of_nat (length envs).
Proof.
  revert w o. induction envs as [|env envs IH]; intros w o Hget Hp H0 Hle Ha Hdown.
  - exists o. cbn. repeat split; try done; lia.
  - apply Forall_cons in Hdown as [Hd Hdown]. cbn [length] in Hle.
    unfold failureThreshold in *.
    destruct (Reconcile_pending_unreachable env req w o) as [_ Hobj]; try done.
    { unfold failureThreshold. lia. }
    rewrite reconcileAll_cons.
    set (o1 := {| oSpec := oSpec o;
                  oStatus := {| CurrentStatus := StatusPending;
                                Message := Message (oStatus o);
                                FailingSince := match FailingSince (oStatus o) with
                                                | None => Some (Now env)
                                                | Some t => Some t
                                                end;
                                FailureCount := wrapInt (FailureCount (oStatus o) + 1) |} |})
      in Hobj.
    destruct (IH (snd (Reconcile env req w)) o1) as (o' & Hget' & Hspec & Hp' & Hfc').
    + rewrite Hobj. apply lookup_insert_eq.
    + reflexivity.
    + cbn. rewrite wrapInt_small; lia.
    + cbn. rewrite wrapInt_small; lia.
    + exact Ha.
    + exact Hdown.
    + exists o'. repeat split; try done.
      rewrite Hfc'. cbn. rewrite wrapInt_small; lia.
Qed.

(** C1 (as the code has it).  Take a pending record with [failureCount] 0,
    [failingSince] null and an address to probe, and let the probe answer
    "unreachable" in each of N consecutive calls, N the threshold.  After
    these N calls the record is still pending and its [failureCount] is N.
    The next call, whatever the probe would answer, sets the phase to
    [failed]; from then on the phase stays [failed] and [failureCount]
    stays N, however many calls follow. *)
Theorem threshold_escalation (envs : list Env) (req : string) (w : World) (o : Object) :
  objects w !! req = Some o ->
  CurrentStatus (oStatus o) = StatusPending ->
  FailureCount (oStatus o) = 0 ->
  FailingSince (oStatus o) = None ->
  getServerAddress (toServer req o) <> "" ->
  length envs = Z.to_nat failureThreshold ->
  Forall (fun env => IsReachable env (getServerAddress (toServer req o)) = false) envs ->
  (exists o',
     objects (snd (reconcileAll envs req w)) !! req = Some o'
     /\ CurrentStatus (oStatus o') = StatusPending
     /\ FailureCount (oStatus o') = failureThreshold)
  /\
  (forall (env : Env) (later : list Env),
     exists o',
       objects (snd (reconcileAll (envs ++ env :: later) req w)) !! req = Some o'
       /\ CurrentStatus (oStatus o') = StatusFailed
       /\ FailureCount (oStatus o') = failureThreshold).
Proof.
  intros Hget Hp Hfc Hfs Ha Hlen Hdown.
  destruct (failures_accumulate envs req w o) as (o3 & Hget3 & Hspec3 & Hp3 & Hfc3);
    try done.
  { lia. }
  { rewrite Hfc, Hlen. rewrite Z2Nat.id; unfold failureThreshold; lia. }
  assert (Hfc3' : FailureCount (oStatus o3) = failureThreshold).
  { rewrite Hfc3, Hfc, Hlen. rewrite Z2Nat.id; unfold failureThreshold; lia. }
  split.
  { exists o3. by repeat split. }
  intros env later.
  rewrite reconcileAll_app, reconcileAll_cons.
  rewrite (Reconcile_threshold env req _ o3 Hget3).
  2:{ rewrite Hp3. discriminate. }
  2:{ lia. }
  cbn [snd].
  set (o4 := {| oSpec := oSpec o3; oStatus := withPhase (oStatus o3) StatusFailed |}).
  match goal with
  | |- context [reconcileAll later req ?w4] =>
      rewrite (reconcileAll_failed later req w4 o4)
  end.
  - cbn. exists o4. split; [apply lookup_insert_eq|]. by split.
  - cbn. apply lookup_insert_eq.
  - reflexivity.
Qed.

(** * Properties of the fleet adapter *)

Lemma increaseLoop_turnLoop (delta : Z) (items : list Server) (p : Z) (w : World) :
  increaseLoop delta items p w =
  turnLoop PowerStateOff PowerStateOn "failed to power on server " delta items p w.
Proof.
  revert p w. induction items as [|s rest IH]; intros p w; [reflexivity|].
  cbn [increaseLoop turnLoop]. destruct (p >=? delta); [reflexivity|].
  case_decide; [|apply IH].
  unfold bind. destruct (Update _ w) as [[e|] w1]; [reflexivity|apply IH].
Qed.

Lemma decreaseLoop_turnLoop (delta : Z) (items : list Server) (p : Z) (w : World) :
  decreaseLoop delta items p w =
  turnLoop PowerStateOn PowerStateOff "failed to power off server " delta items p w.
Proof.
  revert p w. induction items as [|s rest IH]; intros p w; [reflexivity|].
  cbn [decreaseLoop turnLoop]. destruct (p >=? delta); [reflexivity|].
  case_decide; [|apply IH].
  unfold bind. destruct (Update _ w) as [[e|] w1]; [reflexivity|apply IH].
Qed.

Lemma Update_stored (server : Server) (w : World) (o : Object) :
  objects w !! Name server = Some o ->
  Update server w =
    (None, {| objects := <[Name server := {| oSpec := Spec server; oStatus := oStatus o |}]>
                           (objects w);
              trace := trace w ++ [EvUpdate server] |}).
Proof.
  intros H. unfold Update, bind, emit. cbn. rewrite H. reflexivity.
Qed.

(** A listing holds the stored objects, each once; only its order is by
    name. *)
Lemma listed_Permutation (w : World) :
  listed w ≡ₚ (fun kv => toServer (fst kv) (snd kv)) <$> map_to_list (objects w).
Proof. unfold listed. by rewrite merge_sort_Permutation. Qed.

Lemma listed_NoDup (w : World) : NoDup (Name <$> listed w).
Proof.
  rewrite listed_Permutation, <- list_fmap_compose.
  apply (NoDup_fst_map_to_list (objects w)).
Qed.

Lemma listed_stored (w : World) (s : Server) :
  s ∈ listed w <-> objects w !! Name s = Some (toObject s).
Proof.
  rewrite listed_Permutation, list_elem_of_fmap. split.
  - intros ([k o] & -> & Hin). apply elem_of_map_to_list in Hin. cbn.
    rewrite Hin. by destruct o.
  - intros H. exists (Name s, toObject s). split; [by destruct s|].
    by apply elem_of_map_to_list.
Qed.

Lemma turnLoop_run (from to msg : string) (items : list Server) :
  forall (delta p : Z) (w : World),
    NoDup (Name <$> items) ->
    (forall s, s ∈ items -> objects w !! Name s = Some (toObject s)) ->
    turnLoop from to msg delta items p w =
      (inl (p + Z.of_nat (length (chosen from (delta - p) items))),
       {| objects := storeAll to (chosen from (delta - p) items) (objects w);
          trace := trace w ++
                   ((fun s => EvUpdate (setPowerState s to)) <$> chosen from (delta - p) items) |}).
Proof.
  induction items as [|s rest IH]; intros delta p w Hnd Hst.
  - cbn. unfold ret. by rewrite Z.add_0_r, app_nil_r; destruct w.
  - cbn [turnLoop chosen].
    destruct (Z.geb_spec p delta) as [Hge|Hlt].
    { replace (delta - p <=? 0) with true by (symmetry; apply Z.leb_le; lia).
      cbn. unfold ret. by rewrite Z.add_0_r, app_nil_r; destruct w. }
    replace (delta - p <=? 0) with false by (symmetry; apply Z.leb_gt; lia).
    rewrite fmap_cons in Hnd. apply NoDup_cons in Hnd as [Hnotin Hnd].
    destruct (decide (PowerState (Spec s) = from)) as [Hfrom|Hfrom].
    + unfold bind.
      rewrite (Update_stored _ _ (toObject s))
        by (cbn [Name setPowerState]; apply Hst, elem_of_cons; by left).
      rewrite IH; [|exact Hnd|].
      * replace (delta - (p + 1)) with (delta - p - 1) by lia.
        cbn [length fmap list_fmap storeAll foldl objects trace Name setPowerState].
        f_equal; [f_equal; lia|]. f_equal. by rewrite <- app_assoc.
      * intros s' Hin. cbn [objects Name setPowerState].
        rewrite lookup_insert_ne; [apply Hst, elem_of_cons; by right|].
        intros Heq. apply Hnotin. rewrite Heq. by apply list_elem_of_fmap_2.
    + apply IH; [exact Hnd|]. intros s' Hin. apply Hst, elem_of_cons. by right.
Qed.

Lemma chosen_elem (from : string) (items : list Server) (budget : Z) (s : Server) :
  s ∈ chosen from budget items -> s ∈ items /\ PowerState (Spec s) = from.
Proof.
  revert budget. induction items as [|x rest IH]; intros budget; cbn [chosen].
  - by intros ?%elem_of_nil.
  - destruct (budget <=? 0); [by intros ?%elem_of_nil|].
    case_decide.
    + intros [->|Hin]%elem_of_cons.
      * split; [apply elem_of_cons; by left|done].
      * destruct (IH _ Hin). split; [apply elem_of_cons; by right|done].
    + intros Hin. destruct (IH _ Hin). split; [apply elem_of_cons; by right|done].
Qed.

Lemma chosen_NoDup (from : string) (items : list Server) (budget : Z) :
  NoDup (Name <$> items) -> NoDup (Name <$> chosen from budget items).
Proof.
  revert budget. induction items as [|x rest IH]; intros budget Hnd; cbn [chosen].
  - constructor.
  - rewrite fmap_cons in Hnd. apply NoDup_cons in Hnd as [Hnotin Hnd].
    destruct (budget <=? 0); [constructor|].
    case_decide; [|by apply IH].
    rewrite fmap_cons. apply NoDup_cons. split; [|by apply IH].
    intros (s & Hname & Hin)%list_elem_of_fmap. apply Hnotin.
    rewrite Hname. apply list_elem_of_fmap_2. by apply chosen_elem in Hin as [? _].
Qed.

Lemma chosen_length (from : string) (items : list Server) (budget : Z) :
  Z.of_nat (length (chosen from budget items)) =
  Z.min (Z.max 0 budget)
        (Z.of_nat (length (filter (fun s => PowerState (Spec s) = from) items))).
Proof.
  revert budget. induction items as [|x rest IH]; intros budget; cbn [chosen].
  - cbn. lia.
  - destruct (Z.leb_spec budget 0) as [Hle|Hgt].
    { cbn [length]. lia. }
    destruct (decide (PowerState (Spec x) = from)) as [Hx|Hx].
    + rewrite filter_cons_True by exact Hx. cbn [length]. rewrite !Nat2Z.inj_succ, IH. lia.
    + rewrite filter_cons_False by exact Hx. rewrite IH. lia.
Qed.

(** With a budget larger than the supply, every candidate is chosen. *)
Lemma chosen_all (from : string) (items : list Server) (budget : Z) :
  Z.of_nat (length (filter (fun s => PowerState (Spec s) = from) items)) < budget ->
  chosen from budget items = filter (fun s => PowerState (Spec s) = from) items.
Proof.
  revert budget. induction items as [|x rest IH]; intros budget Hlt; cbn [chosen].
  - reflexivity.
  - destruct (Z.leb_spec budget 0) as [Hle|Hgt]; [lia|].
    destruct (decide (PowerState (Spec x) = from)) as [Hx|Hx].
    + rewrite filter_cons_True in * by exact Hx. cbn [length] in Hlt.
      rewrite IH; [done|lia].
    + rewrite filter_cons_False in * by exact Hx. by apply IH.
Qed.

Lemma storeAll_cons (to : string) (s : Server) (rest : list Server)
    (m : gmap string Object) :
  storeAll to (s :: rest) m =
  storeAll to rest (<[Name s := toObject (setPowerState s to)]> m).
Proof. reflexivity. Qed.

Lemma storeAll_other (to : string) (turned : list Server) (m : gmap string Object)
    (n : string) :
  n ∉ Name <$> turned -> storeAll to turned m !! n = m !! n.
Proof.
  revert m. induction turned as [|s rest IH]; intros m Hn; [reflexivity|].
  rewrite fmap_cons in Hn. apply not_elem_of_cons in Hn as [Hne Hn].
  rewrite storeAll_cons, IH by exact Hn.
  by rewrite lookup_insert_ne.
Qed.

Lemma storeAll_turned (to : string) (turned : list Server) (m : gmap string Object)
    (s : Server) :
  NoDup (Name <$> turned) -> s ∈ turned ->
  storeAll to turned m !! Name s = Some (toObject (setPowerState s to)).
Proof.
  revert m. induction turned as [|x rest IH]; intros m Hnd Hin.
  - by apply elem_of_nil in Hin.
  - rewrite fmap_cons in Hnd. apply NoDup_cons in Hnd as [Hnotin Hnd].
    rewrite storeAll_cons.
    apply elem_of_cons in Hin as [->|Hin].
    + rewrite storeAll_other by exact Hnotin. apply lookup_insert_eq.
    + by apply IH.
Qed.

(** What a scaling loop leaves in the store, name by name. *)
Lemma storeAll_listed (from to : string) (budget : Z) (w : World) (n : string) :
  storeAll to (chosen from budget (listed w)) (objects w) !! n =
  if decide (n ∈ Name <$> chosen from budget (listed w))
  then withPower to <$> objects w !! n
  else objects w !! n.
Proof.
  case_decide as Hn; [|by apply storeAll_other].
  apply list_elem_of_fmap in Hn as (s & -> & Hin).
  rewrite storeAll_turned; [|apply chosen_NoDup, listed_NoDup|exact Hin].
  apply chosen_elem in Hin as [Hin _]. apply listed_stored in Hin. by rewrite Hin.
Qed.

Lemma NodeGroupIncreaseSize_run (delta : Z) (w : World) :
  0 < delta ->
  let turned := chosen PowerStateOff delta (listed w) in
  NodeGroupIncreaseSize defaultNodeGroupID delta w =
    (if Z.of_nat (length turned) <? delta
     then inr (Errorf ("could not provision enough servers: requested "
                       +:+ pretty delta +:+ ", provisioned "
                       +:+ pretty (Z.of_nat (length turned))))
     else inl tt,
     {| objects := storeAll PowerStateOn turned (objects w);
        trace := trace w ++ ((fun s => EvUpdate (setPowerState s PowerStateOn)) <$> turned) |}).
Proof.
  intros Hpos turned. unfold NodeGroupIncreaseSize.
  rewrite decide_False by (intros H; by apply H).
  replace (delta <=? 0) with false by (symmetry; apply Z.leb_gt; lia).
  unfold bind at 1, ListServers. unfold bind.
  rewrite increaseLoop_turnLoop, turnLoop_run.
  - fold (listed w). rewrite Z.sub_0_r, Z.add_0_l. fold turned.
    by destruct (Z.of_nat (length turned) <? delta).
  - apply listed_NoDup.
  - intros s. apply listed_stored.
Qed.

Lemma NodeGroupDecreaseTargetSize_run (delta : Z) (w : World) :
  0 < delta ->
  let turned := chosen PowerStateOn delta (listed w) in
  NodeGroupDecreaseTargetSize defaultNodeGroupID delta w =
    (inl tt,
     {| objects := storeAll PowerStateOff turned (objects w);
        trace := trace w ++ ((fun s => EvUpdate (setPowerState s PowerStateOff)) <$> turned) |}).
Proof.
  intros Hpos turned. unfold NodeGroupDecreaseTargetSize.
  rewrite decide_False by (intros H; by apply H).
  replace (delta <=? 0) with false by (symmetry; apply Z.leb_gt; lia).
  unfold bind at 1, ListServers. unfold bind.
  rewrite decreaseLoop_turnLoop, turnLoop_run.
  - fold (listed w). by rewrite Z.sub_0_r.
  - apply listed_NoDup.
  - intros s. apply listed_stored.
Qed.

Lemma writes_app (m : gmap string Object) (w : World) (evs : list Event) :
  writes {| objects := m; trace := trace w ++ evs |} =
  writes w ++ List.filter isWrite evs.
Proof. unfold writes. cbn. apply List.filter_app. Qed.

Lemma updates_are_writes {A} (f : A -> Server) (l : list A) :
  List.filter isWrite ((fun x => EvUpdate (f x)) <$> l) = (fun x => EvUpdate (f x)) <$> l.
Proof. induction l as [|x l IH]; [done|]. cbn. by rewrite IH. Qed.

(** A listed server is chosen by name only if it is chosen itself. *)
Lemma chosen_by_name (from : string) (budget : Z) (w : World) (n : string) :
  n ∈ Name <$> chosen from budget (listed w) ->
  exists o, objects w !! n = Some o /\ PowerState (oSpec o) = from
            /\ toServer n o ∈ chosen from budget (listed w).
Proof.
  intros (s & -> & Hin)%list_elem_of_fmap.
  pose proof (chosen_elem _ _ _ _ Hin) as [Hl Hfrom].
  apply listed_stored in Hl. exists (toObject s). repeat split; try done.
  by destruct s.
Qed.

(** C5.  [NodeGroupIncreaseSize] on the pool, with a positive [delta] that
    exceeds the number k of records whose desired state is off: the call
    returns an error; each of those k records is stored with desired state
    on and is otherwise as before (nothing is rolled back); every other
    record is exactly as before; k updates were sent. *)
Theorem increase_shortfall (delta : Z) (w : World) :
  0 < delta ->
  countPower PowerStateOff w < delta ->
  exists (e : error) (w' : World),
    NodeGroupIncreaseSize defaultNodeGroupID delta w = (inr e, w')
    /\ (forall n o, objects w !! n = Some o ->
                    PowerState (oSpec o) = PowerStateOff ->
                    objects w' !! n = Some (withPower PowerStateOn o))
    /\ (forall n o, objects w !! n = Some o ->
                    PowerState (oSpec o) <> PowerStateOff ->
                    objects w' !! n = Some o)
    /\ (forall n, objects w !! n = None -> objects w' !! n = None)
    /\ Z.of_nat (length (writes w')) =
       Z.of_nat (length (writes w)) + countPower PowerStateOff w.
Proof.
  intros Hpos Hshort. rewrite NodeGroupIncreaseSize_run by exact Hpos.
  unfold countPower in *.
  pose proof (chosen_all PowerStateOff (listed w) delta Hshort) as Hall.
  set (turned := chosen PowerStateOff delta (listed w)) in *.
  replace (Z.of_nat (length turned) <? delta) with true
    by (symmetry; apply Z.ltb_lt; by rewrite Hall).
  eexists _, _. split; [reflexivity|]. cbn [objects].
  split; [|split; [|split]].
  - intros n o Hget Hoff. unfold turned. rewrite storeAll_listed.
    rewrite decide_True; [by rewrite Hget|].
    fold turned. rewrite Hall. apply list_elem_of_fmap.
    exists (toServer n o). split; [done|]. apply list_elem_of_filter. split; [done|].
    apply listed_stored. cbn. rewrite Hget. by destruct o.
  - intros n o Hget Hoff. unfold turned. rewrite storeAll_listed.
    rewrite decide_False; [done|].
    intros (o' & Hget' & Hoff' & _)%chosen_by_name. congruence.
  - intros n Hget. unfold turned. rewrite storeAll_listed.
    rewrite decide_False; [done|].
    intros (o' & Hget' & _)%chosen_by_name. congruence.
  - rewrite writes_app, updates_are_writes, length_app, length_fmap, Hall. lia.
Qed.

(** C6.  [NodeGroupDecreaseTargetSize] on the pool, with a positive
    [delta], always succeeds.  It turns min(delta, number of records whose
    desired state is on) records, each of them from on to off and
    otherwise as before, and leaves every other record exactly as before;
    one update is sent per turned record. *)
Theorem decrease_turns_min (delta : Z) (w : World) :
  0 < delta ->
  exists (turned : list string) (w' : World),
    NodeGroupDecreaseTargetSize defaultNodeGroupID delta w = (inl tt, w')
    /\ NoDup turned
    /\ Z.of_nat (length turned) = Z.min delta (countPower PowerStateOn w)
    /\ (forall n, n ∈ turned ->
          exists o, objects w !! n = Some o
                    /\ PowerState (oSpec o) = PowerStateOn
                    /\ objects w' !! n = Some (withPower PowerStateOff o))
    /\ (forall n, n ∉ turned -> objects w' !! n = objects w !! n)
    /\ length (writes w') = (length (writes w) + length turned)%nat.
Proof.
  intros Hpos. rewrite NodeGroupDecreaseTargetSize_run by exact Hpos.
  exists (Name <$> chosen PowerStateOn delta (listed w)). eexists.
  split; [reflexivity|]. cbn [objects].
  split; [apply chosen_NoDup, listed_NoDup|].
  split; [rewrite length_fmap, chosen_length; unfold countPower; lia|].
  split; [|split].
  - intros n Hn. rewrite storeAll_listed, decide_True by exact Hn.
    apply chosen_by_name in Hn as (o & Hget & Hon & _).
    exists o. by rewrite Hget.
  - intros n Hn. by rewrite storeAll_listed, decide_False.
  - by rewrite writes_app, updates_are_writes, length_app, !length_fmap.
Qed.

(** C10.  With [delta <= 0] on the pool, both scaling calls return success
    and hand back the world untouched: no update is sent and every record
    keeps its desired power state. *)
Theorem nonpositive_delta_is_noop (delta : Z) (w : World) :
  delta <= 0 ->
  NodeGroupIncreaseSize defaultNodeGroupID delta w = (inl tt, w)
  /\ NodeGroupDecreaseTargetSize defaultNodeGroupID delta w = (inl tt, w).
Proof.
  intros Hle. unfold NodeGroupIncreaseSize, NodeGroupDecreaseTargetSize.
  rewrite decide_False by (intros H; by apply H).
  replace (delta <=? 0) with true by (symmetry; by apply Z.leb_le).
  by split.
Qed.

Lemma knownPrefix_insert (m : gmap string Object) (n : string) (o o' : Object)
    (nodes : list string) :
  m !! n = Some o ->
  knownPrefix (<[n := o']> m) nodes = knownPrefix m nodes.
Proof.
  intros Hn. induction nodes as [|k rest IH]; [reflexivity|]. cbn [knownPrefix].
  destruct (decide (n = k)) as [<-|Hne].
  - by rewrite lookup_insert_eq, Hn, IH.
  - rewrite lookup_insert_ne by exact Hne. by rewrite IH.
Qed.

Lemma knownPrefix_known (m : gmap string Object) (nodes : list string) (n : string) :
  n ∈ knownPrefix m nodes -> is_Some (m !! n).
Proof.
  induction nodes as [|k rest IH]; cbn [knownPrefix]; [by intros ?%elem_of_nil|].
  destruct (m !! k) eqn:Hk; [|by intros ?%elem_of_nil].
  intros [->|Hin]%elem_of_cons; [by rewrite Hk|by apply IH].
Qed.

Lemma knownPrefix_all (m : gmap string Object) (nodes : list string) :
  (forall n, n ∈ nodes -> is_Some (m !! n)) <-> knownPrefix m nodes = nodes.
Proof.
  induction nodes as [|k rest IH]; cbn [knownPrefix].
  { split; [done|]. intros _ n Hn. by apply elem_of_nil in Hn. }
  split.
  - intros Hall. destruct (Hall k) as [o ->]; [apply elem_of_cons; by left|].
    f_equal. apply IH. intros n Hn. apply Hall, elem_of_cons. by right.
  - destruct (m !! k) eqn:Hk; [|discriminate]. intros [= Heq] n.
    intros [->|Hin]%elem_of_cons; [by rewrite Hk|]. by apply IH.
Qed.

Lemma submitsPowerOnly_insert (w : World) (n : string) (o : Object) (p : string)
    (evs0 : list Event) (e : Event) :
  objects w !! n = Some o ->
  submitsPowerOnly {| objects := <[n := withPower p o]> (objects w); trace := evs0 |} e ->
  submitsPowerOnly w e.
Proof.
  intros Hget. destruct e as [s| | | | | |]; try done. cbn.
  intros (o' & Hs & Hst & Hty & Hctl).
  destruct (decide (n = Name s)) as [->|Hne].
  - rewrite lookup_insert_eq in Hs. injection Hs as <-. by exists o.
  - rewrite lookup_insert_ne in Hs by exact Hne. by exists o'.
Qed.

Lemma deleteLoop_run (nodes : list string) :
  forall w : World,
  exists (r : option error) (w' : World) (evs : list Event),
    deleteLoop nodes w = (r, w')
    /\ (forall n, objects w' !! n =
                  if decide (n ∈ knownPrefix (objects w) nodes)
                  then withPower PowerStateOff <$> objects w !! n
                  else objects w !! n)
    /\ (r = None <-> knownPrefix (objects w) nodes = nodes)
    /\ trace w' = trace w ++ evs
    /\ Forall (submitsPowerOnly w) evs.
Proof.
  induction nodes as [|node rest IH]; intros w.
  - exists None, w, []. cbn [deleteLoop knownPrefix]. unfold ret. rewrite app_nil_r.
    split; [done|]. split; [|by repeat split].
    intros n. rewrite decide_False; [done|]. by intros ?%elem_of_nil.
  - cbn [deleteLoop knownPrefix]. unfold bind at 1, Get.
    destruct (objects w !! node) as [o|] eqn:Hget.
    2:{ eexists _, w, []. unfold ret. rewrite app_nil_r.
        split; [done|]. split; [|by repeat split].
        intros n. rewrite decide_False; [done|]. by intros ?%elem_of_nil. }
    unfold bind.
    rewrite (Update_stored _ _ o) by exact Hget.
    cbn [Name Spec setPowerState toServer].
    set (w1 := {| objects := _; trace := _ |}).
    destruct (IH w1) as (r & w' & evs & Heq & Hobj & Hr & Htr & Hev).
    rewrite Heq. exists r, w', (EvUpdate (setPowerState (toServer node o) PowerStateOff) :: evs).
    subst w1. cbn [objects trace] in *.
    rewrite (knownPrefix_insert _ _ o) in Hobj, Hr by exact Hget.
    split; [reflexivity|]. split; [|split; [|split]].
    + intros n. rewrite Hobj.
      destruct (decide (n = node)) as [->|Hne].
      * rewrite lookup_insert_eq, Hget.
        rewrite (decide_True (P := node ∈ node :: _)) by (apply elem_of_cons; by left).
        by case_decide.
      * rewrite lookup_insert_ne by done.
        destruct (decide (n ∈ knownPrefix (objects w) rest)) as [Hin|Hnin].
        -- rewrite decide_True; [done|apply elem_of_cons; by right].
        -- rewrite decide_False; [done|]. intros [?|?]%elem_of_cons; done.
    + rewrite Hr. split; [by intros ->|by intros [= ?]].
    + rewrite Htr, <- app_assoc. reflexivity.
    + constructor; [by exists o|].
      eapply Forall_impl; [exact Hev|]. intros e.
      by apply (submitsPowerOnly_insert w node o PowerStateOff).
Qed.

(** C7 (as the code has it).  [NodeGroupDeleteNodes] on the pool goes
    through the named members in order.  Every member named before the
    first one the store does not hold is stored with desired state off and
    is otherwise as before; all other records are exactly as before.  The
    call succeeds when every named member exists, and then all of them are
    off; it fails as soon as a named member does not exist, and the members
    already turned off stay off.  With another pool id the call fails and
    hands back the world untouched. *)
Theorem delete_nodes_until_unknown (nodes : list string) (w : World) :
  (exists (r : unit + error) (w' : World),
     NodeGroupDeleteNodes defaultNodeGroupID nodes w = (r, w')
     /\ (forall n, n ∈ knownPrefix (objects w) nodes ->
                   exists o, objects w !! n = Some o
                             /\ objects w' !! n = Some (withPower PowerStateOff o))
     /\ (forall n, n ∉ knownPrefix (objects w) nodes -> objects w' !! n = objects w !! n)
     /\ ((forall n, n ∈ nodes -> is_Some (objects w !! n)) ->
         r = inl tt /\ knownPrefix (objects w) nodes = nodes)
     /\ (forall n, n ∈ nodes -> objects w !! n = None -> exists e, r = inr e))
  /\ (forall id, id <> defaultNodeGroupID ->
        NodeGroupDeleteNodes id nodes w = (inr (Errorf ("unknown node group: " +:+ id)), w)).
Proof.
  split.
  - unfold NodeGroupDeleteNodes. rewrite decide_False by (intros H; by apply H).
    destruct (deleteLoop_run nodes w) as (r & w' & evs & Heq & Hobj & Hr & _).
    unfold bind. rewrite Heq.
    exists (match r with Some e => inr e | None => inl tt end), w'.
    split; [by destruct r|]. split; [|split; [|split]].
    + intros n Hn. rewrite Hobj, decide_True by exact Hn.
      destruct (knownPrefix_known _ _ _ Hn) as [o Ho]. exists o. by rewrite Ho.
    + intros n Hn. by rewrite Hobj, decide_False.
    + intros Hall. apply knownPrefix_all in Hall.
      split; [|exact Hall]. apply Hr in Hall. by rewrite Hall.
    + intros n Hin Hnone. destruct r as [e|]; [by exists e|].
      exfalso. assert (Hall : knownPrefix (objects w) nodes = nodes) by by apply Hr.
      destruct (proj2 (knownPrefix_all _ _) Hall n Hin) as [o Ho]. congruence.
  - intros id Hid. unfold NodeGroupDeleteNodes. by rewrite decide_True.
Qed.

(** ** Who writes what *)

Lemma statusOnly_refl (req : string) (w : World) : statusOnly req w w.
Proof. split; [done|]. split; [done|]. exists []. by rewrite app_nil_r. Qed.

Lemma powerStateOnly_refl (w : World) : powerStateOnly w w.
Proof. split; [done|]. split; [done|]. exists []. by rewrite app_nil_r. Qed.

Lemma powerStateOnly_pointwise (w w' : World) (evs : list Event) :
  (forall n, objects w' !! n = objects w !! n
             \/ exists p, objects w' !! n = withPower p <$> objects w !! n) ->
  trace w' = trace w ++ evs ->
  Forall (submitsPowerOnly w) evs ->
  powerStateOnly w w'.
Proof.
  intros Hobj Htr Hev. split; [|split].
  - intros n. destruct (Hobj n) as [->|[p ->]]; [done|]. by destruct (objects w !! n).
  - intros n. destruct (Hobj n) as [->|[p ->]]; [done|]. by destruct (objects w !! n).
  - by exists evs.
Qed.

Lemma chosen_submit_power_only (from to : string) (budget : Z) (w : World) :
  Forall (submitsPowerOnly w)
    ((fun s => EvUpdate (setPowerState s to)) <$> chosen from budget (listed w)).
Proof.
  apply Forall_fmap, Forall_forall. intros s Hin.
  apply chosen_elem in Hin as [Hin _]. apply listed_stored in Hin.
  by exists (toObject s).
Qed.

Lemma Reconcile_statusOnly (env : Env) (req : string) (w : World) :
  statusOnly req w (snd (Reconcile env req w)).
Proof.
  destruct (objects w !! req) as [o|] eqn:Hget.
  - destruct (Reconcile_summary env req w o Hget) as (r & st & evs & Heq & Hev & _).
    rewrite Heq. cbn [snd]. split; [|split].
    + intros n. cbn [objects]. destruct (decide (n = req)) as [->|Hne].
      * by rewrite lookup_insert_eq, Hget.
      * by rewrite lookup_insert_ne.
    + intros n Hne. cbn [objects]. by rewrite lookup_insert_ne.
    + by exists evs.
  - unfold Reconcile, bind, Get. rewrite Hget. apply statusOnly_refl.
Qed.

Lemma NodeGroupIncreaseSize_powerStateOnly (id : string) (delta : Z) (w : World) :
  powerStateOnly w (snd (NodeGroupIncreaseSize id delta w)).
Proof.
  destruct (decide (id = defaultNodeGroupID)) as [->|Hid].
  2:{ unfold NodeGroupIncreaseSize. rewrite decide_True by exact Hid.
      apply powerStateOnly_refl. }
  destruct (Z.leb_spec delta 0) as [Hle|Hpos].
  { unfold NodeGroupIncreaseSize. rewrite decide_False by (intros H; by apply H).
    replace (delta <=? 0) with true by (symmetry; by apply Z.leb_le).
    apply powerStateOnly_refl. }
  rewrite NodeGroupIncreaseSize_run by exact Hpos. cbn [snd].
  eapply powerStateOnly_pointwise; [|reflexivity|apply chosen_submit_power_only].
  intros n. cbn [objects]. rewrite storeAll_listed. case_decide; eauto.
Qed.

Lemma NodeGroupDecreaseTargetSize_powerStateOnly (id : string) (delta : Z) (w : World) :
  powerStateOnly w (snd (NodeGroupDecreaseTargetSize id delta w)).
Proof.
  destruct (decide (id = defaultNodeGroupID)) as [->|Hid].
  2:{ unfold NodeGroupDecreaseTargetSize. rewrite decide_True by exact Hid.
      apply powerStateOnly_refl. }
  destruct (Z.leb_spec delta 0) as [Hle|Hpos].
  { unfold NodeGroupDecreaseTargetSize. rewrite decide_False by (intros H; by apply H).
    replace (delta <=? 0) with true by (symmetry; by apply Z.leb_le).
    apply powerStateOnly_refl. }
  rewrite NodeGroupDecreaseTargetSize_run by exact Hpos. cbn [snd].
  eapply powerStateOnly_pointwise; [|reflexivity|apply chosen_submit_power_only].
  intros n. cbn [objects]. rewrite storeAll_listed. case_decide; eauto.
Qed.

Lemma NodeGroupDeleteNodes_powerStateOnly (id : string) (nodes : list string) (w : World) :
  powerStateOnly w (snd (NodeGroupDeleteNodes id nodes w)).
Proof.
  destruct (decide (id = defaultNodeGroupID)) as [->|Hid].
  2:{ unfold NodeGroupDeleteNodes. rewrite decide_True by exact Hid.
      apply powerStateOnly_refl. }
  unfold NodeGroupDeleteNodes. rewrite decide_False by (intros H; by apply H).
  destruct (deleteLoop_run nodes w) as (r & w' & evs & Heq & Hobj & _ & Htr & Hev).
  unfold bind. rewrite Heq.
  replace (snd (match r with Some e => ret (inr e) | None => ret (inl tt) end w')) with w'
    by (by destruct r).
  eapply powerStateOnly_pointwise; [|exact Htr|exact Hev].
  intros n. rewrite Hobj. case_decide; eauto.
Qed.

(** C3.  [Reconcile] never changes a stored spec: all it sends to the store
    are status updates of the record it was called for, which store the
    status fields only, and it leaves every other record alone.  Each of
    the three writing adapter calls (increase size, decrease target size,
    delete nodes) never changes a stored status nor any spec field other
    than the desired power state: all it sends are plain updates, and each
    of them submits the record's stored status and control fields
    unchanged.  This holds for every input, whether the call succeeds or
    fails. *)
Theorem engine_status_adapter_power :
  (forall env req w, statusOnly req w (snd (Reconcile env req w)))
  /\ (forall id delta w, powerStateOnly w (snd (NodeGroupIncreaseSize id delta w)))
  /\ (forall id delta w, powerStateOnly w (snd (NodeGroupDecreaseTargetSize id delta w)))
  /\ (forall id nodes w, powerStateOnly w (snd (NodeGroupDeleteNodes id nodes w))).
Proof.
  split; [exact Reconcile_statusOnly|].
  split; [exact NodeGroupIncreaseSize_powerStateOnly|].
  split; [exact NodeGroupDecreaseTargetSize_powerStateOnly
         |exact NodeGroupDeleteNodes_powerStateOnly].
Qed.

(** * The controller's tests, replayed on the embedding *)

(** "should send WoL magic packet with correct parameters" and "should set
    status to booting after sending WoL packet". *)
Example test_wol_power_on :
  fst (Reconcile (Fixture.env false 10) Fixture.serverName
         (Fixture.world (Fixture.object (Fixture.wolSpec PowerStateOn) (Fixture.status ""))))
    = ({| RequeueAfter := 60 * Second |}, None)
  /\ powerCalls (snd (Reconcile (Fixture.env false 10) Fixture.serverName
                        (Fixture.world (Fixture.object (Fixture.wolSpec PowerStateOn)
                                                       (Fixture.status "")))))
     = [EvWake "00:11:22:33:44:55" 9]
  /\ phaseOf (snd (Reconcile (Fixture.env false 10) Fixture.serverName
                     (Fixture.world (Fixture.object (Fixture.wolSpec PowerStateOn)
                                                    (Fixture.status "")))))
     = Some StatusPending.
Proof. repeat split; vm_compute; reflexivity. Qed.

(** "should set status to active when server becomes reachable": five
    calls with the pinger answering yes. *)
Example test_wol_becomes_active :
  phaseOf (snd (reconcileAll
                  [Fixture.env true 10; Fixture.env true 20; Fixture.env true 30;
                   Fixture.env true 40; Fixture.env true 50]
                  Fixture.serverName
                  (Fixture.world (Fixture.object (Fixture.wolSpec PowerStateOn)
                                                 (Fixture.status "")))))
  = Some StatusActive.
Proof. vm_compute; reflexivity. Qed.

(** "should set status to failed when WoL packet fails to send". *)
Example test_wol_send_fails :
  fst (Reconcile
         {| IsReachable := fun _ => false;
            Wake := fun _ _ => Some (Errorf "network error");
            Shutdown := fun _ _ => None;
            PowerOn := fun _ _ _ => None;
            PowerOff := fun _ _ _ => None;
            Now := 10 |}
         Fixture.serverName
         (Fixture.world (Fixture.object (Fixture.wolSpec PowerStateOn) (Fixture.status ""))))
    = (noRequeue, Some (Errorf "network error"))
  /\ phaseOf (snd (Reconcile
                     {| IsReachable := fun _ => false;
                        Wake := fun _ _ => Some (Errorf "network error");
                        Shutdown := fun _ _ => None;
                        PowerOn := fun _ _ _ => None;
                        PowerOff := fun _ _ _ => None;
                        Now := 10 |}
                     Fixture.serverName
                     (Fixture.world (Fixture.object (Fixture.wolSpec PowerStateOn)
                                                    (Fixture.status "")))))
     = Some StatusFailed.
Proof. repeat split; vm_compute; reflexivity. Qed.

(** "should send SSH shutdown command" and "should set status to draining
    after sending shutdown". *)
Example test_wol_power_off :
  powerCalls (snd (Reconcile (Fixture.env true 10) Fixture.serverName
                     (Fixture.world (Fixture.object (Fixture.wolSpec PowerStateOff)
                                                    (Fixture.status StatusActive)))))
    = [EvShutdown "192.168.1.100" "admin"]
  /\ phaseOf (snd (Reconcile (Fixture.env true 10) Fixture.serverName
                     (Fixture.world (Fixture.object (Fixture.wolSpec PowerStateOff)
                                                    (Fixture.status StatusActive)))))
     = Some StatusDraining.
Proof. repeat split; vm_compute; reflexivity. Qed.

(** "should set status to offline when server is unreachable". *)
Example test_active_lost :
  powerCalls (snd (Reconcile (Fixture.env false 10) Fixture.serverName
                     (Fixture.world (Fixture.object (Fixture.wolSpec PowerStateOff)
                                                    (Fixture.status StatusActive)))))
    = []
  /\ phaseOf (snd (Reconcile (Fixture.env false 10) Fixture.serverName
                     (Fixture.world (Fixture.object (Fixture.wolSpec PowerStateOff)
                                                    (Fixture.status StatusActive)))))
     = Some StatusOffline.
Proof. repeat split; vm_compute; reflexivity. Qed.

(** "should requeue when status is booting" and "should transition from
    booting to active when reachable". *)
Example test_pending :
  fst (Reconcile (Fixture.env false 10) Fixture.serverName
         (Fixture.world (Fixture.object (Fixture.wolSpec PowerStateOn)
                                        (Fixture.status StatusPending))))
    = ({| RequeueAfter := 60 * Second |}, None)
  /\ phaseOf (snd (Reconcile (Fixture.env true 10) Fixture.serverName
                     (Fixture.world (Fixture.object (Fixture.wolSpec PowerStateOn)
                                                    (Fixture.status StatusPending)))))
     = Some StatusActive.
Proof. repeat split; vm_compute; reflexivity. Qed.

(** "should requeue when status is draining" and "should transition from
    draining to offline when unreachable". *)
Example test_draining :
  fst (Reconcile (Fixture.env true 10) Fixture.serverName
         (Fixture.world (Fixture.object (Fixture.wolSpec PowerStateOff)
                                        (Fixture.status StatusDraining))))
    = ({| RequeueAfter := 60 * Second |}, None)
  /\ phaseOf (snd (Reconcile (Fixture.env false 10) Fixture.serverName
                     (Fixture.world (Fixture.object (Fixture.wolSpec PowerStateOff)
                                                    (Fixture.status StatusDraining)))))
     = Some StatusOffline.
Proof. repeat split; vm_compute; reflexivity. Qed.

(** "When server resource does not exist: should return without error". *)
Example test_absent :
  Reconcile (Fixture.env true 10) "non-existent-server"
    (Fixture.world (Fixture.object (Fixture.wolSpec PowerStateOn) (Fixture.status "")))
  = ((noRequeue, None),
     Fixture.world (Fixture.object (Fixture.wolSpec PowerStateOn) (Fixture.status ""))).
Proof. vm_compute; reflexivity. Qed.

(** * The design document's wording, tried on concrete records *)

(** C1, the claim as worded fails: three unreachable probes on a fresh
    pending record leave it pending (with count 3), not failed. *)
Lemma threshold_after_exactly_N_counterexample :
  Fixture.status StatusPending
    = {| CurrentStatus := StatusPending; Message := "";
         FailingSince := None; FailureCount := 0 |}
  /\ Z.of_nat (length [Fixture.env false 10; Fixture.env false 70; Fixture.env false 130])
     = failureThreshold
  /\ Forall (fun env => IsReachable env "192.168.1.100" = false)
       [Fixture.env false 10; Fixture.env false 70; Fixture.env false 130]
  /\ objects (snd (reconcileAll
                     [Fixture.env false 10; Fixture.env false 70; Fixture.env false 130]
                     Fixture.serverName
                     (Fixture.world (Fixture.object (Fixture.wolSpec PowerStateOn)
                                                    (Fixture.status StatusPending)))))
       !! Fixture.serverName
     = Some (Fixture.object (Fixture.wolSpec PowerStateOn)
                            (Fixture.streak StatusPending 10 3))
  /\ CurrentStatus (Fixture.streak StatusPending 10 3) <> StatusFailed.
Proof.
  split; [reflexivity|]. split; [reflexivity|]. split; [by repeat constructor|].
  split; [vm_compute; reflexivity|discriminate].
Qed.

(** C4, the claim as worded fails: an offline record with desired state
    off, probed unreachable, gets no power call but still has one status
    update sent for it. *)
Lemma converged_offline_write_counterexample :
  writes (Fixture.world (Fixture.object (Fixture.wolSpec PowerStateOff)
                                        (Fixture.status StatusOffline))) = []
  /\ writes (snd (Reconcile (Fixture.env false 10) Fixture.serverName
                    (Fixture.world (Fixture.object (Fixture.wolSpec PowerStateOff)
                                                   (Fixture.status StatusOffline)))))
     = [EvStatusUpdate (toServer Fixture.serverName
                          (Fixture.object (Fixture.wolSpec PowerStateOff)
                                          (Fixture.status StatusOffline)))]
  /\ powerCalls (snd (Reconcile (Fixture.env false 10) Fixture.serverName
                        (Fixture.world (Fixture.object (Fixture.wolSpec PowerStateOff)
                                                       (Fixture.status StatusOffline)))))
     = [].
Proof. repeat split; vm_compute; reflexivity. Qed.

(** C7, the claim as worded fails: a call naming an existing member and
    then an unknown one fails, yet the existing member has been turned
    off. *)
Lemma delete_nodes_mutates_counterexample :
  fst (NodeGroupDeleteNodes defaultNodeGroupID ["node-b"; "node-x"] Fixture.pool)
    = inr (Wrapf "failed to get server node-x: " (NotFoundError "node-x"))
  /\ objects Fixture.pool !! "node-b"
     = Some (Fixture.object (Fixture.wolSpec PowerStateOn) (Fixture.status StatusActive))
  /\ objects (snd (NodeGroupDeleteNodes defaultNodeGroupID ["node-b"; "node-x"] Fixture.pool))
       !! "node-b"
     = Some (Fixture.object (Fixture.wolSpec PowerStateOff) (Fixture.status StatusActive)).
Proof. repeat split; vm_compute; reflexivity. Qed.

(** C8, the claim as worded fails: a first configuration error, met with
    failure count 0, already stores phase [failed].  So it is with an
    unresolved address, and so it is with credentials that are missing
    when the power-on is dispatched. *)
Lemma configuration_error_counterexample :
  (fst (Reconcile (Fixture.env false 10) Fixture.serverName
          (Fixture.world (Fixture.object Fixture.wolSpecNil (Fixture.status ""))))
     = (noRequeue, Some (Errorf "no address configured for server wol-test-server"))
   /\ objects (snd (Reconcile (Fixture.env false 10) Fixture.serverName
                      (Fixture.world (Fixture.object Fixture.wolSpecNil (Fixture.status "")))))
        !! Fixture.serverName
      = Some (Fixture.object Fixture.wolSpecNil
                {| CurrentStatus := StatusFailed;
                   Message := "No address configured for server";
                   FailingSince := None; FailureCount := 0 |}))
  /\
  (fst (Reconcile (Fixture.env false 10) Fixture.serverName
          (Fixture.world (Fixture.object Fixture.ipmiSpecNoCredentials (Fixture.status ""))))
     = (noRequeue, Some (Errorf "IPMI username and password are required"))
   /\ objects (snd (Reconcile (Fixture.env false 10) Fixture.serverName
                      (Fixture.world (Fixture.object Fixture.ipmiSpecNoCredentials
                                                     (Fixture.status "")))))
        !! Fixture.serverName
      = Some (Fixture.object Fixture.ipmiSpecNoCredentials
                {| CurrentStatus := StatusFailed;
                   Message := "Power action failed: IPMI username and password are required";
                   FailingSince := None; FailureCount := 0 |})).
Proof. repeat split; vm_compute; reflexivity. Qed.

(** * The theorems at concrete inputs *)

Lemma threshold_escalation_witness :
  objects (Fixture.world (Fixture.object (Fixture.wolSpec PowerStateOn)
                                         (Fixture.status StatusPending)))
    !! Fixture.serverName
  = Some (Fixture.object (Fixture.wolSpec PowerStateOn) (Fixture.status StatusPending))
  /\
  ((exists o',
      objects (snd (reconcileAll
                      [Fixture.env false 10; Fixture.env false 70; Fixture.env false 130]
                      Fixture.serverName
                      (Fixture.world (Fixture.object (Fixture.wolSpec PowerStateOn)
                                                     (Fixture.status StatusPending)))))
        !! Fixture.serverName = Some o'
      /\ CurrentStatus (oStatus o') = StatusPending
      /\ FailureCount (oStatus o') = failureThreshold)
   /\
   (forall (env : Env) (later : list Env),
      exists o',
        objects (snd (reconcileAll
                        ([Fixture.env false 10; Fixture.env false 70; Fixture.env false 130]
                         ++ env :: later)
                        Fixture.serverName
                        (Fixture.world (Fixture.object (Fixture.wolSpec PowerStateOn)
                                                       (Fixture.status StatusPending)))))
          !! Fixture.serverName = Some o'
        /\ CurrentStatus (oStatus o') = StatusFailed
        /\ FailureCount (oStatus o') = failureThreshold)).
Proof.
  split; [vm_compute; reflexivity|].
  apply (threshold_escalation
           [Fixture.env false 10; Fixture.env false 70; Fixture.env false 130]
           Fixture.serverName _
           (Fixture.object (Fixture.wolSpec PowerStateOn) (Fixture.status StatusPending))).
  - vm_compute; reflexivity.
  - reflexivity.
  - reflexivity.
  - reflexivity.
  - vm_compute; discriminate.
  - reflexivity.
  - repeat constructor.
Defined.

Lemma failed_is_terminal_witness :
  objects (Fixture.world (Fixture.object (Fixture.wolSpec PowerStateOn)
                                         (Fixture.status StatusFailed)))
    !! Fixture.serverName
  = Some (Fixture.object (Fixture.wolSpec PowerStateOn) (Fixture.status StatusFailed))
  /\
  (Reconcile (Fixture.env true 10) Fixture.serverName
     (Fixture.world (Fixture.object (Fixture.wolSpec PowerStateOn)
                                    (Fixture.status StatusFailed)))
   = ((noRequeue, None),
      Fixture.world (Fixture.object (Fixture.wolSpec PowerStateOn)
                                    (Fixture.status StatusFailed)))
   /\ snd (reconcileAll [Fixture.env true 70; Fixture.env false 130] Fixture.serverName
             (Fixture.world (Fixture.object (Fixture.wolSpec PowerStateOn)
                                            (Fixture.status StatusFailed))))
      = Fixture.world (Fixture.object (Fixture.wolSpec PowerStateOn)
                                      (Fixture.status StatusFailed))
   /\ Forall (fun r => r = (noRequeue, None))
        (fst (reconcileAll [Fixture.env true 70; Fixture.env false 130] Fixture.serverName
                (Fixture.world (Fixture.object (Fixture.wolSpec PowerStateOn)
                                               (Fixture.status StatusFailed)))))).
Proof.
  split; [vm_compute; reflexivity|].
  apply (failed_is_terminal _ _ _ _
           (Fixture.object (Fixture.wolSpec PowerStateOn) (Fixture.status StatusFailed))).
  - vm_compute; reflexivity.
  - reflexivity.
Defined.

Lemma converged_is_quiet_witness :
  Reconcile (Fixture.env true 10) Fixture.serverName
    (Fixture.world (Fixture.object (Fixture.wolSpec PowerStateOn)
                                   (Fixture.status StatusActive)))
  = ((noRequeue, None),
     {| objects := objects (Fixture.world (Fixture.object (Fixture.wolSpec PowerStateOn)
                                                          (Fixture.status StatusActive)));
        trace := [EvIsReachable "192.168.1.100"] |})
  /\
  Reconcile (Fixture.env false 10) Fixture.serverName
    (Fixture.world (Fixture.object (Fixture.wolSpec PowerStateOff)
                                   (Fixture.status StatusOffline)))
  = ((noRequeue, None),
     {| objects := objects (Fixture.world (Fixture.object (Fixture.wolSpec PowerStateOff)
                                                          (Fixture.status StatusOffline)));
        trace := [EvIsReachable "192.168.1.100";
                  EvStatusUpdate (toServer Fixture.serverName
                                    (Fixture.object (Fixture.wolSpec PowerStateOff)
                                                    (Fixture.status StatusOffline)))] |}).
Proof.
  split.
  - apply (proj1 (converged_is_quiet (Fixture.env true 10) Fixture.serverName
                    (Fixture.world (Fixture.object (Fixture.wolSpec PowerStateOn)
                                                   (Fixture.status StatusActive)))
                    (Fixture.object (Fixture.wolSpec PowerStateOn)
                                    (Fixture.status StatusActive))
                    ltac:(vm_compute; reflexivity)
                    ltac:(vm_compute; reflexivity)
                    ltac:(vm_compute; discriminate)));
      reflexivity.
  - apply (proj2 (converged_is_quiet (Fixture.env false 10) Fixture.serverName
                    (Fixture.world (Fixture.object (Fixture.wolSpec PowerStateOff)
                                                   (Fixture.status StatusOffline)))
                    (Fixture.object (Fixture.wolSpec PowerStateOff)
                                    (Fixture.status StatusOffline))
                    ltac:(vm_compute; reflexivity)
                    ltac:(vm_compute; reflexivity)
                    ltac:(vm_compute; discriminate)));
      reflexivity.
Defined.

Lemma increase_shortfall_witness :
  0 < 3 /\ countPower PowerStateOff Fixture.pool < 3 /\
  exists (e : error) (w' : World),
    NodeGroupIncreaseSize defaultNodeGroupID 3 Fixture.pool = (inr e, w')
    /\ (forall n o, objects Fixture.pool !! n = Some o ->
                    PowerState (oSpec o) = PowerStateOff ->
                    objects w' !! n = Some (withPower PowerStateOn o))
    /\ (forall n o, objects Fixture.pool !! n = Some o ->
                    PowerState (oSpec o) <> PowerStateOff ->
                    objects w' !! n = Some o)
    /\ (forall n, objects Fixture.pool !! n = None -> objects w' !! n = None)
    /\ Z.of_nat (length (writes w')) =
       Z.of_nat (length (writes Fixture.pool)) + countPower PowerStateOff Fixture.pool.
Proof.
  split; [lia|]. split; [vm_compute; reflexivity|].
  apply (increase_shortfall 3 Fixture.pool); [lia|vm_compute; reflexivity].
Defined.

Lemma decrease_turns_min_witness :
  0 < 5 /\
  exists (turned : list string) (w' : World),
    NodeGroupDecreaseTargetSize defaultNodeGroupID 5 Fixture.pool = (inl tt, w')
    /\ NoDup turned
    /\ Z.of_nat (length turned) = Z.min 5 (countPower PowerStateOn Fixture.pool)
    /\ (forall n, n ∈ turned ->
          exists o, objects Fixture.pool !! n = Some o
                    /\ PowerState (oSpec o) = PowerStateOn
                    /\ objects w' !! n = Some (withPower PowerStateOff o))
    /\ (forall n, n ∉ turned -> objects w' !! n = objects Fixture.pool !! n)
    /\ length (writes w') = (length (writes Fixture.pool) + length turned)%nat.
Proof.
  split; [lia|]. apply (decrease_turns_min 5 Fixture.pool); lia.
Defined.

Lemma nonpositive_delta_is_noop_witness :
  -1 <= 0 /\
  NodeGroupIncreaseSize defaultNodeGroupID (-1) Fixture.pool = (inl tt, Fixture.pool)
  /\ NodeGroupDecreaseTargetSize defaultNodeGroupID (-1) Fixture.pool = (inl tt, Fixture.pool).
Proof.
  split; [lia|]. apply (nonpositive_delta_is_noop (-1) Fixture.pool); lia.
Defined.

Lemma error_fails_at_once_witness :
  (objects (Fixture.world (Fixture.object Fixture.wolSpecNil (Fixture.status "")))
     !! Fixture.serverName
   = Some (Fixture.object Fixture.wolSpecNil (Fixture.status ""))
   /\ exists w',
        Reconcile (Fixture.env false 10) Fixture.serverName
          (Fixture.world (Fixture.object Fixture.wolSpecNil (Fixture.status "")))
        = ((noRequeue,
            Some (Errorf ("no address configured for server " +:+ Fixture.serverName))), w')
        /\ objects w' !! Fixture.serverName
           = Some (Fixture.object Fixture.wolSpecNil
                     {| CurrentStatus := StatusFailed;
                        Message := "No address configured for server";
                        FailingSince := None; FailureCount := 0 |})
        /\ powerCalls w' = [])
  /\
  (objects (Fixture.world (Fixture.object Fixture.ipmiSpecNoCredentials (Fixture.status "")))
     !! Fixture.serverName
   = Some (Fixture.object Fixture.ipmiSpecNoCredentials (Fixture.status ""))
   /\ missing PowerStateOn Fixture.ipmiSpecNoCredentials
        (Errorf "IPMI username and password are required")
   /\ exists w',
        Reconcile (Fixture.env false 10) Fixture.serverName
          (Fixture.world (Fixture.object Fixture.ipmiSpecNoCredentials (Fixture.status "")))
        = ((noRequeue, Some (Errorf "IPMI username and password are required")), w')
        /\ objects w' !! Fixture.serverName
           = Some (Fixture.object Fixture.ipmiSpecNoCredentials
                     {| CurrentStatus := StatusFailed;
                        Message :=
                          "Power action failed: IPMI username and password are required";
                        FailingSince := None; FailureCount := 0 |})
        /\ powerCalls w' = []).
Proof.
  assert (Hmissing : missing PowerStateOn Fixture.ipmiSpecNoCredentials
                       (Errorf "IPMI username and password are required")).
  { right. left. split; [reflexivity|]. right.
    split; [discriminate|]. split; [by left|reflexivity]. }
  split; (split; [vm_compute; reflexivity|]).
  - apply (proj1 (error_fails_at_once (Fixture.env false 10) Fixture.serverName
                    (Fixture.world (Fixture.object Fixture.wolSpecNil (Fixture.status "")))
                    (Fixture.object Fixture.wolSpecNil (Fixture.status ""))
                    ltac:(vm_compute; reflexivity))).
    + vm_compute; discriminate.
    + vm_compute; reflexivity.
    + vm_compute; reflexivity.
  - split; [exact Hmissing|].
    apply (proj1 (proj2 (error_fails_at_once (Fixture.env false 10) Fixture.serverName
                           (Fixture.world (Fixture.object Fixture.ipmiSpecNoCredentials
                                                          (Fixture.status "")))
                           (Fixture.object Fixture.ipmiSpecNoCredentials (Fixture.status ""))
                           ltac:(vm_compute; reflexivity)))).
    + vm_compute; discriminate.
    + vm_compute; discriminate.
    + vm_compute; discriminate.
    + vm_compute; reflexivity.
    + vm_compute; discriminate.
    + vm_compute; discriminate.
    + by left.
    + exact Hmissing.
Defined.

Lemma failure_streak_bookkeeping_witness :
  objects (Fixture.world (Fixture.object (Fixture.wolSpec PowerStateOn)
                                         (Fixture.streak StatusPending 10 2)))
    !! Fixture.serverName
  = Some (Fixture.object (Fixture.wolSpec PowerStateOn) (Fixture.streak StatusPending 10 2))
  /\
  exists o',
    objects (snd (Reconcile (Fixture.env true 130) Fixture.serverName
                    (Fixture.world (Fixture.object (Fixture.wolSpec PowerStateOn)
                                                   (Fixture.streak StatusPending 10 2)))))
      !! Fixture.serverName = Some o'
    /\ ((StatusPending = StatusPending /\ CurrentStatus (oStatus o') = StatusActive)
        \/ (StatusPending = StatusDraining /\ CurrentStatus (oStatus o') = StatusOffline) ->
        FailureCount (oStatus o') = 0 /\ FailingSince (oStatus o') = None).
Proof.
  split; [vm_compute; reflexivity|].
  destruct (failure_streak_bookkeeping (Fixture.env true 130) Fixture.serverName
              (Fixture.world (Fixture.object (Fixture.wolSpec PowerStateOn)
                                             (Fixture.streak StatusPending 10 2)))
              (Fixture.object (Fixture.wolSpec PowerStateOn)
                              (Fixture.streak StatusPending 10 2))
              ltac:(vm_compute; reflexivity)) as (o' & Hget' & Hreset & _).
  exists o'. split; [exact Hget'|exact Hreset].
Defined.

Lemma delete_nodes_until_unknown_witness :
  exists (r : unit + error) (w' : World),
    NodeGroupDeleteNodes defaultNodeGroupID ["node-b"; "node-x"; "node-a"] Fixture.pool
      = (r, w')
    /\ (exists o, objects Fixture.pool !! "node-b" = Some o
                  /\ objects w' !! "node-b" = Some (withPower PowerStateOff o))
    /\ objects w' !! "node-a" = objects Fixture.pool !! "node-a"
    /\ exists e, r = inr e.
Proof.
  destruct (proj1 (delete_nodes_until_unknown ["node-b"; "node-x"; "node-a"] Fixture.pool))
    as (r & w' & Heq & Hknown & Hother & _ & Hfail).
  assert (Hprefix : knownPrefix (objects Fixture.pool) ["node-b"; "node-x"; "node-a"]
                    = ["node-b"]) by (vm_compute; reflexivity).
  rewrite Hprefix in Hknown, Hother.
  exists r, w'. split; [exact Heq|]. split; [|split].
  - apply Hknown. by apply list_elem_of_singleton.
  - apply Hother. intros H%list_elem_of_singleton. discriminate.
  - apply (Hfail "node-x"); [|vm_compute; reflexivity].
    apply elem_of_cons. right. apply elem_of_cons. by left.
Defined.
(** * The pool's size, read and written *)

Lemma wrapInt32_small (z : Z) : - 2 ^ 31 <= z < 2 ^ 31 -> wrapInt32 z = z.
Proof. intros H. unfold wrapInt32. rewrite Z.mod_small; lia. Qed.

Lemma listed_length (w : World) : length (listed w) = size (objects w).
Proof. by rewrite listed_Permutation, length_fmap, length_map_to_list. Qed.

Lemma ListServers_listed (w : World) : ListServers w = (inl (listed w), w).
Proof. reflexivity. Qed.

Lemma targetSizeLoop_count (items : list Server) :
  forall acc : Z,
    0 <= acc -> acc + Z.of_nat (length items) < 2 ^ 31 ->
    targetSizeLoop items acc =
    acc + Z.of_nat (length (filter (fun s => PowerState (Spec s) = PowerStateOn) items)).
Proof.
  induction items as [|s rest IH]; intros acc H0 Hlt; cbn [targetSizeLoop].
  - cbn. lia.
  - rewrite filter_cons. cbn [length] in Hlt. case_decide.
    + rewrite wrapInt32_small by lia. rewrite IH by lia. cbn [length]. lia.
    + apply IH; lia.
Qed.

Lemma countPower_bounds (p : string) (w : World) :
  0 <= countPower p w <= Z.of_nat (size (objects w)).
Proof.
  unfold countPower. rewrite <- listed_length.
  pose proof (length_filter (fun s => PowerState (Spec s) = p) (listed w)). lia.
Qed.

Lemma NodeGroupTargetSize_run (w : World) :
  Z.of_nat (size (objects w)) < 2 ^ 31 ->
  NodeGroupTargetSize defaultNodeGroupID w = (inl (countPower PowerStateOn w), w).
Proof.
  intros Hsize. unfold NodeGroupTargetSize. rewrite decide_False by (by intros []).
  unfold bind. rewrite ListServers_listed. unfold ret.
  rewrite targetSizeLoop_count by (rewrite ?listed_length; lia). reflexivity.
Qed.

Lemma nodesLoop_fmap (items : list Server) :
  forall acc, nodesLoop items acc = acc ++ (instanceOf <$> items).
Proof.
  induction items as [|s rest IH]; intros acc; cbn [nodesLoop].
  - by rewrite app_nil_r.
  - rewrite IH, <- app_assoc. reflexivity.
Qed.

Lemma NodeGroupNodes_run (w : World) :
  NodeGroupNodes defaultNodeGroupID w = (inl (instanceOf <$> listed w), w).
Proof.
  unfold NodeGroupNodes. rewrite decide_False by (by intros []).
  unfold bind. rewrite ListServers_listed. unfold ret. by rewrite nodesLoop_fmap.
Qed.

Lemma running_iff_on (p : string) :
  mapPowerStateToInstanceState p = InstanceStatus_instanceRunning <-> p = PowerStateOn.
Proof.
  unfold mapPowerStateToInstanceState. repeat case_decide; split; intros; done.
Qed.

Lemma filter_fmap_length {A B} (f : A -> B) (P : B -> Prop) (Q : A -> Prop)
    `{!forall x, Decision (P x)} `{!forall x, Decision (Q x)} (l : list A) :
  (forall x, P (f x) <-> Q x) ->
  length (filter P (f <$> l)) = length (filter Q l).
Proof.
  intros HPQ. induction l as [|x l IH]; [reflexivity|].
  rewrite fmap_cons, !filter_cons.
  destruct (decide (P (f x))) as [HP|HP], (decide (Q x)) as [HQ|HQ]; cbn;
    rewrite ?IH; try done; exfalso; [apply HPQ in HP|apply HPQ in HQ]; done.
Qed.

Lemma filter_agree {A} (P Q : A -> Prop)
    `{!forall x, Decision (P x)} `{!forall x, Decision (Q x)} (l : list A) :
  (forall x, x ∈ l -> (P x <-> Q x)) -> filter P l = filter Q l.
Proof.
  induction l as [|x l IH]; intros Hag; [reflexivity|].
  rewrite !filter_cons, IH by (intros y Hy; apply Hag; by right).
  destruct (decide (P x)) as [HP|HP], (decide (Q x)) as [HQ|HQ]; try done;
    exfalso; [apply Hag in HP|apply Hag in HQ]; done || by left.
Qed.

Lemma filter_none {A} (P : A -> Prop) `{!forall x, Decision (P x)} (l : list A) :
  (forall x, x ∈ l -> ~ P x) -> filter P l = [].
Proof.
  induction l as [|x l IH]; intros Hno; [reflexivity|].
  rewrite filter_cons_False by (apply Hno; by left). apply IH. intros y Hy. apply Hno. by right.
Qed.

Lemma filter_all {A} (P : A -> Prop) `{!forall x, Decision (P x)} (l : list A) :
  (forall x, x ∈ l -> P x) -> filter P l = l.
Proof.
  induction l as [|x l IH]; intros Hyes; [reflexivity|].
  rewrite filter_cons_True by (apply Hyes; by left). f_equal. apply IH.
  intros y Hy. apply Hyes. by right.
Qed.

(** ** Counting across a write *)

Lemma countPower_objects (p : string) (w w' : World) :
  objects w' = objects w -> countPower p w' = countPower p w.
Proof. intros H. unfold countPower, listed. by rewrite H. Qed.

(** Replacing one stored object moves it from the count of its old desired
    state to the count of its new one. *)
Lemma countPower_insert (m : gmap string Object) (i : string) (o o' : Object)
    (q : string) (t t' : list Event) :
  m !! i = Some o ->
  countPower q {| objects := <[i := o']> m; trace := t |}
  + (if decide (PowerState (oSpec o) = q) then 1 else 0)
  = countPower q {| objects := m; trace := t' |}
    + (if decide (PowerState (oSpec o') = q) then 1 else 0).
Proof.
  intros Hi. unfold countPower. rewrite !listed_Permutation. cbn [objects].
  assert (Hold : map_to_list m ≡ₚ (i, o) :: map_to_list (delete i m)).
  { rewrite <- (insert_delete_id m i o) at 1 by exact Hi.
    apply map_to_list_insert, lookup_delete_eq. }
  assert (Hnew : map_to_list (<[i := o']> m) ≡ₚ (i, o') :: map_to_list (delete i m)).
  { rewrite <- insert_delete_eq. apply map_to_list_insert, lookup_delete_eq. }
  rewrite Hold, Hnew, !fmap_cons, !filter_cons. cbn [fst snd toServer Spec].
  repeat case_decide; cbn [length]; lia.
Qed.

(** The effect on the counts of turning, in place, the records of the
    distinct names [names] to the desired state [to]. *)
Lemma countPower_pointwise (to : string) (names : list string) :
  forall (m m' : gmap string Object) (t t' : list Event) (q : string),
    NoDup names ->
    (forall n, n ∈ names -> is_Some (m !! n)) ->
    (forall n, m' !! n = if decide (n ∈ names) then withPower to <$> m !! n else m !! n) ->
    countPower q {| objects := m'; trace := t' |} =
    countPower q {| objects := m; trace := t |}
    - Z.of_nat (length (filter (fun n => powerOf m n = Some q) names))
    + (if decide (to = q) then Z.of_nat (length names) else 0).
Proof.
  induction names as [|n rest IH]; intros m m' t t' q Hnd Hknown Hpt.
  - assert (m' = m) as -> by (apply map_eq; intros k; rewrite Hpt;
                                  by rewrite decide_False by apply not_elem_of_nil).
    rewrite (countPower_objects q {| objects := m; trace := t' |}
               {| objects := m; trace := t |}) by reflexivity.
    cbn. case_decide; lia.
  - apply NoDup_cons in Hnd as [Hn Hnd].
    destruct (Hknown n) as [o Ho]; [by left|].
    rewrite (IH (<[n := withPower to o]> m) m' t t' q Hnd).
    + pose proof (countPower_insert m n o (withPower to o) q t t Ho) as Hstep.
      cbn [withPower oSpec PowerState] in Hstep.
      assert (Hpo : powerOf m n = Some (PowerState (oSpec o)))
        by (unfold powerOf; by rewrite Ho).
      assert (Hrest : filter (fun k => powerOf (<[n := withPower to o]> m) k = Some q) rest
                      = filter (fun k => powerOf m k = Some q) rest).
      { apply filter_agree. intros k Hk. unfold powerOf.
        rewrite lookup_insert_ne; [done|]. intros ->. contradiction. }
      rewrite Hrest, filter_cons, Hpo. cbn [length].
      repeat case_decide; simplify_eq; cbn [length]; try lia; congruence.
    + intros k Hk. rewrite lookup_insert_ne; [apply Hknown; by right|].
      intros ->. contradiction.
    + intros k. rewrite Hpt. destruct (decide (k = n)) as [->|Hkn].
      * rewrite decide_True by (by left). rewrite decide_False by exact Hn.
        rewrite lookup_insert_eq, Ho. reflexivity.
      * rewrite lookup_insert_ne by done.
        destruct (decide (k ∈ rest)) as [Hk|Hk].
        -- rewrite decide_True by (by right). reflexivity.
        -- rewrite decide_False; [reflexivity|]. intros [?|?]%elem_of_cons; done.
Qed.

Lemma same_names_size (m m' : gmap string Object) :
  (forall n, is_Some (m' !! n) <-> is_Some (m !! n)) ->
  dom m' =@{gset string} dom m /\ size m' = size m.
Proof.
  intros H.
  assert (Hdom : dom m' =@{gset string} dom m).
  { apply set_eq. intros n. by rewrite !elem_of_dom. }
  split; [exact Hdom|]. by rewrite <- !(size_dom (D := gset string)), Hdom.
Qed.

Lemma storeAll_names (from to : string) (budget : Z) (w : World) (n : string) :
  is_Some (storeAll to (chosen from budget (listed w)) (objects w) !! n)
  <-> is_Some (objects w !! n).
Proof. rewrite storeAll_listed. case_decide; [by rewrite fmap_is_Some|done]. Qed.

(** What a scaling loop does to the counts: the turned records leave the
    count of [from] and join the count of [to]. *)
Lemma turned_counts (from to : string) (budget : Z) (w : World) (t' : list Event) :
  from <> to ->
  let turned := chosen from budget (listed w) in
  let w' := {| objects := storeAll to turned (objects w); trace := t' |} in
  countPower to w' = countPower to w + Z.of_nat (length turned)
  /\ countPower from w' = countPower from w - Z.of_nat (length turned)
  /\ size (objects w') = size (objects w).
Proof.
  intros Hne turned w'.
  assert (Hnd : NoDup (Name <$> turned)) by apply chosen_NoDup, listed_NoDup.
  assert (Hknown : forall n, n ∈ Name <$> turned -> is_Some (objects w !! n)).
  { intros n Hn. apply chosen_by_name in Hn as (o & Ho & _). by exists o. }
  assert (Hfrom : forall n, n ∈ Name <$> turned -> powerOf (objects w) n = Some from).
  { intros n Hn. apply chosen_by_name in Hn as (o & Ho & Hp & _).
    unfold powerOf. rewrite Ho. cbn. by rewrite Hp. }
  pose proof (fun q => countPower_pointwise to (Name <$> turned) (objects w)
                         (storeAll to turned (objects w)) (trace w) t' q Hnd Hknown
                         (storeAll_listed from to budget w)) as Hcount.
  assert (Hw : forall q, countPower q {| objects := objects w; trace := trace w |}
                         = countPower q w) by (intros q; by apply countPower_objects).
  split; [|split].
  - unfold w'. rewrite Hcount, Hw, decide_True by reflexivity.
    rewrite filter_none, length_fmap; [cbn; lia|].
    intros n Hn. rewrite (Hfrom n Hn). intros [=]. by subst.
  - unfold w'. rewrite Hcount, Hw, decide_False by (intros ->; by apply Hne).
    rewrite filter_all, length_fmap; [lia|].
    intros n Hn. by rewrite (Hfrom n Hn).
  - apply same_names_size. intros n. apply storeAll_names.
Qed.

Lemma NodeGroups_run (w : World) :
  NodeGroups w =
    (inl [ {| NodeGroup_Id := defaultNodeGroupID; NodeGroup_MinSize := 0;
              NodeGroup_MaxSize := wrapInt32 (Z.of_nat (size (objects w))) |} ], w).
Proof. unfold NodeGroups, bind. rewrite ListServers_listed, listed_length. reflexivity. Qed.

(** The state reported for a desired power state: running for on,
    deleting for off, unspecified for anything else. *)
Lemma instanceState_cases (powerState : string) (st : InstanceState) :
  st = mapPowerStateToInstanceState powerState
  <-> (powerState = PowerStateOn /\ st = InstanceStatus_instanceRunning)
      \/ (powerState = PowerStateOff /\ st = InstanceStatus_instanceDeleting)
      \/ (powerState <> PowerStateOn /\ powerState <> PowerStateOff
          /\ st = InstanceStatus_unspecified).
Proof.
  unfold mapPowerStateToInstanceState, PowerStateOn, PowerStateOff.
  repeat case_decide; split; intros Hst;
    repeat first [progress destruct_and? | progress destruct_or?];
    simplify_eq; try done; tauto.
Qed.

(** X1. The pool as the adapter reports it: [NodeGroups] answers one group,
    the default pool, with minimum 0 and as maximum the number of stored
    records; [NodeGroupTargetSize] answers the number of records whose
    desired power state is on, which lies between the two.  Neither call
    changes anything.  (For fewer than 2^31 records: both numbers are
    [int32].) *)
Theorem target_size_within_bounds (w : World) :
  Z.of_nat (size (objects w)) < 2 ^ 31 ->
  exists (group : NodeGroup) (target : Z),
    NodeGroups w = (inl [group], w)
    /\ NodeGroupTargetSize defaultNodeGroupID w = (inl target, w)
    /\ NodeGroup_Id group = defaultNodeGroupID
    /\ NodeGroup_MinSize group = 0
    /\ NodeGroup_MaxSize group = Z.of_nat (size (objects w))
    /\ target = countPower PowerStateOn w
    /\ NodeGroup_MinSize group <= target <= NodeGroup_MaxSize group.
Proof.
  intros Hsize. eexists _, _. rewrite NodeGroups_run, NodeGroupTargetSize_run by exact Hsize.
  pose proof (countPower_bounds PowerStateOn w).
  repeat split; cbn; rewrite ?wrapInt32_small; lia.
Qed.

(** X2. [NodeGroupNodes] for the default pool reports exactly the stored
    records, each once: an instance with id [n] and state [st] is in the
    answer if and only if a record is stored under [n] and [st] is running
    when its desired power state is on, deleting when it is off, and
    unspecified when it is anything else.  The instances reported running
    are as many as the records desired on, and the call changes nothing. *)
Theorem nodes_are_the_records (w : World) :
  exists instances : list Instance,
    NodeGroupNodes defaultNodeGroupID w = (inl instances, w)
    /\ NoDup (Instance_Id <$> instances)
    /\ length instances = size (objects w)
    /\ (forall n st,
          {| Instance_Id := n;
             Instance_Status := {| InstanceStatus_InstanceState := st |} |} ∈ instances
          <-> exists o,
                objects w !! n = Some o
                /\ ((PowerState (oSpec o) = PowerStateOn
                     /\ st = InstanceStatus_instanceRunning)
                    \/ (PowerState (oSpec o) = PowerStateOff
                        /\ st = InstanceStatus_instanceDeleting)
                    \/ (PowerState (oSpec o) <> PowerStateOn
                        /\ PowerState (oSpec o) <> PowerStateOff
                        /\ st = InstanceStatus_unspecified)))
    /\ Z.of_nat (length (filter (fun i => InstanceStatus_InstanceState (Instance_Status i)
                                          = InstanceStatus_instanceRunning) instances))
       = countPower PowerStateOn w.
Proof.
  exists (instanceOf <$> listed w). rewrite NodeGroupNodes_run.
  split; [reflexivity|]. split; [|split; [|split]].
  - rewrite <- list_fmap_compose. apply listed_NoDup.
  - by rewrite length_fmap, listed_length.
  - intros n st. rewrite list_elem_of_fmap. split.
    + intros (s & Heq & Hs). apply listed_stored in Hs.
      injection Heq as -> ->. exists (toObject s). split; [exact Hs|].
      by apply instanceState_cases.
    + intros (o & Ho & Hst). apply instanceState_cases in Hst as ->.
      exists (toServer n o). split; [reflexivity|].
      apply listed_stored. cbn. rewrite Ho. by destruct o.
  - unfold countPower. f_equal. apply filter_fmap_length.
    intros s. cbn. apply running_iff_on.
Qed.

(** X3. [NodeGroupForNode] agrees with the other two read calls: for a
    named node it answers the group [NodeGroups] lists if the name is among
    the ids [NodeGroupNodes] reports, and an empty response otherwise, never
    an error; only a request without a node is an error.  Nothing is
    changed. *)
Theorem node_group_for_node_agrees (name : string) (w : World) :
  exists (groups : list NodeGroup) (instances : list Instance),
    NodeGroups w = (inl groups, w)
    /\ NodeGroupNodes defaultNodeGroupID w = (inl instances, w)
    /\ NodeGroupForNode (Some name) w =
         (inl (if decide (name ∈ Instance_Id <$> instances) then head groups else None), w)
    /\ NodeGroupForNode None w = (inr (Errorf "node is required"), w).
Proof.
  eexists _, _. rewrite NodeGroups_run, NodeGroupNodes_run.
  split; [reflexivity|]. split; [reflexivity|]. split; [|reflexivity].
  unfold NodeGroupForNode, bind, Get, getMaxSize, bind.
  rewrite <- list_fmap_compose.
  destruct (objects w !! name) as [o|] eqn:Ho.
  - rewrite ListServers_listed, listed_length. cbn.
    rewrite decide_True; [reflexivity|].
    apply list_elem_of_fmap. exists (toServer name o). split; [reflexivity|].
    apply listed_stored. cbn. rewrite Ho. by destruct o.
  - cbn. rewrite decide_False; [reflexivity|].
    intros (s & -> & Hs)%list_elem_of_fmap. apply listed_stored in Hs.
    cbn in Ho. by rewrite Hs in Ho.
Qed.

Lemma countPower_listed (p : string) (w : World) :
  Z.of_nat (length (filter (fun s => PowerState (Spec s) = p) (listed w))) = countPower p w.
Proof. reflexivity. Qed.

Lemma NodeGroupIncreaseSize_counts (delta : Z) (w : World) :
  0 < delta ->
  let turned := Z.min delta (countPower PowerStateOff w) in
  exists w' : World,
    NodeGroupIncreaseSize defaultNodeGroupID delta w =
      (if turned <? delta
       then inr (Errorf ("could not provision enough servers: requested "
                         +:+ pretty delta +:+ ", provisioned " +:+ pretty turned))
       else inl tt, w')
    /\ countPower PowerStateOn w' = countPower PowerStateOn w + turned
    /\ countPower PowerStateOff w' = countPower PowerStateOff w - turned
    /\ size (objects w') = size (objects w).
Proof.
  intros Hdelta turned. eexists. rewrite NodeGroupIncreaseSize_run by exact Hdelta.
  pose proof (chosen_length PowerStateOff (listed w) delta) as Hlen.
  rewrite countPower_listed, Z.max_r in Hlen by lia. fold turned in Hlen.
  rewrite Hlen. split; [reflexivity|].
  destruct (turned_counts PowerStateOff PowerStateOn delta w
              (trace w ++ ((fun s => EvUpdate (setPowerState s PowerStateOn))
                             <$> chosen PowerStateOff delta (listed w))))
    as (Hon & Hoff & Hsize); [by intros [=]|].
  rewrite Hlen in Hon, Hoff. by split; [|split].
Qed.

(** X4. For a positive delta, [NodeGroupIncreaseSize] turns
    min(delta, number of records desired off) records from off to on, and
    reports success if and only if that number is delta, that is, if and
    only if at least delta records were desired off.  The count of records
    desired on rises, and the count desired off falls, by the number
    turned; no record is added or removed. *)
Theorem increase_succeeds_iff (delta : Z) (w : World) :
  0 < delta ->
  exists (r : unit + error) (w' : World),
    NodeGroupIncreaseSize defaultNodeGroupID delta w = (r, w')
    /\ (r = inl tt <-> delta <= countPower PowerStateOff w)
    /\ countPower PowerStateOn w' =
       countPower PowerStateOn w + Z.min delta (countPower PowerStateOff w)
    /\ countPower PowerStateOff w' =
       countPower PowerStateOff w - Z.min delta (countPower PowerStateOff w)
    /\ size (objects w') = size (objects w).
Proof.
  intros Hdelta.
  destruct (NodeGroupIncreaseSize_counts delta w Hdelta) as (w' & Hrun & Hon & Hoff & Hsize).
  eexists _, w'. split; [exact Hrun|]. split; [|by split; [|split]].
  pose proof (countPower_bounds PowerStateOff w).
  destruct (Z.ltb_spec (Z.min delta (countPower PowerStateOff w)) delta);
    split; intros; try done; lia.
Qed.

Lemma NodeGroupDecreaseTargetSize_counts (delta : Z) (w : World) :
  0 < delta ->
  exists w',
    NodeGroupDecreaseTargetSize defaultNodeGroupID delta w = (inl tt, w')
    /\ countPower PowerStateOn w' = Z.max 0 (countPower PowerStateOn w - delta)
    /\ countPower PowerStateOff w' =
       countPower PowerStateOff w + Z.min delta (countPower PowerStateOn w)
    /\ size (objects w') = size (objects w).
Proof.
  intros Hdelta. eexists. rewrite NodeGroupDecreaseTargetSize_run by exact Hdelta.
  split; [reflexivity|].
  pose proof (chosen_length PowerStateOn (listed w) delta) as Hlen.
  rewrite countPower_listed in Hlen.
  destruct (turned_counts PowerStateOn PowerStateOff delta w
              (trace w ++ ((fun s => EvUpdate (setPowerState s PowerStateOff))
                             <$> chosen PowerStateOn delta (listed w))))
    as (Hoff & Hon & Hsize); [by intros [=]|].
  pose proof (countPower_bounds PowerStateOn w).
  split; [|split].
  - rewrite Hon. lia.
  - rewrite Hoff. lia.
  - exact Hsize.
Qed.

(** X5. For a positive delta, [NodeGroupDecreaseTargetSize] always
    succeeds, and afterwards [NodeGroupTargetSize] answers the former
    target size less delta, but not less than 0.  (For fewer than 2^31
    records.) *)
Theorem decrease_lowers_target_size (delta : Z) (w : World) :
  Z.of_nat (size (objects w)) < 2 ^ 31 ->
  0 < delta ->
  exists (target : Z) (w' : World),
    NodeGroupTargetSize defaultNodeGroupID w = (inl target, w)
    /\ NodeGroupDecreaseTargetSize defaultNodeGroupID delta w = (inl tt, w')
    /\ NodeGroupTargetSize defaultNodeGroupID w' = (inl (Z.max 0 (target - delta)), w').
Proof.
  intros Hsize Hdelta.
  destruct (NodeGroupDecreaseTargetSize_counts delta w Hdelta) as (w' & Hrun & Hon & _ & Hsz).
  exists (countPower PowerStateOn w), w'.
  rewrite !NodeGroupTargetSize_run by (rewrite ?Hsz; exact Hsize).
  by rewrite Hon.
Qed.

(** X6. Scaling up and back down: when at least delta records are desired
    off, [NodeGroupIncreaseSize] by delta succeeds and raises the answer of
    [NodeGroupTargetSize] by delta, and a following
    [NodeGroupDecreaseTargetSize] by delta brings it back to what it was;
    [NodeGroups] answers the same throughout.  (For fewer than 2^31
    records.) *)
Theorem scale_up_then_down (delta : Z) (w : World) :
  Z.of_nat (size (objects w)) < 2 ^ 31 ->
  0 < delta ->
  delta <= countPower PowerStateOff w ->
  exists (target : Z) (w1 w2 : World),
    NodeGroupTargetSize defaultNodeGroupID w = (inl target, w)
    /\ NodeGroupIncreaseSize defaultNodeGroupID delta w = (inl tt, w1)
    /\ NodeGroupTargetSize defaultNodeGroupID w1 = (inl (target + delta), w1)
    /\ NodeGroupDecreaseTargetSize defaultNodeGroupID delta w1 = (inl tt, w2)
    /\ NodeGroupTargetSize defaultNodeGroupID w2 = (inl target, w2)
    /\ countPower PowerStateOff w2 = countPower PowerStateOff w
    /\ fst (NodeGroups w1) = fst (NodeGroups w)
    /\ fst (NodeGroups w2) = fst (NodeGroups w).
Proof.
  intros Hsize Hdelta Henough.
  destruct (NodeGroupIncreaseSize_counts delta w Hdelta)
    as (w1 & Hup & Hon1 & Hoff1 & Hsz1).
  cbn zeta in Hup, Hon1, Hoff1. rewrite Z.min_l in Hup, Hon1, Hoff1 by exact Henough.
  rewrite Z.ltb_irrefl in Hup.
  destruct (NodeGroupDecreaseTargetSize_counts delta w1 Hdelta)
    as (w2 & Hdown & Hon2 & Hoff2 & Hsz2).
  pose proof (countPower_bounds PowerStateOn w).
  exists (countPower PowerStateOn w), w1, w2.
  rewrite !NodeGroupTargetSize_run by (rewrite ?Hsz2, ?Hsz1; exact Hsize).
  rewrite !NodeGroups_run, Hsz2, Hsz1, Hon2, Hon1, Hoff2, Hon1, Hoff1.
  repeat split; try done; try (f_equal; f_equal; lia); lia.
Qed.

(** ** [NodeGroupDeleteNodes], once more *)

Lemma firstUnknown_names (m m' : gmap string Object) (nodes : list string) :
  (forall n, is_Some (m' !! n) <-> is_Some (m !! n)) ->
  firstUnknown m' nodes = firstUnknown m nodes
  /\ knownPrefix m' nodes = knownPrefix m nodes.
Proof.
  intros Hnames. induction nodes as [|n rest [IH1 IH2]]; [done|]. cbn.
  destruct (m !! n) as [o|] eqn:Ho, (m' !! n) as [o'|] eqn:Ho'.
  - by rewrite IH1, IH2.
  - destruct (proj2 (Hnames n)) as [? ?]; [by exists o|congruence].
  - destruct (proj1 (Hnames n)) as [? ?]; [by exists o'|congruence].
  - done.
Qed.

Lemma insert_names (m : gmap string Object) (n : string) (o o' : Object) :
  m !! n = Some o ->
  forall k, is_Some (<[n := o']> m !! k) <-> is_Some (m !! k).
Proof.
  intros Hn k. destruct (decide (k = n)) as [->|Hne].
  - rewrite lookup_insert_eq, Hn. split; eauto.
  - by rewrite lookup_insert_ne.
Qed.

(** The error of the loop names the first member the store does not hold. *)
Lemma deleteLoop_result (nodes : list string) :
  forall w : World,
    fst (deleteLoop nodes w) =
    (fun n => Wrapf ("failed to get server " +:+ n +:+ ": ") (NotFoundError n))
      <$> firstUnknown (objects w) nodes.
Proof.
  induction nodes as [|node rest IH]; intros w; [reflexivity|].
  cbn [deleteLoop firstUnknown]. unfold bind at 1, Get.
  destruct (objects w !! node) as [o|] eqn:Hget; [|reflexivity].
  unfold bind. rewrite (Update_stored _ _ o) by exact Hget.
  rewrite IH. cbn [objects Name Spec setPowerState toServer].
  f_equal. by apply firstUnknown_names, insert_names with o.
Qed.

Lemma NodeGroupDeleteNodes_run (nodes : list string) (w : World) :
  exists w',
    NodeGroupDeleteNodes defaultNodeGroupID nodes w =
      (match firstUnknown (objects w) nodes with
       | Some n => inr (Wrapf ("failed to get server " +:+ n +:+ ": ") (NotFoundError n))
       | None => inl tt
       end, w')
    /\ (forall n, objects w' !! n =
                  if decide (n ∈ knownPrefix (objects w) nodes)
                  then withPower PowerStateOff <$> objects w !! n
                  else objects w !! n).
Proof.
  unfold NodeGroupDeleteNodes. rewrite decide_False by (intros H; by apply H).
  destruct (deleteLoop_run nodes w) as (r & w' & evs & Heq & Hobj & _).
  pose proof (deleteLoop_result nodes w) as Hres. rewrite Heq in Hres. cbn in Hres.
  unfold bind. rewrite Heq. exists w'. split; [|exact Hobj].
  subst r. by destruct (firstUnknown (objects w) nodes).
Qed.

(** X7. [NodeGroupDeleteNodes] is idempotent: asked a second time with the
    same members, it answers what it answered the first time (success, or
    the same error) and leaves every stored record as the first call left
    it. *)
Theorem delete_nodes_idempotent (nodes : list string) (w : World) :
  exists (r : unit + error) (w1 w2 : World),
    NodeGroupDeleteNodes defaultNodeGroupID nodes w = (r, w1)
    /\ NodeGroupDeleteNodes defaultNodeGroupID nodes w1 = (r, w2)
    /\ objects w2 = objects w1.
Proof.
  destruct (NodeGroupDeleteNodes_run nodes w) as (w1 & Hrun1 & Hobj1).
  destruct (NodeGroupDeleteNodes_run nodes w1) as (w2 & Hrun2 & Hobj2).
  assert (Hnames : forall n, is_Some (objects w1 !! n) <-> is_Some (objects w !! n)).
  { intros n. rewrite Hobj1. case_decide; [by rewrite fmap_is_Some|done]. }
  destruct (firstUnknown_names _ _ nodes Hnames) as [Hfirst Hprefix].
  rewrite Hfirst in Hrun2. rewrite Hprefix in Hobj2.
  eexists _, w1, w2. split; [exact Hrun1|]. split; [exact Hrun2|].
  apply map_eq. intros n. rewrite Hobj2, Hobj1. case_decide; [|done].
  destruct (objects w !! n); by cbn.
Qed.

(** X8. What [NodeGroupDeleteNodes] answers and does to the target size:
    it succeeds when the store holds every named member, and otherwise
    returns the store's not-found error for the first member it does not
    hold, wrapped as "failed to get server <name>: ...".  Either way every
    member before that one is desired off afterwards, and the number of
    records desired on has fallen by the number of distinct such members
    that were desired on. *)
Theorem delete_nodes_lowers_target_size (nodes : list string) (w : World) :
  exists w',
    NodeGroupDeleteNodes defaultNodeGroupID nodes w =
      (match firstUnknown (objects w) nodes with
       | Some n => inr (Wrapf ("failed to get server " +:+ n +:+ ": ") (NotFoundError n))
       | None => inl tt
       end, w')
    /\ (forall n, n ∈ knownPrefix (objects w) nodes ->
                  powerOf (objects w') n = Some PowerStateOff)
    /\ countPower PowerStateOn w' =
       countPower PowerStateOn w
       - Z.of_nat (length (filter (fun n => powerOf (objects w) n = Some PowerStateOn)
                                  (remove_dups (knownPrefix (objects w) nodes))))
    /\ size (objects w') = size (objects w).
Proof.
  destruct (NodeGroupDeleteNodes_run nodes w) as (w' & Hrun & Hobj).
  exists w'. split; [exact Hrun|]. split; [|split].
  - intros n Hn. unfold powerOf. rewrite Hobj, decide_True by exact Hn.
    destruct (knownPrefix_known _ _ _ Hn) as [o Ho]. by rewrite Ho.
  - pose proof (countPower_pointwise PowerStateOff
                  (remove_dups (knownPrefix (objects w) nodes))
                  (objects w) (objects w') (trace w) (trace w') PowerStateOn) as Hcount.
    rewrite decide_False in Hcount by discriminate.
    rewrite (countPower_objects _ {| objects := objects w'; trace := trace w' |} w'),
            (countPower_objects _ {| objects := objects w; trace := trace w |} w)
      by reflexivity.
    rewrite Hcount; [lia|apply NoDup_remove_dups| |].
    + intros n Hn. rewrite elem_of_remove_dups in Hn. by apply knownPrefix_known in Hn.
    + intros n. rewrite Hobj.
      destruct (decide (n ∈ knownPrefix (objects w) nodes)) as [Hn|Hn].
      * by rewrite decide_True by by rewrite elem_of_remove_dups.
      * by rewrite decide_False by by rewrite elem_of_remove_dups.
  - apply same_names_size. intros n. rewrite Hobj.
    case_decide; [by rewrite fmap_is_Some|done].
Qed.

(** ** The inventory *)

Lemma statusOnly_names (req : string) (w w' : World) :
  statusOnly req w w' -> forall n, is_Some (objects w' !! n) <-> is_Some (objects w !! n).
Proof.
  intros (Hspec & _) n. specialize (Hspec n).
  destruct (objects w' !! n), (objects w !! n); cbn in Hspec; try done; split; eauto.
Qed.

Lemma powerStateOnly_names (w w' : World) :
  powerStateOnly w w' -> forall n, is_Some (objects w' !! n) <-> is_Some (objects w !! n).
Proof.
  intros (Hst & _) n. specialize (Hst n).
  destruct (objects w' !! n), (objects w !! n); cbn in Hst; try done; split; eauto.
Qed.

Lemma same_names_inventory (w w' : World) :
  (forall n, is_Some (objects w' !! n) <-> is_Some (objects w !! n)) ->
  sameInventory w w'.
Proof.
  intros Hnames.
  destruct (same_names_size _ _ Hnames) as [Hdom Hsize].
  split; [exact Hdom|]. split.
  - by rewrite !NodeGroups_run, Hsize.
  - intros name. unfold NodeGroupForNode, bind, Get, getMaxSize, bind.
    specialize (Hnames name).
    destruct (objects w' !! name) as [o'|], (objects w !! name) as [o|];
      rewrite ?ListServers_listed; cbn; rewrite ?listed_length, ?Hsize; try done.
    + destruct (proj1 Hnames) as [? ?]; [eauto|done].
    + destruct (proj2 Hnames) as [? ?]; [eauto|done].
Qed.

(** * What one call of [Reconcile] can do *)

Lemma currentPower_on (q : string) : currentPower q = PowerStateOn <-> q = StatusActive.
Proof. unfold currentPower. case_decide; split; intros; done. Qed.

Lemma currentPower_off (q : string) : currentPower q = PowerStateOff <-> q <> StatusActive.
Proof. unfold currentPower. case_decide; split; intros; done. Qed.

Lemma workingSpec_set (o : Object) :
  PowerState (oSpec o) <> "" -> workingSpec o = oSpec o.
Proof.
  intros Hset. unfold workingSpec. rewrite decide_False by exact Hset. by destruct (oSpec o).
Qed.

Lemma observedStored_true (p : string) (reachable : bool) :
  observedStored p reachable = true
  <-> (p = StatusActive /\ reachable = false) \/ p = StatusOffline \/ p = "".
Proof.
  unfold observedStored.
  destruct (decide (p = StatusActive)) as [->|Hact].
  - destruct reachable; cbn; split; try done; [|by left].
    intros [[_ ?]|[?|?]]; done.
  - destruct (decide (p = StatusOffline \/ p = "")) as [Hoff|Hoff]; split; try done.
    + intros _. by right.
    + intros [[? _]|?]; [done|]. by destruct Hoff.
Qed.

(** The desired power state [powerAction] decides on is the stored one
    when that is set.  When it is not set, it is off as long as the working
    copy is the defaulted one, and unset again once the switch has stored
    what it observed. *)
Lemma actingSpec_cases (o : Object) (reachable : bool) :
  (PowerState (oSpec o) <> ""
   /\ PowerState (actingSpec o reachable) = PowerState (oSpec o)
   /\ PowerState (workingSpec o) = PowerState (oSpec o))
  \/ (PowerState (oSpec o) = "" /\ PowerState (workingSpec o) = PowerStateOff
      /\ ((observedStored (CurrentStatus (oStatus o)) reachable = true
           /\ PowerState (actingSpec o reachable) = "")
          \/ (observedStored (CurrentStatus (oStatus o)) reachable = false
              /\ PowerState (actingSpec o reachable) = PowerStateOff))).
Proof.
  unfold actingSpec.
  destruct (decide (PowerState (oSpec o) = "")) as [Hunset|Hset].
  - right. split; [done|]. split; [unfold workingSpec; cbn; by rewrite decide_True|].
    destruct (observedStored _ _); [by left|right].
    split; [done|]. unfold workingSpec; cbn. by rewrite decide_True.
  - left. rewrite (workingSpec_set o Hset). split; [done|]. by destruct (observedStored _ _).
Qed.

Lemma actingSpec_set (o : Object) (reachable : bool) :
  PowerState (oSpec o) <> "" -> actingSpec o reachable = workingSpec o.
Proof.
  intros Hset. unfold actingSpec. rewrite (workingSpec_set o Hset).
  by destruct (observedStored _ _).
Qed.

Lemma actingSpec_active (o : Object) :
  CurrentStatus (oStatus o) = StatusActive -> actingSpec o true = workingSpec o.
Proof. intros Hact. unfold actingSpec, observedStored. by rewrite Hact, decide_True. Qed.

Lemma actingSpec_phases (o : Object) (reachable : bool) :
  let p := CurrentStatus (oStatus o) in
  (PowerState (oSpec o) <> ""
   /\ PowerState (actingSpec o reachable) = PowerState (oSpec o)
   /\ PowerState (workingSpec o) = PowerState (oSpec o))
  \/ (PowerState (oSpec o) = "" /\ PowerState (workingSpec o) = PowerStateOff
      /\ PowerState (actingSpec o reachable) = ""
      /\ ((p = StatusActive /\ reachable = false) \/ p = StatusOffline \/ p = ""))
  \/ (PowerState (oSpec o) = "" /\ PowerState (workingSpec o) = PowerStateOff
      /\ PowerState (actingSpec o reachable) = PowerStateOff
      /\ p <> StatusOffline /\ p <> "" /\ (p = StatusActive -> reachable = true)).
Proof.
  cbn zeta.
  destruct (actingSpec_cases o reachable)
    as [?|(Hunset & Hoff & [[Hstored Hacting]|[Hstored Hacting]])];
    [by left|right; left|right; right].
  - split_and!; try done. by apply observedStored_true.
  - assert (Hnot : ~ ((CurrentStatus (oStatus o) = StatusActive /\ reachable = false)
                      \/ CurrentStatus (oStatus o) = StatusOffline
                      \/ CurrentStatus (oStatus o) = "")).
    { intros Htrue. apply observedStored_true in Htrue. congruence. }
    split_and!; try done; try (intros ?; apply Hnot; tauto).
    intros ?. destruct reachable; [done|]. exfalso. apply Hnot. by left.
Qed.

Lemma actingSpec_on (o : Object) (reachable : bool) :
  PowerState (actingSpec o reachable) = PowerStateOn ->
  PowerState (workingSpec o) = PowerStateOn.
Proof.
  destruct (actingSpec_cases o reachable) as [(_ & -> & ->)|(_ & _ & [[_ ->]|[_ ->]])]; done.
Qed.

Lemma actingSpec_off (o : Object) (reachable : bool) :
  PowerState (actingSpec o reachable) = PowerStateOff ->
  PowerState (workingSpec o) = PowerStateOff.
Proof.
  destruct (actingSpec_cases o reachable) as [(_ & -> & ->)|(_ & -> & _)]; done.
Qed.

(** A power call is sent for a desired power state that is set, and then
    the spec [powerAction] decides on is the defaulted one. *)
Lemma warranted_acting (o : Object) (reachable : bool) (call : Event) :
  warranted (actingSpec o reachable) call -> warranted (workingSpec o) call.
Proof.
  intros Hwar. pose proof (warranted_direction _ _ Hwar) as Hdir.
  revert Hwar Hdir. unfold actingSpec. destruct (observedStored _ _); [|done].
  intros Hwar Hdir. rewrite workingSpec_set; [done|]. by destruct Hdir as [->| ->].
Qed.

(** The phase and the result [powerAction] leaves, case by case. *)
Lemma acted_digest (env : Env) (req : string) (spec : ServerSpec) (s st : ServerStatus)
    (r : Result * option error) (evs : list Event) :
  acted env req spec s st r evs ->
  (st = s /\ r = (noRequeue, None) /\ evs = []
   /\ (PowerState spec = currentPower (CurrentStatus s)
       \/ (PowerState spec <> PowerStateOn /\ PowerState spec <> PowerStateOff)))
  \/ (CurrentStatus st = StatusPending /\ PowerState spec = PowerStateOn
      /\ CurrentStatus s <> StatusActive /\ r = ({| RequeueAfter := 60 * Second |}, None))
  \/ (CurrentStatus st = StatusDraining /\ PowerState spec = PowerStateOff
      /\ CurrentStatus s = StatusActive /\ r = ({| RequeueAfter := 60 * Second |}, None))
  \/ (CurrentStatus st = StatusFailed /\ fst r = noRequeue /\ snd r <> None
      /\ PowerState spec <> currentPower (CurrentStatus s)
      /\ (PowerState spec = PowerStateOn \/ PowerState spec = PowerStateOff)).
Proof.
  intros Hact.
  inversion Hact as [Hsame | call upd st' Hdiff Hwar Hans Hst Hupd
                     | call upd e st' Hdiff Hwar Hans Hst Hupd
                     | upd e st' Hdiff Hdir Hno Hst Hupd]; subst.
  - by left.
  - right. destruct (warranted_direction _ _ Hwar) as [Hon|Hoff].
    + left. cbn. rewrite decide_True by exact Hon. repeat split; [exact Hon|].
      intros Hq. apply Hdiff. rewrite Hon. symmetry. by apply currentPower_on.
    + right. left. cbn.
      rewrite decide_False by (rewrite Hoff; discriminate). repeat split; [exact Hoff|].
      destruct (decide (CurrentStatus s = StatusActive)) as [|Hq]; [done|].
      exfalso. apply Hdiff. rewrite Hoff. symmetry. by apply currentPower_off.
  - right. right. right. split_and!; try done. by apply warranted_direction in Hwar.
  - right. right. right. by split_and!.
Qed.

Lemma observedPhase_cases (p : string) (reachable : bool) :
  (observedPhase p reachable = StatusActive /\ reachable = true
   /\ (p = StatusActive \/ p = StatusOffline \/ p = ""))
  \/ (observedPhase p reachable = StatusOffline /\ reachable = false
      /\ (p = StatusActive \/ p = StatusOffline \/ p = ""))
  \/ (observedPhase p reachable = p
      /\ p <> StatusActive /\ p <> StatusOffline /\ p <> "").
Proof.
  unfold observedPhase. case_decide as Hp.
  - destruct reachable; [left|right; left]; done.
  - right. right. split; [reflexivity|]. split_and!; intros ->; apply Hp; auto.
Qed.

(** The phase and the result one call leaves, case by case. *)
Lemma ran_digest (env : Env) (req : string) (o : Object) (st : ServerStatus)
    (r : Result * option error) (evs : list Event) :
  ran env req o st r evs ->
  let p := CurrentStatus (oStatus o) in
  let p' := CurrentStatus st in
  let reachable := IsReachable env (getServerAddress (toServer req o)) in
  (p = StatusFailed /\ st = oStatus o /\ r = (noRequeue, None))
  \/ (p <> StatusFailed /\ failureThreshold <= FailureCount (oStatus o)
      /\ p' = StatusFailed /\ r = (noRequeue, None))
  \/ (p <> StatusFailed /\ FailureCount (oStatus o) < failureThreshold
      /\ getServerAddress (toServer req o) = ""
      /\ p' = StatusFailed /\ fst r = noRequeue /\ snd r <> None)
  \/ (FailureCount (oStatus o) < failureThreshold
      /\ ((p = StatusPending /\ reachable = true /\ p' = StatusActive)
          \/ (p = StatusDraining /\ reachable = false /\ p' = StatusOffline))
      /\ r = (noRequeue, None))
  \/ (FailureCount (oStatus o) < failureThreshold
      /\ ((p = StatusPending /\ reachable = false) \/ (p = StatusDraining /\ reachable = true))
      /\ p' = p /\ r = ({| RequeueAfter := 60 * Second |}, None))
  \/ (p <> StatusFailed /\ p <> StatusPending /\ p <> StatusDraining
      /\ FailureCount (oStatus o) < failureThreshold
      /\ exists evs',
           acted env req (actingSpec o reachable)
             (withPhase (oStatus o) (observedPhase p reachable)) st r evs').
Proof.
  intros Hran.
  inversion Hran as [Hf | upd Hf Hfc Hupd | upd st' Hf Hfc Ha Hst Hupd
                     | upd st' Hfc Ha Hcase Hm Hfs Hc Hupd
                     | upd st' Hfc Ha Hcase Hst Hupd
                     | obs evs' st' r' Hf Hp Hd Hfc Ha reachable seen Hobs Hact]; subst; cbn zeta.
  - by left.
  - right. left. by repeat split.
  - right. right. left. by repeat split.
  - do 3 right. left. by repeat split.
  - do 4 right. left. by repeat split.
  - do 5 right. repeat split; try done. by exists evs'.
Qed.

(** Settle a statement about phases once the path is known. *)
Ltac settle :=
  cbn [CurrentStatus withPhase fst snd] in *;
  unfold StatusPending, StatusActive, StatusOffline, StatusDraining, StatusFailed,
         PowerStateOn, PowerStateOff, noRequeue in *;
  split_and?; intros;
  repeat first [progress destruct_and? | progress destruct_or?];
  simplify_eq; cbn [CurrentStatus withPhase fst snd] in *;
  try congruence; try lia; try tauto; try solve [intuition (congruence || lia)].

(** The cases of one call, for a statement about the phases before and
    after it. *)
Ltac by_path env req w o Hget r st evs Heq :=
  let Hran := fresh "Hran" in
  let Hact := fresh "Hact" in
  let Hq := fresh "Hq" in
  destruct (Reconcile_ran env req w o Hget) as (r & st & evs & Heq & Hran);
  apply ran_digest in Hran; cbn zeta in Hran;
  destruct Hran as [Hran|[Hran|[Hran|[Hran|[Hran|Hran]]]]];
  [ | | | | | destruct Hran as (? & ? & ? & ? & ? & Hact);
              apply acted_digest in Hact;
              pose proof (observedPhase_cases (CurrentStatus (oStatus o))
                            (IsReachable env (getServerAddress (toServer req o)))) as Hq;
              cbn [CurrentStatus withPhase] in Hact;
              destruct Hact as [Hact|[Hact|[Hact|Hact]]];
              destruct Hq as [Hq|[Hq|Hq]] ].


(** X9. The phases one call of [Reconcile] can move an existing record
    between.  A failed record stays failed.  A pending record stays pending
    or becomes active or failed; a draining record stays draining or becomes
    offline or failed; neither crosses to the other side.  A record that is
    active, offline or without a phase ends in one of the five phases, so a
    missing phase is always initialised; a record with any other phase keeps
    it or becomes pending or failed.  The phase after the call is active
    only if the probe of this call found the machine reachable, and offline
    only if it found it unreachable.  Pending is entered only towards a
    desired state on, draining only towards a desired state off and from a
    reachable machine.  Failed is entered only at the failure threshold or
    together with a returned error. *)
Theorem phase_edges (env : Env) (req : string) (w : World) (o : Object) :
  objects w !! req = Some o ->
  exists (r : Result * option error) (w' : World) (o' : Object),
    Reconcile env req w = (r, w')
    /\ objects w' !! req = Some o'
    /\ let p := CurrentStatus (oStatus o) in
       let p' := CurrentStatus (oStatus o') in
       let reachable := IsReachable env (getServerAddress (toServer req o)) in
       let desired := PowerState (workingSpec o) in
       (p = StatusFailed -> p' = StatusFailed)
       /\ (p = StatusPending ->
           p' = StatusPending \/ p' = StatusActive \/ p' = StatusFailed)
       /\ (p = StatusDraining ->
           p' = StatusDraining \/ p' = StatusOffline \/ p' = StatusFailed)
       /\ (p = StatusActive \/ p = StatusOffline \/ p = "" ->
           p' = StatusActive \/ p' = StatusOffline \/ p' = StatusPending
           \/ p' = StatusDraining \/ p' = StatusFailed)
       /\ (p' = p \/ p' = StatusPending \/ p' = StatusFailed
           \/ ((p = StatusActive \/ p = StatusOffline \/ p = StatusPending
                \/ p = StatusDraining \/ p = "")
               /\ (p' = StatusActive \/ p' = StatusOffline \/ p' = StatusDraining)))
       /\ (p' = StatusActive -> reachable = true)
       /\ (p' = StatusOffline -> reachable = false)
       /\ (p' = StatusPending -> p = StatusPending \/ desired = PowerStateOn)
       /\ (p' = StatusDraining ->
           p = StatusDraining \/ (desired = PowerStateOff /\ reachable = true))
       /\ (p' = StatusFailed ->
           p = StatusFailed \/ failureThreshold <= FailureCount (oStatus o)
           \/ snd r <> None).
Proof.
  intros Hget. by_path env req w o Hget r st evs Heq.
  all: eexists r, _, _; (split; [exact Heq|]); cbn [objects]; rewrite lookup_insert_eq;
       (split; [reflexivity|]); cbn [oStatus]; clear Heq Hget.
  all: cbn zeta; generalize dependent (IsReachable env (getServerAddress (toServer req o)));
       intros reachable; intros.
  all: pose proof (actingSpec_on o reachable); pose proof (actingSpec_off o reachable);
       generalize dependent (PowerState (actingSpec o reachable)); intros acting; intros.
  all: generalize dependent (PowerState (workingSpec o)); intros desired; intros.
  all: settle.
Qed.


(** The paths of [ran], and under [ran_observed] those of [acted]. *)
Ltac paths Hran :=
  let Hact := fresh "Hact" in
  inversion Hran as [Hf | upd Hf Hfc Hupd | upd st' Hf Hfc Ha Hst Hupd
                     | upd st' Hfc Ha Hcase Hm Hfs Hc Hupd
                     | upd st' Hfc Ha Hcase Hst Hupd
                     | obs evs' st' r' Hf Hp Hd Hfc Ha reachable seen Hobs Hact]; subst;
  [ | | | | | inversion Hact as [Hsame | call upd st'' Hdiff Hwar Hans Hst Hupd
                                 | call upd e st'' Hdiff Hwar Hans Hst Hupd
                                 | upd e st'' Hdiff Hdir Hno Hst Hupd]; subst ].

Lemma observed_quiet (p : string) (reachable : bool) :
  observedStored p reachable = false -> observedPhase p reachable = p.
Proof.
  unfold observedStored, observedPhase.
  destruct (decide (p = StatusActive)) as [->|Hact].
  - destruct reachable; [|done]. intros _. by rewrite decide_True by by left.
  - destruct (decide (p = StatusOffline \/ p = "")) as [|Hoff]; [done|].
    intros _. rewrite decide_False; [done|]. intros [?|[?|?]]; tauto.
Qed.

Lemma withPhase_same (s : ServerStatus) : withPhase s (CurrentStatus s) = s.
Proof. by destruct s. Qed.

Lemma object_eta (o : Object) : {| oSpec := oSpec o; oStatus := oStatus o |} = o.
Proof. by destruct o. Qed.

Ltac shape :=
  match goal with
  | Heq : Reconcile _ _ _ = _ |- _ => rewrite Heq
  end;
  cbn [objects trace app snd]; rewrite lookup_insert_eq;
  repeat split; auto; try done; try (cbn; lia); try (by repeat constructor);
  try (intros; by apply object_eta).

(** X11. What one call of [Reconcile] sends, and in which order.  The
    events of a call on an existing record are, in this order: at most one
    probe, to the address configured for the record's control type, which
    is not empty; at most one status update; at most one power call; at
    most one closing status update, which submits the status the record is
    stored with after the call.  Status updates are for the record the call
    was made for.  A power call is the one the record's spec is configured
    for, towards its desired power state and with no required field empty,
    and the error the call returns is the answer to it; it comes after the
    probe and is followed by the closing status update.  A call that sends
    no status update leaves the record as it was. *)
Theorem events_of_one_call (env : Env) (req : string) (w : World) (o : Object) :
  objects w !! req = Some o ->
  exists (r : Result * option error) (w' : World) (o' : Object)
         (probes firstWrite calls lastWrite : list Event),
    Reconcile env req w = (r, w')
    /\ objects w' !! req = Some o'
    /\ trace w' = trace w ++ probes ++ firstWrite ++ calls ++ lastWrite
    /\ (probes = []
        \/ (probes = [EvIsReachable (getServerAddress (toServer req o))]
            /\ getServerAddress (toServer req o) <> ""))
    /\ (length firstWrite <= 1 /\ length calls <= 1 /\ length lastWrite <= 1)%nat
    /\ Forall (fun e => exists st, submits req st e) firstWrite
    /\ Forall (fun c => warranted (workingSpec o) c /\ answer env c = snd r) calls
    /\ Forall (submits req (oStatus o')) lastWrite
    /\ (firstWrite <> [] -> probes <> [])
    /\ (calls <> [] -> probes <> [] /\ lastWrite <> [])
    /\ (firstWrite = [] -> lastWrite = [] -> o' = o).
Proof.
  intros Hget.
  destruct (Reconcile_ran env req w o Hget) as (r & st & evs & Heq & Hran).
  exists r, (snd (Reconcile env req w)), {| oSpec := oSpec o; oStatus := st |}.
  assert (Hobserved : forall obs seen,
            (if observedStored (CurrentStatus (oStatus o))
                  (IsReachable env (getServerAddress (toServer req o)))
             then exists upd, obs = [upd] /\ submits req seen upd
             else obs = []) ->
            (length obs <= 1)%nat
            /\ Forall (fun e => exists st, submits req st e) obs
            /\ (obs = [] ->
                observedPhase (CurrentStatus (oStatus o))
                  (IsReachable env (getServerAddress (toServer req o)))
                = CurrentStatus (oStatus o))).
  { intros obs seen Hobs.
    destruct (observedStored _ _) eqn:Hstored.
    - destruct Hobs as (upd & -> & Hupd). split; [done|]. split; [|done].
      repeat constructor. by exists seen.
    - subst obs. split; [cbn; lia|]. split; [constructor|].
      intros _. by apply observed_quiet. }
  paths Hran.
  all: try (destruct (Hobserved _ _ Hobs) as (Hlen & Hsub & Hquiet)).
  all: try apply warranted_acting in Hwar.
  - exists [], [], [], []. shape.
  - exists [], [], [], [upd]. shape.
  - exists [], [], [], [upd]. shape.
  - exists [EvIsReachable (getServerAddress (toServer req o))], [], [], [upd].
    shape.
  - exists [EvIsReachable (getServerAddress (toServer req o))], [], [], [upd].
    shape.
  - exists [EvIsReachable (getServerAddress (toServer req o))], obs, [], [].
    shape.
    intros Hnone _. subst seen reachable. rewrite (Hquiet Hnone), withPhase_same. apply object_eta.
  - exists [EvIsReachable (getServerAddress (toServer req o))], obs, [call], [upd].
    shape.
  - exists [EvIsReachable (getServerAddress (toServer req o))], obs, [call], [upd].
    shape.
  - exists [EvIsReachable (getServerAddress (toServer req o))], obs, [], [upd].
    shape.
Qed.

(** * Engine and adapter, interleaved *)

Lemma runCall_status (c : Call) (w : World) :
  (forall n, controlOf <$> objects (runCall c w) !! n = controlOf <$> objects w !! n)
  /\ (forall n, is_Some (objects (runCall c w) !! n) <-> is_Some (objects w !! n))
  /\ (forall n, oStatus <$> objects (runCall c w) !! n = oStatus <$> objects w !! n
                \/ exists env, c = CallReconcile env n).
Proof.
  assert (Hadapter : forall w', powerStateOnly w w' ->
            (forall n, controlOf <$> objects w' !! n = controlOf <$> objects w !! n)
            /\ (forall n, is_Some (objects w' !! n) <-> is_Some (objects w !! n))
            /\ (forall n, oStatus <$> objects w' !! n = oStatus <$> objects w !! n)).
  { intros w' Hps. split; [|split].
    - apply Hps.
    - by apply powerStateOnly_names.
    - apply Hps. }
  destruct c as [env req|id delta|id delta|id nodes]; cbn [runCall].
  - pose proof (Reconcile_statusOnly env req w) as Hso.
    split; [|split].
    + intros n. destruct Hso as (Hspec & _). specialize (Hspec n).
      destruct (objects _ !! n) as [o'|], (objects w !! n) as [o|]; cbn in *; try done.
      unfold controlOf. by injection Hspec as ->.
    + by eapply statusOnly_names.
    + intros n. destruct (decide (n = req)) as [->|Hne]; [right; by exists env|].
      left. destruct Hso as (_ & Hother & _). by rewrite Hother.
  - destruct (Hadapter _ (NodeGroupIncreaseSize_powerStateOnly id delta w)) as (? & ? & ?).
    repeat split; auto; by apply H0.
  - destruct (Hadapter _ (NodeGroupDecreaseTargetSize_powerStateOnly id delta w))
      as (? & ? & ?).
    repeat split; auto; by apply H0.
  - destruct (Hadapter _ (NodeGroupDeleteNodes_powerStateOnly id nodes w)) as (? & ? & ?).
    repeat split; auto; by apply H0.
Qed.

Lemma Reconcile_streak (env : Env) (req : string) (w : World) (o : Object) :
  objects w !! req = Some o ->
  exists o', objects (snd (Reconcile env req w)) !! req = Some o'
             /\ (streakOk (oStatus o) -> streakOk (oStatus o'))
             /\ (CurrentStatus (oStatus o) = StatusFailed -> oStatus o' = oStatus o).
Proof.
  intros Hget.
  destruct (Reconcile_summary env req w o Hget) as (r & st & evs & Heq & _ & Hout).
  exists {| oSpec := oSpec o; oStatus := st |}. rewrite Heq. cbn [snd objects oStatus].
  split; [apply lookup_insert_eq|]. split.
  - unfold streakOk, failureThreshold in *.
    inversion Hout as [Hf | Hf Hfc | Hf Hfc | newStatus Hfc Hcase | Hfc Hcase
                       | phase s' r' Hf Hp Hd Hfc Hact]; subst;
      [ | | | | | inversion Hact as [ | newStatus Hns | e]; subst ];
      cbn [FailureCount FailingSince CurrentStatus withPhase]; try done.
    unfold failureThreshold in Hfc. intros [Hrange Hnone].
    rewrite wrapInt_small by lia.
    split; [lia|]. split; [lia|]. by destruct (FailingSince (oStatus o)).
  - intros Hfailed. rewrite (Reconcile_failed env req w o Hget Hfailed) in Heq.
    injection Heq as _ Hobj. assert (Hlook := f_equal (fun w' => objects w' !! req) Hobj).
    cbn in Hlook. rewrite lookup_insert_eq, Hget in Hlook. by injection Hlook as ->.
Qed.

Lemma runCall_streak (c : Call) (w : World) :
  (forall n o, objects w !! n = Some o -> streakOk (oStatus o)) ->
  forall n o', objects (runCall c w) !! n = Some o' -> streakOk (oStatus o').
Proof.
  intros Hall n o' Hn.
  destruct (runCall_status c w) as (_ & Hnames & Hstatus).
  destruct (proj1 (Hnames n)) as [o Ho]; [by exists o'|].
  destruct (Hstatus n) as [Hsame|[env ->]].
  - rewrite Hn, Ho in Hsame. injection Hsame as ->. by apply (Hall n).
  - cbn [runCall] in Hn.
    destruct (Reconcile_streak env n w o Ho) as (o'' & Ho'' & Hkeep & _).
    rewrite Hn in Ho''. injection Ho'' as <-. apply Hkeep. by apply (Hall n).
Qed.

Lemma runCall_failed (c : Call) (w : World) (n : string) (o : Object) :
  objects w !! n = Some o ->
  CurrentStatus (oStatus o) = StatusFailed ->
  exists o', objects (runCall c w) !! n = Some o' /\ oStatus o' = oStatus o.
Proof.
  intros Ho Hfailed.
  destruct (runCall_status c w) as (_ & Hnames & Hstatus).
  destruct (proj2 (Hnames n)) as [o' Ho']; [by exists o|].
  exists o'. split; [exact Ho'|].
  destruct (Hstatus n) as [Hsame|[env ->]].
  - rewrite Ho', Ho in Hsame. by injection Hsame.
  - cbn [runCall] in Ho'.
    destruct (Reconcile_streak env n w o Ho) as (o'' & Ho'' & _ & Hkeep).
    rewrite Ho' in Ho''. injection Ho'' as <-. by apply Hkeep.
Qed.

Lemma runCalls_cons (c : Call) (calls : list Call) (w : World) :
  runCalls (c :: calls) w = runCalls calls (runCall c w).
Proof. reflexivity. Qed.

Lemma runCalls_names (calls : list Call) :
  forall (w : World) (n : string),
    is_Some (objects (runCalls calls w) !! n) <-> is_Some (objects w !! n).
Proof.
  induction calls as [|c calls IH]; intros w n; [done|].
  rewrite runCalls_cons, IH. apply runCall_status.
Qed.

(** X12. No call of the engine or of the adapter adds or removes a record:
    after any sequence of calls of [Reconcile], [NodeGroupIncreaseSize],
    [NodeGroupDecreaseTargetSize] and [NodeGroupDeleteNodes], with any
    arguments, any answers of the capabilities and any outcome, the same
    names are stored, [NodeGroups] reports the same pool with the same
    maximum size, and [NodeGroupForNode] answers the same for every
    node. *)
Theorem inventory_is_fixed (calls : list Call) (w : World) :
  sameInventory w (runCalls calls w).
Proof. apply same_names_inventory. intros n. apply runCalls_names. Qed.

(** X13. Whatever the engine and the adapter do, in any order: after any
    sequence of calls of [Reconcile], [NodeGroupIncreaseSize],
    [NodeGroupDecreaseTargetSize] and [NodeGroupDeleteNodes], with any
    arguments and any answers of the capabilities, every record has the
    control type and the control fields it had, and a record that was
    failed is failed still, with its whole status untouched. *)
Theorem configuration_and_failure_are_kept (calls : list Call) (w : World) :
  (forall n, controlOf <$> objects (runCalls calls w) !! n
             = controlOf <$> objects w !! n)
  /\ (forall n o, objects w !! n = Some o ->
                  CurrentStatus (oStatus o) = StatusFailed ->
                  exists o', objects (runCalls calls w) !! n = Some o'
                             /\ oStatus o' = oStatus o).
Proof.
  revert w. induction calls as [|c calls IH]; intros w.
  - split; [done|]. intros n o Ho _. by exists o.
  - rewrite !runCalls_cons. destruct (IH (runCall c w)) as (Hcontrol & Hfailed).
    destruct (runCall_status c w) as (Hcontrol1 & _ & _).
    split.
    + intros n. by rewrite Hcontrol, Hcontrol1.
    + intros n o Ho Hf.
      destruct (runCall_failed c w n o Ho Hf) as (o1 & Ho1 & Hst1).
      destruct (Hfailed n o1 Ho1) as (o' & Ho' & Hst'); [by rewrite Hst1|].
      exists o'. split; [exact Ho'|]. by rewrite Hst', Hst1.
Qed.

(** X14. The failure streak stays well formed.  If every stored record has
    a failure count between 0 and the threshold and a start time of the
    streak exactly when the count is not 0 (as a new record has), then the
    same holds after any sequence of calls of the engine and the adapter:
    the count never passes the threshold and never goes below 0. *)
Theorem streak_stays_well_formed (calls : list Call) (w : World) :
  (forall n o, objects w !! n = Some o -> streakOk (oStatus o)) ->
  forall n o', objects (runCalls calls w) !! n = Some o' -> streakOk (oStatus o').
Proof.
  revert w. induction calls as [|c calls IH]; intros w Hall; [exact Hall|].
  rewrite runCalls_cons. apply IH. by apply runCall_streak.
Qed.

(** * A power transition, from request to arrival *)

Lemma warranted_functional (spec : ServerSpec) (c1 c2 : Event) :
  warranted spec c1 -> warranted spec c2 -> c1 = c2.
Proof.
  unfold warranted, channel, ControlTypeWOL, ControlTypeIPMI, PowerStateOn, PowerStateOff.
  destruct c1, c2; try tauto;
    intros (H1 & H2 & c & H3 & H4) (H1' & H2' & c' & H3' & H4');
    try congruence; destruct_and?; simplify_eq; congruence.
Qed.

(** A record that is not waiting, whose observed phase disagrees with its
    desired power state, and whose spec is configured for the call [call]:
    the call is sent, and when the capability accepts it the record starts
    waiting. *)
Lemma Reconcile_sends (env : Env) (req : string) (w : World) (o : Object) (call : Event) :
  objects w !! req = Some o ->
  CurrentStatus (oStatus o) <> StatusFailed ->
  CurrentStatus (oStatus o) <> StatusPending ->
  CurrentStatus (oStatus o) <> StatusDraining ->
  FailureCount (oStatus o) < failureThreshold ->
  getServerAddress (toServer req o) <> "" ->
  actingSpec o (IsReachable env (getServerAddress (toServer req o))) = workingSpec o ->
  warranted (workingSpec o) call ->
  PowerState (workingSpec o) <>
    currentPower (observedPhase (CurrentStatus (oStatus o))
                    (IsReachable env (getServerAddress (toServer req o)))) ->
  answer env call = None ->
  exists evs,
    Reconcile env req w =
      (({| RequeueAfter := 60 * Second |}, None),
       {| objects :=
            <[req := {| oSpec := oSpec o;
                        oStatus :=
                          {| CurrentStatus :=
                               if decide (PowerState (workingSpec o) = PowerStateOn)
                               then StatusPending else StatusDraining;
                             Message := "";
                             FailingSince := FailingSince (oStatus o);
                             FailureCount := FailureCount (oStatus o) |} |}]> (objects w);
          trace := trace w ++ evs |})
    /\ List.filter isPowerCall evs = [call].
Proof.
  intros Hget Hf Hp Hd Hfc Ha Hacting Hwar Hdiff Hans.
  destruct (Reconcile_ran env req w o Hget) as (r & st & evs & Heq & Hran).
  exists evs. rewrite Heq.
  inversion Hran as [Hf' | upd Hf' Hfc' Hupd | upd st' Hf' Hfc' Ha' Hst Hupd
                     | upd st' Hfc' Ha' Hcase Hm Hfs Hc Hupd
                     | upd st' Hfc' Ha' Hcase Hst Hupd
                     | obs evs' st' r' Hf' Hp' Hd' Hfc' Ha' reachable seen Hobs Hact];
    subst; try done; try lia; try (destruct Hcase as [[? _]|[? _]]; done).
  subst reachable. rewrite Hacting in Hact.
  inversion Hact as [Hsame | call' upd st'' Hdiff' Hwar' Hans' Hst Hupd
                     | call' upd e st'' Hdiff' Hwar' Hans' Hst Hupd
                     | upd e st'' Hdiff' Hdir Hno Hst Hupd]; subst.
  - destruct Hsame as [Hsame|[Hon Hoff]]; [done|].
    destruct (warranted_direction _ _ Hwar); done.
  - rewrite (warranted_functional _ _ _ Hwar' Hwar) in *.
    split; [reflexivity|]. cbn [List.filter isPowerCall].
    rewrite List.filter_app, (observed_not_power _ _ _ _ Hobs). cbn [List.filter app].
    by rewrite (warranted_isPowerCall _ _ Hwar), (submits_not_power _ _ _ Hupd).
  - rewrite (warranted_functional _ _ _ Hwar' Hwar) in *. congruence.
  - by destruct (Hno call).
Qed.

(** A waiting record whose probe finds what it waits for: the record
    arrives, and nothing is sent but the probe and the status update. *)
Lemma Reconcile_arrives (env : Env) (req : string) (w : World) (o : Object)
    (arrived : string) :
  objects w !! req = Some o ->
  FailureCount (oStatus o) < failureThreshold ->
  getServerAddress (toServer req o) <> "" ->
  (CurrentStatus (oStatus o) = StatusPending
   /\ IsReachable env (getServerAddress (toServer req o)) = true
   /\ arrived = StatusActive)
  \/ (CurrentStatus (oStatus o) = StatusDraining
      /\ IsReachable env (getServerAddress (toServer req o)) = false
      /\ arrived = StatusOffline) ->
  exists evs,
    Reconcile env req w =
      ((noRequeue, None),
       {| objects :=
            <[req := {| oSpec := oSpec o;
                        oStatus := {| CurrentStatus := arrived; Message := "";
                                      FailingSince := None; FailureCount := 0 |} |}]>
              (objects w);
          trace := trace w ++ evs |})
    /\ List.filter isPowerCall evs = [].
Proof.
  intros Hget Hfc Ha Hwait.
  destruct (Reconcile_ran env req w o Hget) as (r & st & evs & Heq & Hran).
  exists evs. rewrite Heq.
  assert (Hp : CurrentStatus (oStatus o) = StatusPending
               \/ CurrentStatus (oStatus o) = StatusDraining) by tauto.
  inversion Hran as [Hf' | upd Hf' Hfc' Hupd | upd st' Hf' Hfc' Ha' Hst Hupd
                     | upd st' Hfc' Ha' Hcase Hm Hfs Hc Hupd
                     | upd st' Hfc' Ha' Hcase Hst Hupd
                     | obs evs' st' r' Hf' Hp' Hd' Hfc' Ha' reachable seen Hobs Hact];
    subst; try done; try lia.
  - destruct Hp as [Hp|Hp]; rewrite Hp in Hf'; discriminate.
  - destruct st as [ph msg fs fc]. cbn in Hm, Hfs, Hc, Hcase. subst.
    cbn [List.filter isPowerCall]. rewrite (submits_not_power _ _ _ Hupd).
    split; [|reflexivity]. do 4 f_equal.
    unfold StatusPending, StatusDraining in *.
    destruct Hwait as [(? & ? & ->)|(? & ? & ->)], Hcase as [(? & ? & ?)|(? & ? & ?)];
      congruence.
  - exfalso. unfold StatusPending, StatusDraining in *.
    destruct Hwait as [(? & ? & ->)|(? & ? & ->)], Hcase as [(? & ?)|(? & ?)]; congruence.
  - destruct Hp; done.
Qed.
Lemma power_cycle (env1 env2 : Env) (req : string) (w : World) (o : Object)
    (call : Event) (arrived : string) :
  objects w !! req = Some o ->
  CurrentStatus (oStatus o) <> StatusFailed ->
  CurrentStatus (oStatus o) <> StatusPending ->
  CurrentStatus (oStatus o) <> StatusDraining ->
  FailureCount (oStatus o) < failureThreshold ->
  getServerAddress (toServer req o) <> "" ->
  actingSpec o (IsReachable env1 (getServerAddress (toServer req o))) = workingSpec o ->
  warranted (workingSpec o) call ->
  PowerState (workingSpec o) <>
    currentPower (observedPhase (CurrentStatus (oStatus o))
                    (IsReachable env1 (getServerAddress (toServer req o)))) ->
  answer env1 call = None ->
  (PowerState (workingSpec o) = PowerStateOn
   /\ IsReachable env2 (getServerAddress (toServer req o)) = true
   /\ arrived = StatusActive)
  \/ (PowerState (workingSpec o) = PowerStateOff
      /\ IsReachable env2 (getServerAddress (toServer req o)) = false
      /\ arrived = StatusOffline) ->
  exists w2,
    reconcileAll [env1; env2] req w =
      ([({| RequeueAfter := 60 * Second |}, None); (noRequeue, None)], w2)
    /\ objects w2 =
         <[req := {| oSpec := oSpec o;
                     oStatus := {| CurrentStatus := arrived; Message := "";
                                   FailingSince := None; FailureCount := 0 |} |}]>
           (objects w)
    /\ powerCalls w2 = powerCalls w ++ [call].
Proof.
  intros Hget Hf Hp Hd Hfc Ha Hacting Hwar Hdiff Hans Harrive.
  destruct (Reconcile_sends env1 req w o call) as (evs1 & Heq1 & Hcalls1); try done.
  set (o1 := {| oSpec := oSpec o; oStatus := _ |}) in Heq1.
  set (w1 := {| objects := _; trace := _ |}) in Heq1.
  destruct (Reconcile_arrives env2 req w1 o1 arrived) as (evs2 & Heq2 & Hcalls2).
  { apply lookup_insert_eq. }
  { exact Hfc. }
  { exact Ha. }
  { subst o1. cbn [oStatus CurrentStatus oSpec toServer].
    change (getServerAddress {| Name := req; Spec := oSpec o; Status := _ |})
      with (getServerAddress (toServer req o)).
    destruct Harrive as [(Hon & ? & ?)|(Hoff & ? & ?)].
    - left. by rewrite decide_True by exact Hon.
    - right. by rewrite decide_False by (rewrite Hoff; discriminate). }
  eexists. cbn [reconcileAll]. unfold bind, ret. rewrite Heq1. cbv beta iota.
  rewrite Heq2. split; [reflexivity|].
  cbn [objects trace]. subst w1 o1. cbn [objects trace oSpec].
  split; [by rewrite insert_insert_eq|].
  unfold powerCalls. cbn [trace].
  by rewrite !List.filter_app, Hcalls1, Hcalls2, app_nil_r.
Qed.

(** What the observed phase stands for: off when the probe fails, on when
    it succeeds on a record that is active, offline or without a phase. *)
Lemma unreachable_stands_for_off (p : string) :
  currentPower (observedPhase p false) = PowerStateOff.
Proof.
  apply currentPower_off.
  destruct (observedPhase_cases p false) as [(_ & ? & _)|[(Hq & _)|(Hq & Hact & _)]];
    [done| |]; by rewrite Hq.
Qed.

Lemma reachable_stands_for_on (p : string) :
  p = StatusActive \/ p = StatusOffline \/ p = "" ->
  currentPower (observedPhase p true) = PowerStateOn.
Proof. intros Hp. apply currentPower_on. unfold observedPhase. by rewrite decide_True. Qed.

Lemma observed_is_not_waiting (p : string) :
  p = StatusActive \/ p = StatusOffline \/ p = "" ->
  p <> StatusFailed /\ p <> StatusPending /\ p <> StatusDraining.
Proof.
  unfold StatusActive, StatusOffline, StatusFailed, StatusPending, StatusDraining.
  intros [-> | [-> | ->]]; by split_and!.
Qed.

(** X15. Powering on, from request to arrival.  Take a record that is not
    waiting or failed, below the failure threshold, with an address, desired
    on, and configured for a power-on call (a wake-up with a MAC address, or
    an IPMI power-on with address and credentials).  If the machine does not
    answer the probe and the capability accepts the call, one call of
    [Reconcile] sends exactly that power call, stores the record pending and
    asks for a requeue; if the machine answers the probe at the next call,
    that call stores it active with the failure streak cleared and the
    message empty, sends no power call, and asks for no requeue.  No other
    record is touched. *)
Theorem power_on_cycle (env1 env2 : Env) (req : string) (w : World) (o : Object)
    (call : Event) :
  objects w !! req = Some o ->
  CurrentStatus (oStatus o) <> StatusFailed ->
  CurrentStatus (oStatus o) <> StatusPending ->
  CurrentStatus (oStatus o) <> StatusDraining ->
  FailureCount (oStatus o) < failureThreshold ->
  getServerAddress (toServer req o) <> "" ->
  PowerState (workingSpec o) = PowerStateOn ->
  warranted (workingSpec o) call ->
  IsReachable env1 (getServerAddress (toServer req o)) = false ->
  answer env1 call = None ->
  IsReachable env2 (getServerAddress (toServer req o)) = true ->
  exists w2,
    reconcileAll [env1; env2] req w =
      ([({| RequeueAfter := 60 * Second |}, None); (noRequeue, None)], w2)
    /\ objects w2 =
         <[req := {| oSpec := oSpec o;
                     oStatus := {| CurrentStatus := StatusActive; Message := "";
                                   FailingSince := None; FailureCount := 0 |} |}]>
           (objects w)
    /\ powerCalls w2 = powerCalls w ++ [call].
Proof.
  intros Hget Hf Hp Hd Hfc Ha Hon Hwar Hdown Hans Hup.
  apply power_cycle; try done; [| |left; done].
  - apply actingSpec_set. intros Hunset. revert Hon. unfold workingSpec. cbn.
    by rewrite decide_True.
  - by rewrite Hon, Hdown, unreachable_stands_for_off.
Qed.

(** X16. Powering off, from request to arrival.  Take a record that is
    active, offline or without a phase, below the failure threshold, with an
    address, desired off (or active with no desired state, which then
    counts as off), and configured for a power-off call (a shutdown over
    SSH with an address, or an IPMI power-off with address and
    credentials).  If the machine answers the probe and the capability
    accepts the call, one call of [Reconcile] sends exactly that power
    call, stores the record draining and asks for a requeue; if the machine
    no longer answers the probe at the next call, that call stores it
    offline with the failure streak cleared and the message empty, sends no
    power call, and asks for no requeue.  No other record is touched. *)
Theorem power_off_cycle (env1 env2 : Env) (req : string) (w : World) (o : Object)
    (call : Event) :
  objects w !! req = Some o ->
  CurrentStatus (oStatus o) = StatusActive \/ CurrentStatus (oStatus o) = StatusOffline
  \/ CurrentStatus (oStatus o) = "" ->
  FailureCount (oStatus o) < failureThreshold ->
  getServerAddress (toServer req o) <> "" ->
  PowerState (oSpec o) = PowerStateOff
  \/ (PowerState (oSpec o) = "" /\ CurrentStatus (oStatus o) = StatusActive) ->
  warranted (workingSpec o) call ->
  IsReachable env1 (getServerAddress (toServer req o)) = true ->
  answer env1 call = None ->
  IsReachable env2 (getServerAddress (toServer req o)) = false ->
  exists w2,
    reconcileAll [env1; env2] req w =
      ([({| RequeueAfter := 60 * Second |}, None); (noRequeue, None)], w2)
    /\ objects w2 =
         <[req := {| oSpec := oSpec o;
                     oStatus := {| CurrentStatus := StatusOffline; Message := "";
                                   FailingSince := None; FailureCount := 0 |} |}]>
           (objects w)
    /\ powerCalls w2 = powerCalls w ++ [call].
Proof.
  intros Hget Hphase Hfc Ha Hdesired Hwar Hup Hans Hdown.
  destruct (observed_is_not_waiting _ Hphase) as (Hf & Hp & Hd).
  assert (Hoff : PowerState (workingSpec o) = PowerStateOff).
  { unfold workingSpec. cbn. destruct Hdesired as [->|[-> _]]; by case_decide. }
  apply power_cycle; try done; [| |right; done].
  - rewrite Hup. destruct Hdesired as [Hset|[_ Hact]].
    + apply actingSpec_set. by rewrite Hset.
    + by apply actingSpec_active.
  - by rewrite Hoff, Hup, reachable_stands_for_on.
Qed.

(** * The magic packet *)

Lemma copyAt_length (dst : list Z) (off : nat) (src : list Z) :
  length (copyAt dst off src) = length dst.
Proof. apply length_inserts. Qed.

(** After [n] rounds of the copy loop on a packet of 102 bytes: the first
    six bytes are untouched, and each of the [n] blocks of six bytes after
    them holds the first six bytes of [mac]. *)
Lemma copy_rounds (mac packet : list Z) (n : nat) :
  (6 <= length mac)%nat -> length packet = 102%nat -> (n <= 16)%nat ->
  let packet' := foldl (fun packet i => copyAt packet (6 + i * 6) mac) packet (seq 0 n) in
  length packet' = 102%nat
  /\ (forall k, (k < 6)%nat -> packet' !! k = packet !! k)
  /\ (forall j t, (j < n)%nat -> (t < 6)%nat -> packet' !! (6 + j * 6 + t)%nat = mac !! t).
Proof.
  intros Hmac Hlen. induction n as [|n IH]; intros Hn; cbn zeta.
  - split; [exact Hlen|]. split; [done|]. intros j t Hj. lia.
  - rewrite seq_S, foldl_app. cbn [foldl Nat.add].
    destruct IH as (IHlen & IHhead & IHblocks); [lia|].
    set (p := foldl _ packet (seq 0 n)) in *.
    split; [by rewrite copyAt_length|]. split.
    + intros k Hk. unfold copyAt. rewrite list_lookup_inserts_lt by lia. by apply IHhead.
    + intros j t Hj Ht. unfold copyAt. destruct (decide (j = n)) as [->|Hne].
      * rewrite list_lookup_inserts by lia. f_equal. lia.
      * rewrite list_lookup_inserts_lt by lia. apply IHblocks; lia.
Qed.

Lemma mjoin_cons {A} (l : list A) (ls : list (list A)) : mjoin (l :: ls) = l ++ mjoin ls.
Proof. reflexivity. Qed.

Lemma length_mjoin_replicate {A} (l : list A) (n : nat) :
  length (mjoin (replicate n l)) = (n * length l)%nat.
Proof.
  induction n as [|n IH]; [reflexivity|].
  cbn [replicate]. rewrite mjoin_cons, length_app, IH. lia.
Qed.

Lemma lookup_mjoin_replicate {A} (l : list A) (n j t : nat) :
  (j < n)%nat -> (t < length l)%nat ->
  mjoin (replicate n l) !! (j * length l + t)%nat = l !! t.
Proof.
  revert j. induction n as [|n IH]; intros j Hj Ht; [lia|].
  cbn [replicate]. rewrite mjoin_cons. destruct j as [|j].
  - cbn. by rewrite lookup_app_l.
  - rewrite lookup_app_r by (cbn; lia).
    replace (S j * length l + t - length l)%nat with (j * length l + t)%nat by lia.
    apply IH; lia.
Qed.

Lemma copy_loop_length (mac : list Z) (rounds : list nat) :
  forall packet,
    length (foldl (fun packet i => copyAt packet (6 + i * 6) mac) packet rounds)
    = length packet.
Proof.
  induction rounds as [|i rounds IH]; intros packet; [reflexivity|].
  cbn [foldl]. by rewrite IH, copyAt_length.
Qed.

Lemma magicPacket_length (mac : list Z) : length (magicPacket mac) = 102%nat.
Proof. unfold magicPacket. by rewrite copy_loop_length. Qed.

Lemma magicPacket_layout (mac : list Z) :
  (6 <= length mac)%nat ->
  magicPacket mac = replicate 6 255 ++ mjoin (replicate 16 (take 6 mac)).
Proof.
  intros Hmac.
  assert (Htake : length (take 6 mac) = 6%nat) by (rewrite length_take; lia).
  assert (Hjoin : length (mjoin (replicate 16 (take 6 mac))) = 96%nat)
    by (by rewrite length_mjoin_replicate, Htake).
  destruct (copy_rounds mac
              (foldl (fun packet i => <[i:=255]> packet) (replicate 102 0) (seq 0 6)) 16)
    as (Hlen & Hhead & Hblocks); [exact Hmac|reflexivity|lia|].
  fold (magicPacket mac) in Hlen, Hhead, Hblocks.
  apply list_eq. intros i.
  destruct (decide (i < 6)%nat) as [Hi|Hi].
  - rewrite Hhead, lookup_app_l by (rewrite ?length_replicate; lia).
    rewrite lookup_replicate_2 by lia.
    do 6 (destruct i as [|i]; [reflexivity|]). lia.
  - destruct (decide (i < 102)%nat) as [Hi'|Hi'].
    + rewrite lookup_app_r by (rewrite length_replicate; lia).
      rewrite length_replicate.
      pose proof (Nat.div_mod_eq (i - 6) 6) as Hdm.
      pose proof (Nat.mod_upper_bound (i - 6) 6 ltac:(lia)) as Hmod.
      replace i with (6 + (i - 6) / 6 * 6 + (i - 6) mod 6)%nat at 1 by lia.
      rewrite Hblocks by (try apply Nat.Div0.div_lt_upper_bound; lia).
      replace (i - 6)%nat with ((i - 6) / 6 * length (take 6 mac) + (i - 6) mod 6)%nat
        at 2 by (rewrite Htake; lia).
      rewrite lookup_mjoin_replicate
        by (rewrite ?Htake; try apply Nat.Div0.div_lt_upper_bound; lia).
      by rewrite lookup_take_lt by exact Hmod.
    + rewrite !lookup_ge_None_2; [done| |rewrite Hlen; lia].
      rewrite length_app, length_replicate, Hjoin. lia.
Qed.

(** X17. The packet [Wake] builds.  Whatever the parsed address, the
    packet has 102 bytes.  For an address of at least six bytes, as
    [net.ParseMAC] returns them (6, 8 or 20 bytes), it is six bytes 0xFF
    followed by sixteen copies of the first six bytes of the address: for a
    six-byte address the magic packet of Wake-on-LAN, for a longer one the
    magic packet of its first six bytes. *)
Theorem magic_packet_layout (mac : list Z) :
  (6 <= length mac)%nat ->
  length (magicPacket mac) = 102%nat
  /\ magicPacket mac = replicate 6 255 ++ mjoin (replicate 16 (take 6 mac))
  /\ (length mac = 6%nat -> magicPacket mac = replicate 6 255 ++ mjoin (replicate 16 mac))
  /\ (forall i, (i < 6)%nat -> magicPacket mac !! i = Some 255)
  /\ (forall i, (6 <= i < 102)%nat -> magicPacket mac !! i = mac !! ((i - 6) mod 6)%nat).
Proof.
  intros Hmac. pose proof (magicPacket_layout mac Hmac) as Hlayout.
  assert (Htake : length (take 6 mac) = 6%nat) by (rewrite length_take; lia).
  split; [apply magicPacket_length|]. split; [exact Hlayout|]. split; [|split].
  - intros H6. by rewrite Hlayout, take_ge by lia.
  - intros i Hi. rewrite Hlayout, lookup_app_l by (rewrite length_replicate; lia).
    by apply lookup_replicate_2.
  - intros i Hi. rewrite Hlayout, lookup_app_r by (rewrite length_replicate; lia).
    rewrite length_replicate.
    pose proof (Nat.div_mod_eq (i - 6) 6) as Hdm.
    pose proof (Nat.mod_upper_bound (i - 6) 6 ltac:(lia)) as Hmod.
    replace (i - 6)%nat with ((i - 6) / 6 * length (take 6 mac) + (i - 6) mod 6)%nat
      at 1 by (rewrite Htake; lia).
    rewrite lookup_mjoin_replicate
      by (rewrite ?Htake; try apply Nat.Div0.div_lt_upper_bound; lia).
    by rewrite lookup_take_lt by exact Hmod.
Qed.
(** X18. What [Wake] does on the network.  If the address does not parse,
    [Wake] returns the parse error and opens no connection.  Otherwise it
    dials once, over UDP, the broadcast address and port it was given, with
    the sender's defaults in place of an empty address and of port 0; if the
    dial fails it returns that error wrapped, and writes nothing.  After a
    successful dial it writes exactly one datagram, the magic packet of the
    parsed address, and closes the connection whether or not the write
    succeeded; it returns nil exactly when parse, dial and write all
    succeeded. *)
Theorem wake_on_the_network (net : Net) (w : RealWolSender)
    (macAddress : string) (port : Z) (broadcastAddress : string) :
  let address :=
    (if decide (broadcastAddress = "") then DefaultBroadcastAddress w else broadcastAddress)
    +:+ ":" +:+ pretty (if decide (port = 0) then DefaultPort w else port) in
  let err := fst (RealWolSender_Wake net w macAddress port broadcastAddress) in
  let evs := snd (RealWolSender_Wake net w macAddress port broadcastAddress) in
  match ParseMAC net macAddress with
  | inr e => err = Some e /\ evs = []
  | inl mac =>
      (err = None <-> Dial net "udp" address = None /\ ConnWrite net (magicPacket mac) = None)
      /\ (Dial net "udp" address <> None -> evs = [NetDial "udp" address])
      /\ (Dial net "udp" address = None ->
          evs = [NetDial "udp" address; NetWrite (magicPacket mac); NetClose])
      /\ ((6 <= length mac)%nat ->
          forall b, NetWrite b ∈ evs ->
                    b = replicate 6 255 ++ mjoin (replicate 16 (take 6 mac)))
  end.
Proof.
  cbn zeta. unfold RealWolSender_Wake.
  destruct (ParseMAC net macAddress) as [mac|e]; [|done].
  set (address := _ +:+ ":" +:+ _).
  destruct (Dial net "udp" address) as [e|] eqn:Hdial.
  - cbn. split; [split; [done|by intros [? _]]|]. split; [done|]. split; [done|].
    intros _ b Hb. apply list_elem_of_singleton in Hb. done.
  - destruct (ConnWrite net (magicPacket mac)) as [e|] eqn:Hwrite; cbn;
      (split; [first [done | split; [done|by intros [_ ?]]]|]); (split; [done|]);
      (split; [done|]); intros Hmac b Hb;
      rewrite !elem_of_cons, elem_of_nil in Hb;
      destruct Hb as [?|[Hb|[?|[]]]]; try done;
      injection Hb as ->; by apply magicPacket_layout.
Qed.

(** * The pinger *)

(** X19. [IsReachable] of the real pinger makes at most three attempts and
    stops at the first that succeeds: it answers true exactly when one of
    the attempts it made succeeded, which is then the last one, and false
    only after three failed attempts.  Between two attempts it sleeps 500
    milliseconds, and it never sleeps after the last attempt. *)
Theorem pinger_retries (ping : nat -> string -> bool) (address : string) :
  exists n : nat,
    (1 <= n <= 3)%nat
    /\ snd (RealPinger_IsReachable ping address) =
         Pinged address :: mjoin (replicate (n - 1) [Slept (500 * Millisecond); Pinged address])
    /\ (forall k, (k < n - 1)%nat -> ping k address = false)
    /\ fst (RealPinger_IsReachable ping address) = ping (n - 1)%nat address
    /\ (fst (RealPinger_IsReachable ping address) = false -> n = 3%nat)
    /\ (fst (RealPinger_IsReachable ping address) = true <->
        exists k, (k < 3)%nat /\ ping k address = true).
Proof.
  unfold RealPinger_IsReachable, maxAttempts. cbn [pingLoop].
  destruct (ping 0%nat address) eqn:H0;
    [|destruct (ping 1%nat address) eqn:H1; [|destruct (ping 2%nat address) eqn:H2]].
  - exists 1%nat. cbn. rewrite H0. repeat split; try lia; try done.
    intros _. exists 0%nat. split; [lia|done].
  - exists 2%nat. cbn. rewrite H1. repeat split; try lia; try done.
    + intros k Hk. by replace k with 0%nat by lia.
    + intros _. exists 1%nat. split; [lia|done].
  - exists 3%nat. cbn. rewrite H2. repeat split; try lia; try done.
    + intros k Hk. destruct k as [|[|k]]; [done|done|lia].
    + intros _. exists 2%nat. split; [lia|done].
  - exists 3%nat. cbn. rewrite H2. repeat split; try lia; try done.
    + intros k Hk. destruct k as [|[|k]]; [done|done|lia].
    + intros (k & Hk & Hping). destruct k as [|[|[|k]]]; [congruence..|lia].
Qed.

(** * The options of the gRPC server *)

Lemma IsTLSEnabled_true (o : Options) :
  IsTLSEnabled o = true <-> CertFile o <> "" /\ KeyFile o <> "" /\ CAFile o <> "".
Proof.
  unfold IsTLSEnabled. rewrite !andb_true_iff, !bool_decide_eq_true. tauto.
Qed.

(** X20. The TLS options of the gRPC server.  [Validate] accepts the
    options exactly when the address is not empty and the certificate, key
    and CA files are either all given or all left empty.  [createGRPCServer]
    builds a server without credentials exactly when [IsTLSEnabled] is
    false, so without validation a partial TLS configuration yields an
    insecure server, and after validation only the configuration with no
    TLS file does.  When TLS is enabled the result is never an insecure
    server: it is an error (the key pair does not load, the CA file cannot
    be read, or holds no certificate) or a server whose TLS configuration
    requires and verifies client certificates, offers the loaded
    certificate, and accepts no version below TLS 1.2.  The default options
    are valid and insecure. *)
Theorem tls_options {Certificate CertPool : Type}
    (env : TLSEnv Certificate CertPool) (o : Options) :
  (Validate o = None <->
     Address o <> ""
     /\ ((CertFile o <> "" /\ KeyFile o <> "" /\ CAFile o <> "")
         \/ (CertFile o = "" /\ KeyFile o = "" /\ CAFile o = "")))
  /\ (createGRPCServer env o = inl InsecureServer <-> IsTLSEnabled o = false)
  /\ (Validate o = None -> createGRPCServer env o = inl InsecureServer ->
      CertFile o = "" /\ KeyFile o = "" /\ CAFile o = "")
  /\ (forall config, createGRPCServer env o = inl (TLSServer config) ->
        IsTLSEnabled o = true
        /\ ClientAuth config = RequireAndVerifyClientCert
        /\ MinVersion config = VersionTLS12
        /\ exists certificate,
             LoadX509KeyPair env (CertFile o) (KeyFile o) = inl certificate
             /\ Certificates config = [certificate])
  /\ Validate DefaultOptions = None
  /\ IsTLSEnabled DefaultOptions = false.
Proof.
  assert (Hvalid : Validate o = None <->
            Address o <> ""
            /\ ((CertFile o <> "" /\ KeyFile o <> "" /\ CAFile o <> "")
                \/ (CertFile o = "" /\ KeyFile o = "" /\ CAFile o = ""))).
  { unfold Validate. cbn [foldl].
    destruct (decide (Address o = "")) as [Ha|Ha]; [split; [done|tauto]|].
    destruct (decide (CertFile o <> "")), (decide (KeyFile o <> "")),
             (decide (CAFile o <> ""));
      (destruct (decide (_ /\ _)) as [Hc|Hc]; [try lia|try (exfalso; apply Hc; lia)]);
      split; try done; try tauto; intros _; split; try done;
      repeat match goal with H : ~ _ <> _ |- _ => apply dec_stable in H end; tauto. }
  assert (Hinsecure : createGRPCServer env o = inl InsecureServer <-> IsTLSEnabled o = false).
  { rewrite <- not_true_iff_false, IsTLSEnabled_true. unfold createGRPCServer.
    destruct (decide (_ \/ _)) as [Hany|Hall].
    - split; [|done]. intros _ (? & ? & ?). destruct Hany as [?|[?|?]]; done.
    - split.
      + intros Heq. exfalso.
        destruct (LoadX509KeyPair _ _ _); [|done].
        destruct (ReadFile _ _); [|done]. by destruct (AppendCertsFromPEM _ _).
      + intros Hno. exfalso. apply Hno.
        split_and!; intros Hempty; apply Hall; tauto. }
  split; [exact Hvalid|]. split; [exact Hinsecure|]. split; [|split; [|done]].
  - intros Hok Hins. apply Hvalid in Hok as [_ [Hall|Hnone]]; [|exact Hnone].
    apply Hinsecure in Hins. apply IsTLSEnabled_true in Hall. congruence.
  - intros config Heq. split.
    + apply not_false_iff_true. intros Htls. apply Hinsecure in Htls. congruence.
    + unfold createGRPCServer in Heq. case_decide; [done|].
      destruct (LoadX509KeyPair _ _ _) as [certificate|]; [|done].
      destruct (ReadFile _ _); [|done].
      destruct (AppendCertsFromPEM _ _); [|done].
      injection Heq as <-. cbn. split; [done|]. split; [done|]. by exists certificate.
Qed.

(** * From a scale-up request to an active machine *)

(** X21. From a scale-up request to an active machine.  Let at least one
    record be desired off, and let every record that is desired off be
    neither waiting nor failed, below the failure threshold, with an
    address, and configured for a power-on call.  Then
    [NodeGroupIncreaseSize] by 1 turns one of these records, [n], to on; a
    call of [Reconcile] for [n] while the machine does not answer the probe
    sends its power-on call (which the capability accepts) and stores it
    pending; and a call of [Reconcile] for [n] once the machine answers
    stores it active with a clean status.  In the end exactly that one power
    call has been sent, no other record has changed, and one more record is
    desired on. *)
Theorem scale_up_reaches_active (env1 env2 : Env) (w : World) :
  0 < countPower PowerStateOff w ->
  (forall n o, objects w !! n = Some o -> PowerState (oSpec o) = PowerStateOff ->
     CurrentStatus (oStatus o) <> StatusFailed
     /\ CurrentStatus (oStatus o) <> StatusPending
     /\ CurrentStatus (oStatus o) <> StatusDraining
     /\ FailureCount (oStatus o) < failureThreshold
     /\ getServerAddress (toServer n o) <> ""
     /\ exists call, warranted (oSpec (withPower PowerStateOn o)) call) ->
  (forall address, IsReachable env1 address = false) ->
  (forall call, answer env1 call = None) ->
  (forall address, IsReachable env2 address = true) ->
  exists (n : string) (o : Object) (call : Event),
    objects w !! n = Some o
    /\ PowerState (oSpec o) = PowerStateOff
    /\ warranted (oSpec (withPower PowerStateOn o)) call
    /\ let w' := runCalls [CallIncreaseSize defaultNodeGroupID 1;
                           CallReconcile env1 n;
                           CallReconcile env2 n] w in
       objects w' =
         <[n := {| oSpec := oSpec (withPower PowerStateOn o);
                   oStatus := {| CurrentStatus := StatusActive; Message := "";
                                 FailingSince := None; FailureCount := 0 |} |}]> (objects w)
       /\ powerCalls w' = powerCalls w ++ [call]
       /\ countPower PowerStateOn w' = countPower PowerStateOn w + 1.
Proof.
  intros Hoff Hhealthy Hdown Haccept Hup.
  pose proof (NodeGroupIncreaseSize_run 1 w ltac:(lia)) as Hrun. cbn zeta in Hrun.
  pose proof (chosen_length PowerStateOff (listed w) 1) as Hlen.
  rewrite countPower_listed in Hlen.
  destruct (chosen PowerStateOff 1 (listed w)) as [|s [|s' rest]] eqn:Hchosen;
    cbn [length] in Hlen; [lia| |lia].
  assert (Hs : s ∈ chosen PowerStateOff 1 (listed w)) by (rewrite Hchosen; by left).
  apply chosen_elem in Hs as [Hlisted Hpower]. apply listed_stored in Hlisted.
  set (n := Name s) in *. set (o := toObject s) in *.
  destruct (Hhealthy n o Hlisted Hpower) as (Hf & Hp & Hd & Hfc & Ha & call & Hwar).
  exists n, o, call. split; [exact Hlisted|]. split; [exact Hpower|]. split; [exact Hwar|].
  cbn zeta. unfold runCalls. cbn [foldl runCall]. rewrite Hrun. cbn [snd].
  cbn [fmap list_fmap]. unfold storeAll. cbn [foldl].
  change (toObject (setPowerState s PowerStateOn)) with (withPower PowerStateOn o).
  set (w1 := {| objects := _; trace := _ |}).
  destruct (power_cycle env1 env2 n w1 (withPower PowerStateOn o) call StatusActive)
    as (w2 & Hcycle & Hobj2 & Hcalls2); try done.
  { apply lookup_insert_eq. }
  { by apply actingSpec_set. }
  { by rewrite Hdown, unreachable_stands_for_off. }
  { left. by rewrite Hup. }
  pose proof (reconcileAll_cons env1 [env2] n w1) as Hsnd.
  rewrite (reconcileAll_cons env2 [] n) in Hsnd. rewrite Hcycle in Hsnd.
  cbn [snd reconcileAll ret] in Hsnd. rewrite <- Hsnd.
  split; [|split].
  - rewrite Hobj2. subst w1. cbn [objects]. by rewrite insert_insert_eq.
  - rewrite Hcalls2. subst w1. unfold powerCalls. cbn [trace].
    by rewrite List.filter_app, app_nil_r.
  - rewrite (countPower_objects _ {| objects := objects w2; trace := [] |} w2) by reflexivity.
    rewrite Hobj2. subst w1. cbn [objects]. rewrite insert_insert_eq.
    pose proof (countPower_insert (objects w) n o
                  {| oSpec := oSpec (withPower PowerStateOn o);
                     oStatus := {| CurrentStatus := StatusActive; Message := "";
                                   FailingSince := None; FailureCount := 0 |} |}
                  PowerStateOn [] (trace w) Hlisted) as Hcount.
    assert (Hpower' : PowerState (oSpec o) = PowerStateOff) by exact Hpower.
    rewrite Hpower', decide_False in Hcount by discriminate.
    rewrite (decide_True (P := PowerState (oSpec _) = PowerStateOn)) in Hcount
      by reflexivity.
    rewrite (countPower_objects _ w {| objects := objects w; trace := trace w |})
      in Hcount by reflexivity.
    fold n. lia.
Qed.

Lemma NodeGroupDeleteNodes_one (n : string) (o : Object) (w : World) :
  objects w !! n = Some o ->
  NodeGroupDeleteNodes defaultNodeGroupID [n] w =
    (inl tt,
     {| objects := <[n := withPower PowerStateOff o]> (objects w);
        trace := trace w ++ [EvUpdate (setPowerState (toServer n o) PowerStateOff)] |}).
Proof.
  intros Hn. unfold NodeGroupDeleteNodes. rewrite decide_False by (intros H; by apply H).
  cbn [deleteLoop]. unfold bind at 1 2, Get. rewrite Hn.
  unfold bind. by rewrite (Update_stored _ _ o) by exact Hn.
Qed.

(** X22. From a scale-down request to a machine that is off.  Take a
    record [n] that is active, offline or without a phase, below the failure
    threshold, with an address, and configured for a power-off call.  Then
    [NodeGroupDeleteNodes] for [n] succeeds and turns it to off; a call of
    [Reconcile] for [n] while the machine still answers the probe sends its
    power-off call (which the capability accepts) and stores it draining;
    and a call of [Reconcile] for [n] once the machine no longer answers
    stores it offline with a clean status.  In the end exactly that one
    power call has been sent and no other record has changed. *)
Theorem delete_node_reaches_offline (env1 env2 : Env) (w : World) (n : string)
    (o : Object) (call : Event) :
  objects w !! n = Some o ->
  CurrentStatus (oStatus o) = StatusActive \/ CurrentStatus (oStatus o) = StatusOffline
  \/ CurrentStatus (oStatus o) = "" ->
  FailureCount (oStatus o) < failureThreshold ->
  getServerAddress (toServer n o) <> "" ->
  warranted (oSpec (withPower PowerStateOff o)) call ->
  IsReachable env1 (getServerAddress (toServer n o)) = true ->
  answer env1 call = None ->
  IsReachable env2 (getServerAddress (toServer n o)) = false ->
  fst (NodeGroupDeleteNodes defaultNodeGroupID [n] w) = inl tt
  /\ let w' := runCalls [CallDeleteNodes defaultNodeGroupID [n];
                         CallReconcile env1 n;
                         CallReconcile env2 n] w in
     objects w' =
       <[n := {| oSpec := oSpec (withPower PowerStateOff o);
                 oStatus := {| CurrentStatus := StatusOffline; Message := "";
                               FailingSince := None; FailureCount := 0 |} |}]> (objects w)
     /\ powerCalls w' = powerCalls w ++ [call].
Proof.
  intros Hn Hphase Hfc Ha Hwar Hup Haccept Hdown.
  rewrite (NodeGroupDeleteNodes_one n o w Hn). split; [reflexivity|].
  cbn zeta. unfold runCalls. cbn [foldl runCall].
  rewrite (NodeGroupDeleteNodes_one n o w Hn). cbn [snd].
  set (w1 := {| objects := _; trace := _ |}).
  destruct (observed_is_not_waiting _ Hphase) as (Hf & Hp & Hd).
  destruct (power_cycle env1 env2 n w1 (withPower PowerStateOff o) call StatusOffline)
    as (w2 & Hcycle & Hobj2 & Hcalls2); try done.
  { apply lookup_insert_eq. }
  { by apply actingSpec_set. }
  { change (getServerAddress (toServer n (withPower PowerStateOff o)))
      with (getServerAddress (toServer n o)).
    by rewrite Hup, reachable_stands_for_on. }
  { right. done. }
  pose proof (reconcileAll_cons env1 [env2] n w1) as Hsnd.
  rewrite (reconcileAll_cons env2 [] n) in Hsnd. rewrite Hcycle in Hsnd.
  cbn [snd reconcileAll ret] in Hsnd. rewrite <- Hsnd.
  split.
  - rewrite Hobj2. subst w1. cbn [objects]. by rewrite insert_insert_eq.
  - rewrite Hcalls2. subst w1. unfold powerCalls. cbn [trace].
    by rewrite List.filter_app, app_nil_r.
Qed.

(** * When a power call is sent *)

(** X23. When a power call is sent.  One call of [Reconcile] on an
    existing record sends at most one power call, and sends one exactly
    when the record is not failed, pending or draining, is below the
    failure threshold, has an address, the desired power state the call
    decides on differs from the power state its observed phase stands for
    (on for active, off otherwise), and the spec is configured for the
    power call towards that desired state.  The call sent is then that one.
    The desired power state the call decides on is the stored one; when
    none is stored, it is off while the call has stored no observation, and
    it is unset again once the call has stored one (for a record that was
    offline or without a phase, or active and found unreachable), so that
    such a call sends no power call. *)
Theorem power_call_iff_needed (env : Env) (req : string) (w : World) (o : Object) :
  objects w !! req = Some o ->
  let p := CurrentStatus (oStatus o) in
  let reachable := IsReachable env (getServerAddress (toServer req o)) in
  let spec := actingSpec o reachable in
  exists (r : Result * option error) (w' : World) (evs : list Event),
    Reconcile env req w = (r, w')
    /\ trace w' = trace w ++ evs
    /\ (List.filter isPowerCall evs = []
        \/ exists call, List.filter isPowerCall evs = [call] /\ warranted spec call)
    /\ (List.filter isPowerCall evs <> [] <->
        p <> StatusFailed /\ p <> StatusPending /\ p <> StatusDraining
        /\ FailureCount (oStatus o) < failureThreshold
        /\ getServerAddress (toServer req o) <> ""
        /\ PowerState spec <> currentPower (observedPhase p reachable)
        /\ exists call, warranted spec call)
    /\ (PowerState (oSpec o) <> "" -> spec = oSpec o)
    /\ (PowerState (oSpec o) = "" ->
        if decide ((p = StatusActive /\ reachable = false)
                   \/ p = StatusOffline \/ p = "")
        then PowerState spec = "" /\ List.filter isPowerCall evs = []
        else PowerState spec = PowerStateOff).
Proof.
  intros Hget. cbn zeta.
  destruct (Reconcile_ran env req w o Hget) as (r & st & evs & Heq & Hran).
  exists r, (snd (Reconcile env req w)), evs. rewrite Heq. cbn [snd trace].
  split; [reflexivity|]. split; [reflexivity|].
  assert (Hmain :
            (List.filter isPowerCall evs = []
             \/ exists call,
                  List.filter isPowerCall evs = [call]
                  /\ warranted
                       (actingSpec o (IsReachable env (getServerAddress (toServer req o))))
                       call)
            /\ (List.filter isPowerCall evs <> [] <->
                CurrentStatus (oStatus o) <> StatusFailed
                /\ CurrentStatus (oStatus o) <> StatusPending
                /\ CurrentStatus (oStatus o) <> StatusDraining
                /\ FailureCount (oStatus o) < failureThreshold
                /\ getServerAddress (toServer req o) <> ""
                /\ PowerState
                     (actingSpec o (IsReachable env (getServerAddress (toServer req o))))
                   <> currentPower
                        (observedPhase (CurrentStatus (oStatus o))
                           (IsReachable env (getServerAddress (toServer req o))))
                /\ exists call,
                     warranted
                       (actingSpec o (IsReachable env (getServerAddress (toServer req o))))
                       call));
    [clear Heq|].
  2:{ destruct Hmain as [Hone Hiff]. split; [exact Hone|]. split; [exact Hiff|]. split.
      - intros Hset. rewrite actingSpec_set by exact Hset. by apply workingSpec_set.
      - intros Hunset.
        destruct (actingSpec_phases o (IsReachable env (getServerAddress (toServer req o))))
          as [(? & _)|[(_ & _ & Hacting & Hstored)|(_ & _ & Hacting & Hoff & Hnone & Hact)]];
          [done| |].
        + rewrite decide_True by exact Hstored. split; [exact Hacting|].
          destruct (List.filter isPowerCall evs) eqn:Hfilter; [done|]. exfalso.
          destruct (proj1 Hiff ltac:(done)) as (_ & _ & _ & _ & _ & _ & call & Hwar).
          apply warranted_direction in Hwar. rewrite Hacting in Hwar. by destruct Hwar.
        + rewrite decide_False; [done|]. intros [[Hp Hr]|[?|?]]; try done.
          specialize (Hact Hp). congruence. }
  assert (Hquiet : forall e : Event, isPowerCall e = false ->
            (List.filter isPowerCall [e] = []
             \/ exists call,
                  List.filter isPowerCall [e] = [call]
                  /\ warranted
                       (actingSpec o (IsReachable env (getServerAddress (toServer req o))))
                       call)
            /\ List.filter isPowerCall [e] = []).
  { intros e He. cbn. rewrite He. by split; [left|]. }
  paths Hran.
  - split; [by left|]. split; [done|]. intros (Hnf & _). done.
  - destruct (Hquiet upd (submits_not_power _ _ _ Hupd)) as [Hor Hnil].
    split; [exact Hor|]. rewrite Hnil. split; [done|]. intros (_ & _ & _ & ? & _). lia.
  - destruct (Hquiet upd (submits_not_power _ _ _ Hupd)) as [Hor Hnil].
    split; [exact Hor|]. rewrite Hnil. split; [done|]. intros (_ & _ & _ & _ & ? & _). done.
  - cbn [List.filter isPowerCall]. rewrite (submits_not_power _ _ _ Hupd).
    split; [by left|]. split; [done|]. intros (_ & ? & ? & _).
    destruct Hcase as [(? & _)|(? & _)]; done.
  - cbn [List.filter isPowerCall]. rewrite (submits_not_power _ _ _ Hupd).
    split; [by left|]. split; [done|]. intros (_ & ? & ? & _).
    destruct Hcase as [(? & _)|(? & _)]; done.
  - cbn [List.filter isPowerCall]. rewrite app_nil_r, (observed_not_power _ _ _ _ Hobs).
    split; [by left|]. split; [done|]. intros (_ & _ & _ & _ & _ & Hdiff & call & Hwar).
    destruct Hsame as [Hsame|[Hon Hoff]]; [done|].
    destruct (warranted_direction _ _ Hwar); done.
  - cbn [List.filter isPowerCall].
    rewrite List.filter_app, (observed_not_power _ _ _ _ Hobs). cbn [List.filter app].
    rewrite (warranted_isPowerCall _ _ Hwar), (submits_not_power _ _ _ Hupd).
    split; [right; by exists call|]. split; [|done]. intros _. split_and!; try done.
    by exists call.
  - cbn [List.filter isPowerCall].
    rewrite List.filter_app, (observed_not_power _ _ _ _ Hobs). cbn [List.filter app].
    rewrite (warranted_isPowerCall _ _ Hwar), (submits_not_power _ _ _ Hupd).
    split; [right; by exists call|]. split; [|done]. intros _. split_and!; try done.
    by exists call.
  - cbn [List.filter isPowerCall].
    rewrite List.filter_app, (observed_not_power _ _ _ _ Hobs). cbn [List.filter app].
    rewrite (submits_not_power _ _ _ Hupd).
    split; [by left|]. split; [done|]. intros (_ & _ & _ & _ & _ & _ & call & Hwar).
    by destruct (Hno call).
Qed.

(** * What the adapter reports while the engine runs *)

(** The counts depend on the stored specs only. *)
Lemma countPower_specs (p : string) (w w' : World) :
  oSpec <$> objects w' = oSpec <$> objects w -> countPower p w' = countPower p w.
Proof.
  assert (Hspecs : forall m : gmap string Object,
            length (filter (fun s => PowerState (Spec s) = p)
                      ((fun kv => toServer (fst kv) (snd kv)) <$> map_to_list m))
            = length (filter (fun kv : string * ServerSpec => PowerState (snd kv) = p)
                        (map_to_list (oSpec <$> m)))).
  { intros m. rewrite map_to_list_fmap.
    rewrite (filter_fmap_length (prod_map id oSpec) _
               (fun kv : string * Object => PowerState (oSpec (snd kv)) = p))
      by (by intros [n o]).
    by apply filter_fmap_length. }
  intros Heq. unfold countPower. by rewrite !listed_Permutation, !Hspecs, Heq.
Qed.

Lemma Reconcile_specs (env : Env) (req : string) (w : World) :
  oSpec <$> objects (snd (Reconcile env req w)) = oSpec <$> objects w.
Proof.
  apply map_eq. intros n. rewrite !lookup_fmap.
  by destruct (Reconcile_statusOnly env req w) as (Hspec & _).
Qed.

Lemma instances_specs (w : World) (i : Instance) :
  i ∈ instanceOf <$> listed w
  <-> exists n spec, (oSpec <$> objects w) !! n = Some spec
                     /\ i = {| Instance_Id := n;
                               Instance_Status :=
                                 {| InstanceStatus_InstanceState :=
                                      mapPowerStateToInstanceState (PowerState spec) |} |}.
Proof.
  rewrite list_elem_of_fmap. split.
  - intros (s & -> & Hs). apply listed_stored in Hs.
    exists (Name s), (Spec s). rewrite lookup_fmap, Hs. done.
  - intros (n & spec & Hn & ->). rewrite lookup_fmap in Hn.
    destruct (objects w !! n) as [o|] eqn:Ho; [|done]. injection Hn as <-.
    exists (toServer n o). split; [reflexivity|].
    apply listed_stored. cbn. rewrite Ho. by destruct o.
Qed.

(** X24. The engine does not move what the adapter reports.  Across any
    sequence of calls of [Reconcile], for any records and any answers of the
    capabilities, [NodeGroupTargetSize] answers the same number, and
    [NodeGroupNodes] reports the same instances, with the same ids and
    states.  (For fewer than 2^31 records.) *)
Theorem engine_keeps_the_pool_view (runs : list (Env * string)) (w : World) :
  Z.of_nat (size (objects w)) < 2 ^ 31 ->
  let w' := runCalls ((fun run => CallReconcile (fst run) (snd run)) <$> runs) w in
  exists (target : Z) (instances instances' : list Instance),
    NodeGroupTargetSize defaultNodeGroupID w = (inl target, w)
    /\ NodeGroupTargetSize defaultNodeGroupID w' = (inl target, w')
    /\ NodeGroupNodes defaultNodeGroupID w = (inl instances, w)
    /\ NodeGroupNodes defaultNodeGroupID w' = (inl instances', w')
    /\ length instances' = length instances
    /\ (forall i, i ∈ instances' <-> i ∈ instances).
Proof.
  intros Hsize. cbn zeta.
  assert (Hspecs : forall w0, oSpec <$> objects
                      (runCalls ((fun run => CallReconcile (fst run) (snd run)) <$> runs) w0)
                    = oSpec <$> objects w0).
  { induction runs as [|[env req] runs IH]; intros w0; [reflexivity|].
    rewrite fmap_cons, runCalls_cons. etransitivity; [apply IH|]. apply Reconcile_specs. }
  pose proof (Hspecs w) as Hw. set (w' := runCalls _ w) in *.
  assert (Hsize' : size (objects w') = size (objects w)).
  { apply same_names_size. intros n. apply runCalls_names. }
  exists (countPower PowerStateOn w), (instanceOf <$> listed w), (instanceOf <$> listed w').
  rewrite !NodeGroupTargetSize_run, !NodeGroupNodes_run by (rewrite ?Hsize'; exact Hsize).
  rewrite (countPower_specs _ w w') by exact Hw.
  split_and!; try reflexivity.
  - by rewrite !length_fmap, !listed_length.
  - intros i. by rewrite !instances_specs, Hw.
Qed.

(** * The further theorems at concrete inputs *)

Lemma target_size_within_bounds_witness :
  Z.of_nat (size (objects Fixture.pool)) < 2 ^ 31 /\
  exists (group : NodeGroup) (target : Z),
    NodeGroups Fixture.pool = (inl [group], Fixture.pool)
    /\ NodeGroupTargetSize defaultNodeGroupID Fixture.pool = (inl target, Fixture.pool)
    /\ NodeGroup_Id group = defaultNodeGroupID
    /\ NodeGroup_MinSize group = 0
    /\ NodeGroup_MaxSize group = Z.of_nat (size (objects Fixture.pool))
    /\ target = countPower PowerStateOn Fixture.pool
    /\ NodeGroup_MinSize group <= target <= NodeGroup_MaxSize group.
Proof.
  split; [vm_compute; reflexivity|].
  apply (target_size_within_bounds Fixture.pool). vm_compute. reflexivity.
Defined.

Lemma increase_succeeds_iff_witness :
  0 < 2 /\
  exists (r : unit + error) (w' : World),
    NodeGroupIncreaseSize defaultNodeGroupID 2 Fixture.pool = (r, w')
    /\ (r = inl tt <-> 2 <= countPower PowerStateOff Fixture.pool)
    /\ countPower PowerStateOn w' =
       countPower PowerStateOn Fixture.pool + Z.min 2 (countPower PowerStateOff Fixture.pool)
    /\ countPower PowerStateOff w' =
       countPower PowerStateOff Fixture.pool
       - Z.min 2 (countPower PowerStateOff Fixture.pool)
    /\ size (objects w') = size (objects Fixture.pool).
Proof.
  split; [lia|]. apply (increase_succeeds_iff 2 Fixture.pool). lia.
Defined.

Lemma decrease_lowers_target_size_witness :
  Z.of_nat (size (objects Fixture.pool)) < 2 ^ 31 /\ 0 < 1 /\
  exists (target : Z) (w' : World),
    NodeGroupTargetSize defaultNodeGroupID Fixture.pool = (inl target, Fixture.pool)
    /\ NodeGroupDecreaseTargetSize defaultNodeGroupID 1 Fixture.pool = (inl tt, w')
    /\ NodeGroupTargetSize defaultNodeGroupID w' = (inl (Z.max 0 (target - 1)), w').
Proof.
  split; [vm_compute; reflexivity|]. split; [lia|].
  apply (decrease_lowers_target_size 1 Fixture.pool); [vm_compute; reflexivity|lia].
Defined.

Lemma scale_up_then_down_witness :
  Z.of_nat (size (objects Fixture.pool)) < 2 ^ 31 /\ 0 < 2 /\
  2 <= countPower PowerStateOff Fixture.pool /\
  exists (target : Z) (w1 w2 : World),
    NodeGroupTargetSize defaultNodeGroupID Fixture.pool = (inl target, Fixture.pool)
    /\ NodeGroupIncreaseSize defaultNodeGroupID 2 Fixture.pool = (inl tt, w1)
    /\ NodeGroupTargetSize defaultNodeGroupID w1 = (inl (target + 2), w1)
    /\ NodeGroupDecreaseTargetSize defaultNodeGroupID 2 w1 = (inl tt, w2)
    /\ NodeGroupTargetSize defaultNodeGroupID w2 = (inl target, w2)
    /\ countPower PowerStateOff w2 = countPower PowerStateOff Fixture.pool
    /\ fst (NodeGroups w1) = fst (NodeGroups Fixture.pool)
    /\ fst (NodeGroups w2) = fst (NodeGroups Fixture.pool).
Proof.
  split; [vm_compute; reflexivity|]. split; [lia|].
  split; [vm_compute; discriminate|].
  apply (scale_up_then_down 2 Fixture.pool);
    [vm_compute; reflexivity|lia|vm_compute; discriminate].
Defined.

Lemma phase_edges_witness :
  objects (Fixture.world (Fixture.object (Fixture.wolSpec PowerStateOn)
                                         (Fixture.status StatusOffline)))
    !! Fixture.serverName
  = Some (Fixture.object (Fixture.wolSpec PowerStateOn) (Fixture.status StatusOffline))
  /\ exists (r : Result * option error) (w' : World) (o' : Object),
       Reconcile (Fixture.env false 10) Fixture.serverName
         (Fixture.world (Fixture.object (Fixture.wolSpec PowerStateOn)
                                        (Fixture.status StatusOffline))) = (r, w')
       /\ objects w' !! Fixture.serverName = Some o'
       /\ (CurrentStatus (oStatus o') = StatusPending ->
           StatusOffline = StatusPending
           \/ PowerState (workingSpec (Fixture.object (Fixture.wolSpec PowerStateOn)
                                                      (Fixture.status StatusOffline)))
              = PowerStateOn).
Proof.
  split; [vm_compute; reflexivity|].
  destruct (phase_edges (Fixture.env false 10) Fixture.serverName
              (Fixture.world (Fixture.object (Fixture.wolSpec PowerStateOn)
                                             (Fixture.status StatusOffline)))
              (Fixture.object (Fixture.wolSpec PowerStateOn) (Fixture.status StatusOffline))
              ltac:(vm_compute; reflexivity))
    as (r & w' & o' & Heq & Hget' & _ & _ & _ & _ & _ & _ & _ & Hpending & _).
  exists r, w', o'. split; [exact Heq|]. split; [exact Hget'|exact Hpending].
Defined.


Lemma events_of_one_call_witness :
  objects (Fixture.world (Fixture.object (Fixture.wolSpec PowerStateOn)
                                         (Fixture.status StatusOffline)))
    !! Fixture.serverName
  = Some (Fixture.object (Fixture.wolSpec PowerStateOn) (Fixture.status StatusOffline))
  /\ exists (r : Result * option error) (w' : World)
            (probes firstWrite calls lastWrite : list Event),
       Reconcile (Fixture.env false 10) Fixture.serverName
         (Fixture.world (Fixture.object (Fixture.wolSpec PowerStateOn)
                                        (Fixture.status StatusOffline))) = (r, w')
       /\ trace w' = [] ++ probes ++ firstWrite ++ calls ++ lastWrite
       /\ (length firstWrite <= 1 /\ length calls <= 1 /\ length lastWrite <= 1)%nat
       /\ (calls <> [] -> probes <> [] /\ lastWrite <> []).
Proof.
  split; [vm_compute; reflexivity|].
  destruct (events_of_one_call (Fixture.env false 10) Fixture.serverName
              (Fixture.world (Fixture.object (Fixture.wolSpec PowerStateOn)
                                             (Fixture.status StatusOffline)))
              (Fixture.object (Fixture.wolSpec PowerStateOn) (Fixture.status StatusOffline))
              ltac:(vm_compute; reflexivity))
    as (r & w' & o' & probes & firstWrite & calls & lastWrite
        & Heq & _ & Htrace & _ & Hlen & _ & _ & _ & _ & Hcall & _).
  exists r, w', probes, firstWrite, calls, lastWrite.
  split; [exact Heq|]. split; [exact Htrace|]. split; [exact Hlen|exact Hcall].
Defined.

Lemma streak_stays_well_formed_witness :
  (forall n o, objects Fixture.pool !! n = Some o -> streakOk (oStatus o))
  /\ forall n o',
       objects (runCalls [CallIncreaseSize defaultNodeGroupID 1;
                          CallReconcile (Fixture.env false 100) "node-a";
                          CallReconcile (Fixture.env false 160) "node-a";
                          CallDeleteNodes defaultNodeGroupID ["node-b"]] Fixture.pool)
         !! n = Some o' ->
       streakOk (oStatus o').
Proof.
  assert (Hall : forall n o, objects Fixture.pool !! n = Some o -> streakOk (oStatus o)).
  { apply (bool_decide_unpack
             (map_Forall (fun _ o => streakOk (oStatus o)) (objects Fixture.pool))).
    vm_compute. reflexivity. }
  split; [exact Hall|]. apply (streak_stays_well_formed _ Fixture.pool). exact Hall.
Defined.

Lemma power_on_cycle_witness :
  exists w2,
    reconcileAll [Fixture.env false 10; Fixture.env true 70] Fixture.serverName
      (Fixture.world (Fixture.object (Fixture.wolSpec PowerStateOn)
                                     (Fixture.status StatusOffline))) =
      ([({| RequeueAfter := 60 * Second |}, None); (noRequeue, None)], w2)
    /\ objects w2 =
         <[Fixture.serverName :=
             {| oSpec := Fixture.wolSpec PowerStateOn;
                oStatus := {| CurrentStatus := StatusActive; Message := "";
                              FailingSince := None; FailureCount := 0 |} |}]>
           (objects (Fixture.world (Fixture.object (Fixture.wolSpec PowerStateOn)
                                                   (Fixture.status StatusOffline))))
    /\ powerCalls w2 = [] ++ [EvWake "00:11:22:33:44:55" 9].
Proof.
  apply (power_on_cycle (Fixture.env false 10) (Fixture.env true 70) Fixture.serverName
           (Fixture.world (Fixture.object (Fixture.wolSpec PowerStateOn)
                                          (Fixture.status StatusOffline)))
           (Fixture.object (Fixture.wolSpec PowerStateOn) (Fixture.status StatusOffline))
           (EvWake "00:11:22:33:44:55" 9));
    try (vm_compute; reflexivity); try (vm_compute; discriminate).
  cbn. split_and?; try reflexivity. eexists. split_and?; try reflexivity. discriminate.
Defined.

Lemma power_off_cycle_witness :
  exists w2,
    reconcileAll [Fixture.env true 10; Fixture.env false 70] Fixture.serverName
      (Fixture.world (Fixture.object (Fixture.wolSpec PowerStateOff)
                                     (Fixture.status StatusActive))) =
      ([({| RequeueAfter := 60 * Second |}, None); (noRequeue, None)], w2)
    /\ objects w2 =
         <[Fixture.serverName :=
             {| oSpec := Fixture.wolSpec PowerStateOff;
                oStatus := {| CurrentStatus := StatusOffline; Message := "";
                              FailingSince := None; FailureCount := 0 |} |}]>
           (objects (Fixture.world (Fixture.object (Fixture.wolSpec PowerStateOff)
                                                   (Fixture.status StatusActive))))
    /\ powerCalls w2 = [] ++ [EvShutdown "192.168.1.100" "admin"].
Proof.
  apply (power_off_cycle (Fixture.env true 10) (Fixture.env false 70) Fixture.serverName
           (Fixture.world (Fixture.object (Fixture.wolSpec PowerStateOff)
                                          (Fixture.status StatusActive)))
           (Fixture.object (Fixture.wolSpec PowerStateOff) (Fixture.status StatusActive))
           (EvShutdown "192.168.1.100" "admin"));
    try (vm_compute; reflexivity); try (vm_compute; discriminate).
  - by left.
  - by left.
  - cbn. split_and?; try reflexivity. eexists. split_and?; try reflexivity. discriminate.
Defined.

Lemma magic_packet_layout_witness :
  (6 <= length [0; 17; 34; 51; 68; 85; 102; 119])%nat
  /\ length (magicPacket [0; 17; 34; 51; 68; 85; 102; 119]) = 102%nat
  /\ magicPacket [0; 17; 34; 51; 68; 85; 102; 119]
     = replicate 6 255 ++ mjoin (replicate 16 (take 6 [0; 17; 34; 51; 68; 85; 102; 119])).
Proof.
  split; [cbn; lia|].
  destruct (magic_packet_layout [0; 17; 34; 51; 68; 85; 102; 119] ltac:(cbn; lia))
    as (Hlen & Hlayout & _).
  split; [exact Hlen|exact Hlayout].
Defined.

Lemma scale_up_reaches_active_witness :
  exists (n : string) (o : Object) (call : Event),
    objects Fixture.pool !! n = Some o
    /\ PowerState (oSpec o) = PowerStateOff
    /\ warranted (oSpec (withPower PowerStateOn o)) call
    /\ let w' := runCalls [CallIncreaseSize defaultNodeGroupID 1;
                           CallReconcile (Fixture.env false 10) n;
                           CallReconcile (Fixture.env true 70) n] Fixture.pool in
       objects w' =
         <[n := {| oSpec := oSpec (withPower PowerStateOn o);
                   oStatus := {| CurrentStatus := StatusActive; Message := "";
                                 FailingSince := None; FailureCount := 0 |} |}]>
           (objects Fixture.pool)
       /\ powerCalls w' = powerCalls Fixture.pool ++ [call]
       /\ countPower PowerStateOn w' = countPower PowerStateOn Fixture.pool + 1.
Proof.
  apply (scale_up_reaches_active (Fixture.env false 10) (Fixture.env true 70) Fixture.pool).
  - vm_compute. reflexivity.
  - change (map_Forall (fun n o =>
              PowerState (oSpec o) = PowerStateOff ->
              CurrentStatus (oStatus o) <> StatusFailed
              /\ CurrentStatus (oStatus o) <> StatusPending
              /\ CurrentStatus (oStatus o) <> StatusDraining
              /\ FailureCount (oStatus o) < failureThreshold
              /\ getServerAddress (toServer n o) <> ""
              /\ exists call, warranted (oSpec (withPower PowerStateOn o)) call)
            (objects Fixture.pool)).
    unfold Fixture.pool. cbn [objects].
    repeat apply map_Forall_insert_2; [..|apply map_Forall_empty]; intros Hoff;
      try discriminate Hoff;
      (split_and!; [discriminate|discriminate|discriminate|reflexivity|discriminate|]);
      exists (EvWake "00:11:22:33:44:55" 9); cbn; split_and!; try reflexivity;
      eexists; split_and!; try reflexivity; discriminate.
  - reflexivity.
  - by intros [].
  - reflexivity.
Defined.

Lemma delete_node_reaches_offline_witness :
  fst (NodeGroupDeleteNodes defaultNodeGroupID ["node-b"] Fixture.pool) = inl tt
  /\ let w' := runCalls [CallDeleteNodes defaultNodeGroupID ["node-b"];
                         CallReconcile (Fixture.env true 10) "node-b";
                         CallReconcile (Fixture.env false 70) "node-b"] Fixture.pool in
     objects w' =
       <["node-b" :=
           {| oSpec := oSpec (withPower PowerStateOff
                                (Fixture.object (Fixture.wolSpec PowerStateOn)
                                                (Fixture.status StatusActive)));
              oStatus := {| CurrentStatus := StatusOffline; Message := "";
                            FailingSince := None; FailureCount := 0 |} |}]>
         (objects Fixture.pool)
     /\ powerCalls w' = powerCalls Fixture.pool ++ [EvShutdown "192.168.1.100" "admin"].
Proof.
  apply (delete_node_reaches_offline (Fixture.env true 10) (Fixture.env false 70)
           Fixture.pool "node-b"
           (Fixture.object (Fixture.wolSpec PowerStateOn) (Fixture.status StatusActive))
           (EvShutdown "192.168.1.100" "admin"));
    try (vm_compute; reflexivity); try (vm_compute; discriminate).
  - by left.
  - cbn. split_and!; try reflexivity. eexists. split_and!; try reflexivity. discriminate.
Defined.

Lemma power_call_iff_needed_witness :
  exists (r : Result * option error) (w' : World) (evs : list Event),
    Reconcile (Fixture.env true 10) Fixture.serverName
      (Fixture.world (Fixture.object (Fixture.wolSpec "") (Fixture.status StatusOffline)))
    = (r, w')
    /\ trace w' = [] ++ evs
    /\ PowerState (actingSpec (Fixture.object (Fixture.wolSpec "")
                                              (Fixture.status StatusOffline)) true) = ""
    /\ List.filter isPowerCall evs = [].
Proof.
  destruct (power_call_iff_needed (Fixture.env true 10) Fixture.serverName
              (Fixture.world (Fixture.object (Fixture.wolSpec "")
                                             (Fixture.status StatusOffline)))
              (Fixture.object (Fixture.wolSpec "") (Fixture.status StatusOffline))
              ltac:(vm_compute; reflexivity))
    as (r & w' & evs & Heq & Htrace & _ & _ & _ & Hunset).
  exists r, w', evs. split; [exact Heq|]. split; [exact Htrace|].
  exact (Hunset eq_refl).
Defined.

Lemma engine_keeps_the_pool_view_witness :
  Z.of_nat (size (objects Fixture.pool)) < 2 ^ 31
  /\ exists (target : Z) (instances instances' : list Instance),
       NodeGroupTargetSize defaultNodeGroupID Fixture.pool = (inl target, Fixture.pool)
       /\ NodeGroupTargetSize defaultNodeGroupID
            (runCalls [CallReconcile (Fixture.env false 10) "node-a";
                       CallReconcile (Fixture.env true 70) "node-b"] Fixture.pool)
          = (inl target,
             runCalls [CallReconcile (Fixture.env false 10) "node-a";
                       CallReconcile (Fixture.env true 70) "node-b"] Fixture.pool)
       /\ NodeGroupNodes defaultNodeGroupID Fixture.pool = (inl instances, Fixture.pool)
       /\ NodeGroupNodes defaultNodeGroupID
            (runCalls [CallReconcile (Fixture.env false 10) "node-a";
                       CallReconcile (Fixture.env true 70) "node-b"] Fixture.pool)
          = (inl instances',
             runCalls [CallReconcile (Fixture.env false 10) "node-a";
                       CallReconcile (Fixture.env true 70) "node-b"] Fixture.pool)
       /\ length instances' = length instances
       /\ (forall i, i ∈ instances' <-> i ∈ instances).
Proof.
  split; [vm_compute; reflexivity|].
  apply (engine_keeps_the_pool_view
           [(Fixture.env false 10, "node-a"); (Fixture.env true 70, "node-b")] Fixture.pool).
  vm_compute. reflexivity.
Defined.

(** * A record with no desired power state *)

(** The desired power state defaults to off on the fetched copy only.  An
    offline record found reachable is stored active, and the status update
    hands the stored spec back, so the call ends there: no power call, no
    requeue.  An active record found reachable is not stored before the
    power action, which then acts on the default and shuts it down. *)
Example unset_desired_state :
  Reconcile (Fixture.env true 10) Fixture.serverName
    (Fixture.world (Fixture.object (Fixture.wolSpec "") (Fixture.status StatusOffline)))
  = ((noRequeue, None),
     {| objects := {[ Fixture.serverName :=
                        Fixture.object (Fixture.wolSpec "") (Fixture.status StatusActive) ]};
        trace := [EvIsReachable "192.168.1.100";
                  EvStatusUpdate {| Name := Fixture.serverName;
                                    Spec := Fixture.wolSpec PowerStateOff;
                                    Status := Fixture.status StatusActive |}] |})
  /\
  Reconcile (Fixture.env true 10) Fixture.serverName
    (Fixture.world (Fixture.object (Fixture.wolSpec "") (Fixture.status StatusActive)))
  = (({| RequeueAfter := 60 * Second |}, None),
     {| objects := {[ Fixture.serverName :=
                        Fixture.object (Fixture.wolSpec "") (Fixture.status StatusDraining) ]};
        trace := [EvIsReachable "192.168.1.100";
                  EvShutdown "192.168.1.100" "admin";
                  EvStatusUpdate {| Name := Fixture.serverName;
                                    Spec := Fixture.wolSpec PowerStateOff;
                                    Status := Fixture.status StatusDraining |}] |}).
Proof. split; vm_compute; reflexivity. Qed.
